(** * Minesweeper AI: the knowledge base of [minesweeper.py]

    A shallow embedding of the classes [Minesweeper], [Sentence] and
    [MinesweeperAI] of [minesweeper.py], and the properties of the inference
    engine checked against it.

    Conventions of the embedding:
    - a cell is a pair of Python integers, here [Z * Z];
    - a Python [set] of cells is a [gset Cell]; iterating over a set
      ([for x in s.copy()], [list(s)]) goes through [elements s];
    - a [Sentence] object is a record; [self.knowledge] is the list of the
      sentences in the order of the Python list.  The sentences of the list
      are mutated in place by [mark_mine] and [mark_safe]; every sentence owns
      its cell set ([Sentence.__init__] copies it), so the list of records is
      the store, and a loop over the list reads the sentence at its index
      in the current store;
    - [assert] raises [AssertionError]: functions that can fail return a
      [result];
    - the loops that run over a list while it grows, and the [while] loop,
      take fuel;
    - [random.choice] and [random.randrange] take the random number as an
      argument, and the constructor of the board the list of the numbers it
      draws;
    - what [print] writes is kept as the list of the lines written. *)

From stdpp Require Import base gmap sets list.
From Stdlib Require Import ZArith Lia Ascii.

#[local] Set Warnings "-clear-no-such-hyp,-level-tolerance".

Open Scope Z_scope.

(** ** Cells and results *)

Definition Cell : Type := Z * Z.

(** One constructor per [assert] statement of [add_knowledge], in the order
    of the source. *)
Inductive assertion : Type :=
| Assert_i_not_8
| Assert_j_not_8
| Assert_new_mines_not_empty
| Assert_new_safes_not_empty
| Assert_sentence_1_not_empty
| Assert_sentence_2_not_empty
| Assert_new_sentence_not_empty.

(** The exceptions the code can raise. *)
Inductive exception : Type :=
| AssertionError (a : assertion)
| IndexError.

Inductive result (A : Type) : Type :=
| Ok (a : A)
| Raise (e : exception)
| OutOfFuel.
Arguments Ok {A} a.
Arguments Raise {A} e.
Arguments OutOfFuel {A}.

#[global] Instance result_ret : MRet result := λ A a, Ok a.
#[global] Instance result_bind : MBind result := λ A B k r,
  match r with
  | Ok a => k a
  | Raise e => Raise e
  | OutOfFuel => OutOfFuel
  end.

(** [for x in l: acc = f(acc, x)] where the body can raise. *)
Fixpoint for_each {A S : Type} (f : S → A → result S) (l : list A) (s : S)
  : result S :=
  match l with
  | [] => Ok s
  | x :: l' => s' ← f s x ; for_each f l' s'
  end.

(** ** class Minesweeper (the board) *)

Module Minesweeper.

Record t : Type := mk {
  height : Z;
  width : Z;
  board : list (list bool)
}.

(** [self.board[i][j]] for indices that are in bounds. *)
Definition board_at (g : t) (i j : Z) : bool :=
  match board g !! Z.to_nat i with
  | Some row => default false (row !! Z.to_nat j)
  | None => false
  end.

Definition is_mine (g : t) (cell : Cell) : bool :=
  board_at g cell.1 cell.2.

(** [range(a - 1, a + 2)] *)
Definition range3 (a : Z) : list Z := [a - 1; a; a + 1].

Definition nearby_mines (g : t) (cell : Cell) : Z :=
  foldl (λ count i,
    foldl (λ count j,
      if decide ((i, j) = cell) then count
      else if decide (0 ≤ i < height g ∧ 0 ≤ j < width g) then
        if board_at g i j then count + 1 else count
      else count) count (range3 cell.2))
    0 (range3 cell.1).

(** *** Indexing a list *)

(** The position of [l[i]]: an index below 0 counts from the end, and an
    index outside [-len(l) .. len(l) - 1] has none ([IndexError]). *)
Definition position {A : Type} (l : list A) (i : Z) : option nat :=
  if decide (0 ≤ i < Z.of_nat (length l)) then Some (Z.to_nat i)
  else if decide (- Z.of_nat (length l) ≤ i < 0)
       then Some (Z.to_nat (Z.of_nat (length l) + i))
       else None.

(** [l[i]] and [l[i] = x] *)
Definition getitem {A : Type} (l : list A) (i : Z) : result A :=
  match position l i ≫= (l !!.) with
  | Some x => Ok x
  | None => Raise IndexError
  end.

Definition setitem {A : Type} (l : list A) (i : Z) (x : A) : result (list A) :=
  match position l i with
  | Some n => Ok (<[n := x]> l)
  | None => Raise IndexError
  end.

(** [is_mine] with the exceptions of [self.board[i][j]]. *)
Definition is_mine_at (g : t) (cell : Cell) : result bool :=
  row ← getitem (board g) cell.1 ; getitem row cell.2.

(** *** The constructor *)

(** The object: the board above with the sets [mines] and
    [mines_found]. *)
Record game : Type := mk_game {
  field : t;
  mines : gset Cell;
  mines_found : gset Cell
}.

(** [random.randrange] raises [ValueError]; the other exceptions are those
    above. *)
Inductive raised : Type :=
| ValueError
| Exception (e : exception).

(** The constructor returns, raises, or is in its [while] loop still when
    the random numbers at hand are used up. *)
Inductive outcome (A : Type) : Type :=
| Returned (a : A)
| Raised (e : raised)
| Unfinished.
Arguments Returned {A} a.
Arguments Raised {A} e.
Arguments Unfinished {A}.

#[global] Instance outcome_ret : MRet outcome := λ A a, Returned a.
#[global] Instance outcome_bind : MBind outcome := λ A B k r,
  match r with
  | Returned a => k a
  | Raised e => Raised e
  | Unfinished => Unfinished
  end.

Definition lift {A : Type} (r : result A) : outcome A :=
  match r with
  | Ok a => Returned a
  | Raise e => Raised (Exception e)
  | OutOfFuel => Unfinished
  end.

(** [range(n)] *)
Definition range (n : Z) : list Z := seqZ 0 n.

(** [random.randrange(n)]: [ValueError] on an empty range, and otherwise a
    number of [range(n)], here the random number [r] reduced below [n]. *)
Definition randrange (n : Z) (r : Z) : outcome Z :=
  if decide (0 < n) then Returned (r `mod` n) else Raised ValueError.

(** The two [for] loops that fill the board with [False]. *)
Definition empty_board (height width : Z) : list (list bool) :=
  foldl (λ (board : list (list bool)) (i : Z),
           board ++ [foldl (λ (row : list bool) (j : Z), row ++ [false])
                           [] (range width)])
        [] (range height).

(** The body of [while len(self.mines) != mines], on the pair
    [(self.board, self.mines)], with the random numbers of the two calls
    of [randrange]. *)
Definition place (height width : Z) (st : list (list bool) * gset Cell)
    (r : Z * Z) : outcome (list (list bool) * gset Cell) :=
  i ← randrange height r.1 ;
  j ← randrange width r.2 ;
  row ← lift (getitem st.1 i) ;
  b ← lift (getitem row j) ;
  if b : bool then Returned st
  else
    row' ← lift (setitem row j true) ;
    board' ← lift (setitem st.1 i row') ;
    Returned (board', {[ (i, j) ]} ∪ st.2).

Fixpoint place_mines (height width mines : Z) (draws : list (Z * Z))
    (st : list (list bool) * gset Cell)
  : outcome (list (list bool) * gset Cell) :=
  if decide (Z.of_nat (size st.2) ≠ mines) then
    match draws with
    | [] => Unfinished
    | r :: draws =>
      st' ← place height width st r ;
      place_mines height width mines draws st'
    end
  else Returned st.

(** [__init__], with the random numbers it draws. *)
Definition init (height width mines : Z) (draws : list (Z * Z))
  : outcome game :=
  '(board, placed) ←
    place_mines height width mines draws (empty_board height width, ∅) ;
  Returned (mk_game (mk height width board) placed ∅).

Definition won (g : game) : bool :=
  bool_decide (mines_found g = mines g).

(** *** print *)

(** What is written to the standard output: the lines that are finished,
    and the characters of the line that is not. *)
Definition output : Type := list (list ascii) * list ascii.

(** [print(s, end="")] and [print(s)] *)
Definition write (s : list ascii) (out : output) : output :=
  (out.1, out.2 ++ s).

Definition write_line (s : list ascii) (out : output) : output :=
  (out.1 ++ [out.2 ++ s], []).

(** A [for] loop whose body writes and can raise: what is written before
    the exception stays written. *)
Fixpoint writing {A : Type} (f : output → A → output * option exception)
    (l : list A) (out : output) : output * option exception :=
  match l with
  | [] => (out, None)
  | x :: l' =>
    match f out x with
    | (out', None) => writing f l' out'
    | (out', Some e) => (out', Some e)
    end
  end.

(** ["--" * self.width + "-"] *)
Definition rule (width : Z) : list ascii :=
  mjoin (replicate (Z.to_nat width) ["-"; "-"]%char) ++ ["-"%char].

(** The body of [for j in range(self.width)]; the only exception of
    [self.board[i][j]] is [IndexError]. *)
Definition print_cell (g : t) (i : Z) (out : output) (j : Z)
  : output * option exception :=
  match row ← getitem (board g) i ; getitem row j with
  | Ok b => (write (if b : bool then ["|"; "X"] else ["|"; " "])%char out, None)
  | _ => (out, Some IndexError)
  end.

(** The body of [for i in range(self.height)]. *)
Definition print_row (g : t) (out : output) (i : Z)
  : output * option exception :=
  match writing (print_cell g i) (range (width g))
                (write_line (rule (width g)) out) with
  | (out', None) => (write_line ["|"%char] out', None)
  | (out', Some e) => (out', Some e)
  end.

Definition print (g : t) : output * option exception :=
  match writing (print_row g) (range (height g)) ([], []) with
  | (out, None) => (write_line (rule (width g)) out, None)
  | (out, Some e) => (out, Some e)
  end.

End Minesweeper.

(** ** class Sentence *)

Module Sentence.

Record t : Type := mk {
  cells : gset Cell;
  count : Z
}.

(** [__eq__]: same cells and same count, which is equality of records. *)
#[global] Instance eq_dec : EqDecision t.
Proof. solve_decision. Defined.

(** [known_mines] returns [self.cells] itself or [None]. *)
Definition known_mines (s : t) : option (gset Cell) :=
  if decide (Z.of_nat (size (cells s)) = count s) then Some (cells s)
  else None.

Definition known_safes (s : t) : option (gset Cell) :=
  if decide (count s = 0) then Some (cells s) else None.

Definition mark_mine (s : t) (cell : Cell) : t :=
  if decide (cell ∈ cells s)
  then mk (cells s ∖ {[cell]}) (count s - 1)
  else s.

Definition mark_safe (s : t) (cell : Cell) : t :=
  if decide (cell ∈ cells s)
  then mk (cells s ∖ {[cell]}) (count s)
  else s.

End Sentence.

Abbreviation Sentence := Sentence.t.

(** ** class MinesweeperAI *)

Module MinesweeperAI.

Record t : Type := mk {
  height : Z;
  width : Z;
  moves_made : gset Cell;
  mines : gset Cell;
  safes : gset Cell;
  knowledge : list Sentence
}.

(** [__init__] *)
Definition init (height width : Z) : t := mk height width ∅ ∅ ∅ [].

Definition set_knowledge (ai : t) (kb : list Sentence) : t :=
  mk (height ai) (width ai) (moves_made ai) (mines ai) (safes ai) kb.

Definition mark_mine (ai : t) (cell : Cell) : t :=
  mk (height ai) (width ai) (moves_made ai)
     ({[cell]} ∪ mines ai) (safes ai)
     ((λ s, Sentence.mark_mine s cell) <$> knowledge ai).

Definition mark_safe (ai : t) (cell : Cell) : t :=
  mk (height ai) (width ai) (moves_made ai)
     (mines ai) ({[cell]} ∪ safes ai)
     ((λ s, Sentence.mark_safe s cell) <$> knowledge ai).

(** *** add_knowledge, step 3: the sentence of the neighbours *)

(** The cells [(_i, _j)] in the order of the two nested [range] loops. *)
Definition neighborhood (cell : Cell) : list Cell :=
  i ← Minesweeper.range3 cell.1; j ← Minesweeper.range3 cell.2; [(i, j)].

(** The body of the nested loops, on the pair
    [(neighboring_cells, count)]. *)
Definition neighbor_step (ai : t) (cell : Cell)
    (acc : gset Cell * Z) (n : Cell) : result (gset Cell * Z) :=
  let '(neighboring_cells, count) := acc in
  if decide (n = cell) then Ok acc
  else if decide (n ∈ safes ai) then Ok acc
  else if decide (n ∈ mines ai) then Ok (neighboring_cells, count - 1)
  else if decide (0 ≤ n.1 < height ai ∧ 0 ≤ n.2 < height ai) then
    if decide (n.1 ≠ 8) then
      if decide (n.2 ≠ 8) then Ok ({[n]} ∪ neighboring_cells, count)
      else Raise (AssertionError Assert_j_not_8)
    else Raise (AssertionError Assert_i_not_8)
  else Ok acc.

Definition neighbor_sentence (ai : t) (cell : Cell) (count : Z)
  : result (gset Cell * Z) :=
  for_each (neighbor_step ai cell) (neighborhood cell) (∅, count).

(** *** The first [for] loop of the [while] body: deduction *)

(** [for mine in new_mines.copy(): if mine not in self.mines: ...] on the
    pair [(self, changed)]. *)
Definition mark_new_mines (st : t * bool) (new_mines : list Cell) : t * bool :=
  foldl (λ '(ai, changed) mine,
           if decide (mine ∈ mines ai) then (ai, changed)
           else (mark_mine ai mine, true)) st new_mines.

Definition mark_new_safes (st : t * bool) (new_safes : list Cell) : t * bool :=
  foldl (λ '(ai, changed) safe,
           if decide (safe ∈ safes ai) then (ai, changed)
           else (mark_safe ai safe, true)) st new_safes.

(** The body of [for sentence in self.knowledge], for the sentence at
    index [k].  [new_mines] and [new_safes] are, when not [None], the set
    object [sentence.cells] itself: [new_mines] is read at once, while
    [new_safes] is read after the calls of [mark_mine], from the sentence
    as it is in the store by then. *)
Definition deduce_step (st : t * bool) (k : nat) : result (t * bool) :=
  match knowledge st.1 !! k with
  | None => Ok st
  | Some sentence =>
    if decide (Sentence.cells sentence = ∅) then Ok st
    else
      let new_mines := Sentence.known_mines sentence in
      let new_safes := Sentence.known_safes sentence in
      st1 ← match new_mines with
            | Some new_mines =>
              if decide (new_mines ≠ ∅)
              then Ok (mark_new_mines st (elements new_mines))
              else Raise (AssertionError Assert_new_mines_not_empty)
            | None => Ok st
            end ;
      match new_safes with
      | Some _ =>
        let new_safes :=
          from_option Sentence.cells ∅ (knowledge st1.1 !! k) in
        if decide (new_safes ≠ ∅)
        then Ok (mark_new_safes st1 (elements new_safes))
        else Raise (AssertionError Assert_new_safes_not_empty)
      | None => Ok st1
      end
  end.

(** The list does not change length in this loop. *)
Definition deduce (st : t * bool) : result (t * bool) :=
  for_each deduce_step (seq 0 (length (knowledge st.1))) st.

(** *** The nested [for] loops of the [while] body: subset resolution *)

(** The body of the inner loop, on the pair [(self.knowledge, changed)]. *)
Definition resolve_pair (st : list Sentence * bool)
    (sentence_1 sentence_2 : Sentence) : result (list Sentence * bool) :=
  if decide (sentence_1 = sentence_2) then Ok st
  else if decide (Sentence.cells sentence_1 = ∅
                  ∨ Sentence.cells sentence_2 = ∅) then Ok st
  else if decide (Sentence.cells sentence_1 ⊆ Sentence.cells sentence_2) then
    if decide (Sentence.cells sentence_1 ≠ ∅) then
      if decide (Sentence.cells sentence_2 ≠ ∅) then
        let new_sentence :=
          Sentence.mk
            (Sentence.cells sentence_2 ∖ Sentence.cells sentence_1)
            (Sentence.count sentence_2 - Sentence.count sentence_1) in
        if decide (new_sentence ∉ st.1) then
          if decide (Sentence.cells new_sentence ≠ ∅)
          then Ok (st.1 ++ [new_sentence], true)
          else Raise (AssertionError Assert_new_sentence_not_empty)
        else Ok st
      else Raise (AssertionError Assert_sentence_2_not_empty)
    else Raise (AssertionError Assert_sentence_1_not_empty)
  else Ok st.

(** [for sentence_2 in self.knowledge], from index [j] on: the list
    iterator reads the list at its index, so sentences appended by the
    body are visited too. *)
Fixpoint resolve_inner (fuel : nat) (st : list Sentence * bool)
    (sentence_1 : Sentence) (j : nat) : result (list Sentence * bool) :=
  match fuel with
  | O => OutOfFuel
  | S fuel =>
    match st.1 !! j with
    | None => Ok st
    | Some sentence_2 =>
      st' ← resolve_pair st sentence_1 sentence_2 ;
      resolve_inner fuel st' sentence_1 (S j)
    end
  end.

(** [for sentence_1 in self.knowledge], from index [i] on. *)
Fixpoint resolve_outer (fuel : nat) (st : list Sentence * bool) (i : nat)
  : result (list Sentence * bool) :=
  match fuel with
  | O => OutOfFuel
  | S fuel =>
    match st.1 !! i with
    | None => Ok st
    | Some sentence_1 =>
      st' ← resolve_inner fuel st sentence_1 0 ;
      resolve_outer fuel st' (S i)
    end
  end.

(** *** The [while] loop *)

Definition empty : Sentence := Sentence.mk ∅ 0.

(** [self.knowledge[:] = [s for s in self.knowledge if s != empty]] *)
Definition remove_empty (kb : list Sentence) : list Sentence :=
  filter (λ sentence, sentence ≠ empty) kb.

(** One run of the body of [while changed]. *)
Definition closure_body (fuel : nat) (st : t * bool) : result (t * bool) :=
  st1 ← (if st.2 then deduce (st.1, false) else Ok st) ;
  '(kb, changed) ← resolve_outer fuel (knowledge st1.1, st1.2) 0 ;
  Ok (set_knowledge st1.1 (remove_empty kb), changed).

Fixpoint closure (fuel : nat) (st : t * bool) : result t :=
  if st.2 then
    match fuel with
    | O => OutOfFuel
    | S fuel => st' ← closure_body fuel st ; closure fuel st'
    end
  else Ok st.1.

(** *** add_knowledge *)

Definition add_moves_made (ai : t) (cell : Cell) : t :=
  mk (height ai) (width ai) ({[cell]} ∪ moves_made ai)
     (mines ai) (safes ai) (knowledge ai).

(** Steps 1 to 3: everything before the [while] loop. *)
Definition add_sentence (ai : t) (cell : Cell) (count : Z) : result t :=
  let ai := add_moves_made ai cell in
  let ai := mark_safe ai cell in
  '(neighboring_cells, count) ← neighbor_sentence ai cell count ;
  if decide (neighboring_cells ≠ ∅)
  then Ok (set_knowledge ai
             (knowledge ai ++ [Sentence.mk neighboring_cells count]))
  else Ok ai.

Definition add_knowledge (fuel : nat) (ai : t) (cell : Cell) (count : Z)
  : result t :=
  ai ← add_sentence ai cell count ;
  closure fuel (ai, true).

(** *** make_safe_move *)

(** [random.choice(seq)] raises [IndexError] on an empty sequence and is
    [seq[randbelow(len(seq))]] otherwise; the random source is the number
    [r], reduced below the length. *)
Definition random_choice {A : Type} (r : nat) (l : list A) : result A :=
  match l with
  | [] => Raise IndexError
  | _ =>
    match l !! (r `mod` length l)%nat with
    | Some x => Ok x
    | None => Raise IndexError
    end
  end.

(** Returns the move, or [None], together with the agent as the call
    leaves it. *)
Definition make_safe_move (r : nat) (ai : t) : result (option Cell * t) :=
  let safes := safes ai ∖ moves_made ai in
  if decide (safes ≠ ∅)
  then move ← random_choice r (elements safes); Ok (Some move, ai)
  else Ok (None, ai).

(** *** make_random_move *)

(** [set((i, j) for i in range(self.height) for j in range(self.width))] *)
Definition all_cells (ai : t) : gset Cell :=
  list_to_set (i ← Minesweeper.range (height ai) ;
               j ← Minesweeper.range (width ai) ; [(i, j)]).

Definition make_random_move (r : nat) (ai : t) : result (option Cell * t) :=
  let available_cells := all_cells ai ∖ mines ai ∖ moves_made ai in
  if decide (available_cells = ∅) then Ok (None, ai)
  else random_move ← random_choice r (elements available_cells) ;
       Ok (Some random_move, ai).

End MinesweeperAI.

Abbreviation AI := MinesweeperAI.t.

Import MinesweeperAI.


(** * Properties *)

(** ** Sentence.known_mines and Sentence.known_safes *)

Section KnownCells.

Implicit Types s : Sentence.

Lemma known_mines_Some s X :
  Sentence.known_mines s = Some X ↔
  Z.of_nat (size (Sentence.cells s)) = Sentence.count s ∧ X = Sentence.cells s.
Proof.
  unfold Sentence.known_mines. case_decide; split.
  - intros [= <-]. done.
  - intros [_ ->]. done.
  - done.
  - intros [? _]. done.
Qed.

Lemma known_safes_Some s X :
  Sentence.known_safes s = Some X ↔
  Sentence.count s = 0 ∧ X = Sentence.cells s.
Proof.
  unfold Sentence.known_safes. case_decide; split.
  - intros [= <-]. done.
  - intros [_ ->]. done.
  - done.
  - intros [? _]. done.
Qed.

Lemma size_pos_nonempty (X : gset Cell) : 0 < Z.of_nat (size X) ↔ X ≠ ∅.
Proof.
  split.
  - intros Hpos ->. rewrite size_empty in Hpos. lia.
  - intros Hne. destruct (decide (size X = 0%nat)) as [Hz|Hz]; [|lia].
    by apply size_empty_inv, leibniz_equiv in Hz.
Qed.

(** On a sentence with cells, the two queries never both answer. *)
Lemma known_mines_safes_exclusive s :
  Sentence.cells s ≠ ∅ →
  Sentence.known_mines s = None ∨ Sentence.known_safes s = None.
Proof.
  intros Hne. unfold Sentence.known_mines, Sentence.known_safes.
  repeat case_decide; auto.
  apply size_pos_nonempty in Hne. lia.
Qed.

End KnownCells.

(** C3, as the code has it: [known_mines] returns the cells when their
    number equals a positive count, [known_safes] returns the cells when the
    count is 0 and there are cells, and in every other case both return
    [None], except on the empty sentence with count 0, where both return the
    (empty) cell set. *)
Theorem known_cells_spec (s : Sentence) :
  (Z.of_nat (size (Sentence.cells s)) = Sentence.count s →
   0 < Sentence.count s →
   Sentence.known_mines s = Some (Sentence.cells s)) ∧
  (Sentence.count s = 0 → Sentence.cells s ≠ ∅ →
   Sentence.known_safes s = Some (Sentence.cells s)) ∧
  (¬ (Z.of_nat (size (Sentence.cells s)) = Sentence.count s
      ∧ 0 < Sentence.count s) →
   ¬ (Sentence.count s = 0 ∧ Sentence.cells s ≠ ∅) →
   ¬ (Sentence.cells s = ∅ ∧ Sentence.count s = 0) →
   Sentence.known_mines s = None ∧ Sentence.known_safes s = None) ∧
  (Sentence.cells s = ∅ → Sentence.count s = 0 →
   Sentence.known_mines s = Some ∅ ∧ Sentence.known_safes s = Some ∅).
Proof.
  unfold Sentence.known_mines, Sentence.known_safes.
  split; [|split; [|split]].
  - intros Hsz _. by rewrite decide_True.
  - intros Hc _. by rewrite decide_True.
  - intros Hm Hs He.
    split; case_decide; try done; exfalso.
    + destruct (decide (Sentence.count s = 0)) as [Hz|Hz]; [|lia].
      apply He. split; [|done].
      destruct (decide (Sentence.cells s = ∅)) as [|Hne]; [done|].
      apply size_pos_nonempty in Hne. lia.
    + destruct (decide (Sentence.cells s = ∅)); tauto.
  - intros He Hc. rewrite He, Hc, size_empty. by rewrite !decide_True.
Qed.

Lemma known_cells_spec_witness :
  Sentence.known_mines (Sentence.mk {[ (0, 0) ]} 1) = Some {[ (0, 0) ]} ∧
  Sentence.known_safes (Sentence.mk {[ (0, 0); (0, 1) ]} 0)
    = Some {[ (0, 0); (0, 1) ]} ∧
  (Sentence.known_mines (Sentence.mk {[ (0, 0); (0, 1) ]} 1) = None ∧
   Sentence.known_safes (Sentence.mk {[ (0, 0); (0, 1) ]} 1) = None) ∧
  (Sentence.known_mines (Sentence.mk ∅ 0) = Some ∅ ∧
   Sentence.known_safes (Sentence.mk ∅ 0) = Some ∅).
Proof.
  split; [|split; [|split]].
  - destruct (known_cells_spec (Sentence.mk {[ (0, 0) ]} 1)) as (H & _).
    apply H; vm_compute; reflexivity.
  - destruct (known_cells_spec (Sentence.mk {[ (0, 0); (0, 1) ]} 0))
      as (_ & H & _).
    apply H; [reflexivity | vm_compute; discriminate].
  - destruct (known_cells_spec (Sentence.mk {[ (0, 0); (0, 1) ]} 1))
      as (_ & _ & H & _).
    apply H; vm_compute; intros [? ?]; discriminate.
  - destruct (known_cells_spec (Sentence.mk ∅ 0)) as (_ & _ & _ & H).
    apply H; reflexivity.
Defined.

(** C3, counterexample: the empty sentence with count 0 falls in none of
    the two cases of the claim, and both queries return a set on it. *)
Lemma known_cells_empty_sentence :
  let s := Sentence.mk ∅ 0 in
  ¬ (Z.of_nat (size (Sentence.cells s)) = Sentence.count s
     ∧ 0 < Sentence.count s) ∧
  ¬ (Sentence.count s = 0 ∧ Sentence.cells s ≠ ∅) ∧
  Sentence.known_mines s ≠ None ∧
  Sentence.known_safes s ≠ None.
Proof.
  cbn. split; [|split; [|split]].
  - intros [_ ?]. lia.
  - intros [_ ?]. done.
  - vm_compute. discriminate.
  - vm_compute. discriminate.
Qed.

(** ** make_safe_move *)

Lemma random_choice_elem {A : Type} (r : nat) (l : list A) :
  l ≠ [] → ∃ x, random_choice r l = Ok x ∧ x ∈ l.
Proof.
  intros Hl. unfold random_choice.
  destruct l as [|a l]; [done|].
  set (l' := a :: l).
  assert (Hlt : (r `mod` length l' < length l')%nat).
  { apply Nat.mod_upper_bound. subst l'. cbn. lia. }
  apply lookup_lt_is_Some_2 in Hlt as [x Hx].
  exists x. rewrite Hx. split; [done|]. by eapply list_elem_of_lookup_2.
Qed.

(** C9: [make_safe_move] returns a member of [safes - moves_made] when
    there is one, and [None] otherwise; it raises nothing and leaves the
    agent as it was. *)
Theorem make_safe_move_spec (r : nat) (ai : AI) :
  (safes ai ∖ moves_made ai ≠ ∅ →
   ∃ move, make_safe_move r ai = Ok (Some move, ai)
           ∧ move ∈ safes ai ∖ moves_made ai) ∧
  (safes ai ∖ moves_made ai = ∅ → make_safe_move r ai = Ok (None, ai)).
Proof.
  unfold make_safe_move. split; intros Hs.
  - rewrite decide_True by done.
    destruct (random_choice_elem r (elements (safes ai ∖ moves_made ai)))
      as (x & Hx & Hin).
    { intros He. by apply elements_empty_inv, leibniz_equiv in He. }
    exists x. rewrite Hx. split; [done|]. by apply elem_of_elements.
  - rewrite decide_False; [done|]. intros Hne. by apply Hne.
Qed.

Lemma make_safe_move_spec_witness :
  (∃ move,
     make_safe_move 5 (mk 8 8 {[ (0, 0) ]} ∅ {[ (0, 0); (0, 1) ]} [])
     = Ok (Some move, mk 8 8 {[ (0, 0) ]} ∅ {[ (0, 0); (0, 1) ]} [])
     ∧ move ∈ ({[ (0, 0); (0, 1) ]} : gset Cell) ∖ {[ (0, 0) ]}) ∧
  make_safe_move 5 (init 8 8) = Ok (None, init 8 8).
Proof.
  split.
  - destruct (make_safe_move_spec 5
                (mk 8 8 {[ (0, 0) ]} ∅ {[ (0, 0); (0, 1) ]} [])) as (H & _).
    apply H. vm_compute. discriminate.
  - destruct (make_safe_move_spec 5 (init 8 8)) as (_ & H).
    apply H. reflexivity.
Defined.

(** ** Loops in the result monad *)

Section ForEach.

Context {A S : Type}.
Implicit Types (f : S → A → result S) (l : list A) (s : S).

Lemma for_each_app f l1 l2 s :
  for_each f (l1 ++ l2) s = (s' ← for_each f l1 s; for_each f l2 s').
Proof.
  revert s. induction l1 as [|x l1 IH]; intros s; cbn; [done|].
  destruct (f s x); cbn; auto.
Qed.

(** A property kept by every step is kept by the loop. *)
Lemma for_each_invariant (P : S → Prop) f l s r :
  P s →
  (∀ s x s', x ∈ l → P s → f s x = Ok s' → P s') →
  for_each f l s = Ok r → P r.
Proof.
  revert s. induction l as [|x l IH]; intros s Hs Hstep; cbn.
  - by intros [= <-].
  - destruct (f s x) as [s'| |] eqn:Hf; cbn; try done.
    apply IH.
    + eapply Hstep; [left | done | done].
    + intros ? y ? Hy. apply Hstep. by right.
Qed.

(** A loop whose steps all return returns. *)
Lemma for_each_total (P : S → Prop) f l s :
  P s →
  (∀ s x, x ∈ l → P s → ∃ s', f s x = Ok s' ∧ P s') →
  ∃ r, for_each f l s = Ok r ∧ P r.
Proof.
  revert s. induction l as [|x l IH]; intros s Hs Hstep; cbn.
  - eauto.
  - destruct (Hstep s x) as (s' & -> & Hs'); [left | done |]. cbn.
    apply IH; [done|]. intros ? y Hy. apply Hstep. by right.
Qed.

(** An exception of the loop is an exception of one of its steps. *)
Lemma for_each_raise f l s e :
  for_each f l s = Raise e → ∃ s' x, x ∈ l ∧ f s' x = Raise e.
Proof.
  revert s. induction l as [|x l IH]; intros s; cbn; [done|].
  destruct (f s x) as [s'| e' |] eqn:Hf; cbn; try done.
  - intros (s'' & y & Hy & Hr)%IH. exists s'', y. split; [by right | done].
  - intros [= ->]. exists s, x. split; [left | done].
Qed.

(** A loop whose steps need no fuel needs none. *)
Lemma for_each_fuel f l s :
  (∀ s x, f s x ≠ OutOfFuel) → for_each f l s ≠ OutOfFuel.
Proof.
  intros Hf. revert s. induction l as [|x l IH]; intros s; cbn; [done|].
  specialize (Hf s x). destruct (f s x); cbn; [apply IH | done | done].
Qed.

End ForEach.

Lemma bind_Ok {A B : Type} (r : result A) (k : A → result B) (b : B) :
  r ≫= k = Ok b ↔ ∃ a, r = Ok a ∧ k a = Ok b.
Proof.
  destruct r; cbn; split; intros H; try done; eauto;
    destruct H as (? & ? & ?); by simplify_eq.
Qed.

Lemma bind_Raise {A B : Type} (r : result A) (k : A → result B) e :
  r ≫= k = Raise e ↔ r = Raise e ∨ ∃ a, r = Ok a ∧ k a = Raise e.
Proof.
  destruct r; cbn; split; intros H; try done; eauto;
    try (destruct H as [?|(? & ? & ?)]; by simplify_eq).
  left. by simplify_eq.
Qed.

(** ** The sentence of the neighbours *)

Section Neighbors.

Variables (ai : AI) (cell : Cell).

(** The neighbours the loop keeps, and the ones it counts as mines. *)
Definition undetermined (n : Cell) : Prop :=
  n ≠ cell ∧ n ∉ safes ai ∧ n ∉ mines ai
  ∧ (0 ≤ n.1 < height ai) ∧ (0 ≤ n.2 < height ai).

Definition accounted (n : Cell) : Prop :=
  n ≠ cell ∧ n ∉ safes ai ∧ n ∈ mines ai.

#[global] Instance undetermined_dec n : Decision (undetermined n).
Proof. unfold undetermined. apply _. Defined.

#[global] Instance accounted_dec n : Decision (accounted n).
Proof. unfold accounted. apply _. Defined.

Lemma neighbor_step_Ok acc n acc' :
  neighbor_step ai cell acc n = Ok acc' →
  acc'.1 = (if decide (undetermined n) then {[ n ]} ∪ acc.1 else acc.1) ∧
  acc'.2 = (if decide (accounted n) then acc.2 - 1 else acc.2).
Proof.
  destruct acc as [nc c]. unfold neighbor_step, undetermined, accounted.
  repeat case_decide; intros [= <-]; cbn; split; try done; tauto.
Qed.

Lemma neighbor_loop_Ok l acc acc' :
  for_each (neighbor_step ai cell) l acc = Ok acc' →
  acc'.1 = list_to_set (filter undetermined l) ∪ acc.1 ∧
  acc'.2 = acc.2 - Z.of_nat (length (filter accounted l)).
Proof.
  revert acc. induction l as [|n l IH]; intros acc.
  - cbn. intros [= <-]. split; [set_solver | lia].
  - rewrite !filter_cons. cbn [for_each].
    intros (acc1 & Hstep & Hrest)%bind_Ok.
    apply neighbor_step_Ok in Hstep as [H1 H2].
    apply IH in Hrest as [-> ->]. rewrite H1, H2. clear IH H1 H2.
    split.
    + destruct (decide (undetermined n)); cbn [list_to_set]; [|done].
      set_solver.
    + destruct (decide (accounted n)); cbn [length]; lia.
Qed.

(** What the loop over the neighbours computes when no assertion fails:
    the column of a neighbour is compared with [height]. *)
Lemma neighbor_sentence_Ok count neighboring_cells count' :
  neighbor_sentence ai cell count = Ok (neighboring_cells, count') →
  neighboring_cells = list_to_set (filter undetermined (neighborhood cell)) ∧
  count' = count - Z.of_nat (length (filter accounted (neighborhood cell))).
Proof.
  intros [H1 H2]%neighbor_loop_Ok. cbn in *. split; [set_solver | done].
Qed.

Lemma neighbor_step_raise acc n e :
  neighbor_step ai cell acc n = Raise e →
  (0 ≤ n.1 < height ai) ∧ (0 ≤ n.2 < height ai) ∧
  (e = AssertionError Assert_i_not_8 ∧ n.1 = 8
   ∨ e = AssertionError Assert_j_not_8 ∧ n.2 = 8).
Proof.
  destruct acc as [nc c]. unfold neighbor_step.
  repeat case_decide; intros [= <-]; repeat split; tauto.
Qed.

(** The loop returns, or one of its two assertions fails, which needs more
    than 8 rows. *)
Lemma neighbor_sentence_cases count :
  (∃ r, neighbor_sentence ai cell count = Ok r)
  ∨ 8 < height ai
    ∧ (neighbor_sentence ai cell count = Raise (AssertionError Assert_i_not_8)
       ∨ neighbor_sentence ai cell count
         = Raise (AssertionError Assert_j_not_8)).
Proof.
  destruct (neighbor_sentence ai cell count) as [r|e|] eqn:Hn.
  - eauto.
  - right. apply for_each_raise in Hn as (acc & n & _ & Hr).
    apply neighbor_step_raise in Hr as (? & ? & [[-> ?]|[-> ?]]);
      (split; [lia | auto]).
  - exfalso. revert Hn. apply for_each_fuel.
    intros [nc c] n. unfold neighbor_step. by repeat case_decide.
Qed.

End Neighbors.

(** ** Deduction never raises *)

Lemma deduce_step_returns (st : AI * bool) (k : nat) :
  ∃ st', deduce_step st k = Ok st'.
Proof.
  unfold deduce_step.
  destruct (knowledge st.1 !! k) as [sentence|] eqn:Hk; [|eauto].
  case_decide as Hne; [eauto|].
  destruct (known_mines_safes_exclusive sentence Hne) as [Hm|Hs].
  - rewrite Hm. cbn. rewrite Hk. cbn.
    destruct (Sentence.known_safes sentence); [|eauto].
    rewrite decide_True by done. eauto.
  - rewrite Hs.
    destruct (Sentence.known_mines sentence) as [nm|] eqn:Hm; [|cbn; eauto].
    apply known_mines_Some in Hm as [_ ->].
    rewrite decide_True by done. cbn. eauto.
Qed.

Lemma deduce_returns (st : AI * bool) : ∃ st', deduce st = Ok st'.
Proof.
  destruct (for_each_total (λ _, True) deduce_step
              (seq 0 (length (knowledge st.1))) st) as (r & Hr & _);
    [done | | by exists r].
  intros s k _ _. destruct (deduce_step_returns s k) as [s' ->]. eauto.
Qed.

(** ** Subset resolution: one pair *)

(** The sentence [new_sentence] built from [sentence_1] and [sentence_2]. *)
Definition candidate (sentence_1 sentence_2 : Sentence) : Sentence :=
  Sentence.mk (Sentence.cells sentence_2 ∖ Sentence.cells sentence_1)
              (Sentence.count sentence_2 - Sentence.count sentence_1).

(** The pairs for which the body of the loops builds [new_sentence]. *)
Definition resolvable (sentence_1 sentence_2 : Sentence) : Prop :=
  sentence_1 ≠ sentence_2
  ∧ Sentence.cells sentence_1 ≠ ∅ ∧ Sentence.cells sentence_2 ≠ ∅
  ∧ Sentence.cells sentence_1 ⊆ Sentence.cells sentence_2.

#[global] Instance resolvable_dec s1 s2 : Decision (resolvable s1 s2).
Proof. unfold resolvable. apply _. Defined.

Lemma resolve_pair_unfold (st : list Sentence * bool) (s1 s2 : Sentence) :
  resolve_pair st s1 s2 =
  if decide (resolvable s1 s2) then
    if decide (candidate s1 s2 ∈ st.1) then Ok st
    else if decide (Sentence.cells (candidate s1 s2) ≠ ∅)
         then Ok (st.1 ++ [candidate s1 s2], true)
         else Raise (AssertionError Assert_new_sentence_not_empty)
  else Ok st.
Proof.
  unfold resolve_pair, resolvable, candidate.
  repeat case_decide; try done; tauto.
Qed.

(** The cells of the candidate are empty exactly when the two sentences
    have the same cells (and then different counts). *)
Lemma candidate_empty (s1 s2 : Sentence) :
  resolvable s1 s2 →
  Sentence.cells (candidate s1 s2) = ∅ ↔ Sentence.cells s1 = Sentence.cells s2.
Proof.
  intros (_ & _ & _ & Hsub). cbn. split.
  - intros He. apply set_eq. intros x. split; [by apply Hsub|].
    intros Hx. destruct (decide (x ∈ Sentence.cells s1)) as [|Hn]; [done|].
    assert (x ∈ Sentence.cells s2 ∖ Sentence.cells s1) as Hd by set_solver.
    rewrite He in Hd. set_solver.
  - intros ->. set_solver.
Qed.

Lemma candidate_empty_count (s1 s2 : Sentence) :
  resolvable s1 s2 → Sentence.cells (candidate s1 s2) = ∅ →
  Sentence.count (candidate s1 s2) ≠ 0.
Proof.
  intros Hr He. apply candidate_empty in He; [|done].
  destruct Hr as (Hne & _). destruct s1, s2; cbn in *.
  intros Hc. apply Hne. f_equal; [done | lia].
Qed.

(** The candidate of [s1] is no superset of [s1]. *)
Lemma candidate_not_resolvable (s1 s2 : Sentence) :
  Sentence.cells s1 ≠ ∅ → ¬ resolvable s1 (candidate s1 s2).
Proof.
  intros Hne (_ & _ & _ & Hsub). cbn in Hsub. set_solver.
Qed.

(** ** Exceptions of the closure *)

Lemma resolve_pair_raise st s1 s2 e :
  resolve_pair st s1 s2 = Raise e →
  e = AssertionError Assert_new_sentence_not_empty.
Proof.
  rewrite resolve_pair_unfold. repeat case_decide; congruence.
Qed.

Lemma resolve_inner_raise fuel st s1 j e :
  resolve_inner fuel st s1 j = Raise e →
  e = AssertionError Assert_new_sentence_not_empty.
Proof.
  revert st j. induction fuel as [|fuel IH]; intros st j; cbn; [done|].
  destruct (st.1 !! j); [|done].
  intros [Hr|(st' & _ & Hr)]%bind_Raise.
  - by eapply resolve_pair_raise.
  - by eapply IH.
Qed.

Lemma resolve_outer_raise fuel st i e :
  resolve_outer fuel st i = Raise e →
  e = AssertionError Assert_new_sentence_not_empty.
Proof.
  revert st i. induction fuel as [|fuel IH]; intros st i; cbn; [done|].
  destruct (st.1 !! i); [|done].
  intros [Hr|(st' & _ & Hr)]%bind_Raise.
  - by eapply resolve_inner_raise.
  - by eapply IH.
Qed.

Lemma closure_body_raise fuel st e :
  closure_body fuel st = Raise e →
  e = AssertionError Assert_new_sentence_not_empty.
Proof.
  unfold closure_body.
  intros [Hr|(st1 & _ & Hr)]%bind_Raise.
  - destruct st.2; [|done].
    destruct (deduce_returns (st.1, false)) as [? Hd]. congruence.
  - apply bind_Raise in Hr as [Hr|([kb ch] & _ & Hr)]; [|done].
    by eapply resolve_outer_raise.
Qed.

(** The only [assert] of the [while] loop that can fail is the one on the
    sentence built by subset resolution. *)
Lemma closure_raise fuel st e :
  closure fuel st = Raise e →
  e = AssertionError Assert_new_sentence_not_empty.
Proof.
  revert st. induction fuel as [|fuel IH]; intros st; cbn;
    destruct st.2; try done.
  intros [Hr|(st' & _ & Hr)]%bind_Raise.
  - by eapply closure_body_raise.
  - by eapply IH.
Qed.

(** ** The assertions on the index 8 *)

Lemma add_sentence_cases (ai : AI) (cell : Cell) (count : Z) :
  (∃ ai', add_sentence ai cell count = Ok ai')
  ∨ 8 < height ai
    ∧ (add_sentence ai cell count = Raise (AssertionError Assert_i_not_8)
       ∨ add_sentence ai cell count = Raise (AssertionError Assert_j_not_8)).
Proof.
  unfold add_sentence.
  destruct (neighbor_sentence_cases
              (mark_safe (add_moves_made ai cell) cell) cell count)
    as [[[nc c] ->]|[Hh [-> | ->]]]; cbn.
  - left. case_decide; eauto.
  - right. auto.
  - right. auto.
Qed.

(** C10: on a board of at most 8 rows and 8 columns the assertions that a
    neighbour index is not 8 cannot fail; on a board of 10 rows and 10
    columns they fail for the cell (7, 0), which is on the board. *)
Theorem index_assertions_bound :
  (∀ (fuel : nat) (ai : AI) (cell : Cell) (count : Z),
     height ai ≤ 8 → width ai ≤ 8 →
     add_knowledge fuel ai cell count ≠ Raise (AssertionError Assert_i_not_8)
     ∧ add_knowledge fuel ai cell count
       ≠ Raise (AssertionError Assert_j_not_8)) ∧
  (∃ (ai : AI) (cell : Cell) (count : Z),
     10 ≤ height ai ∧ 0 ≤ cell.1 < height ai ∧ 0 ≤ cell.2 < width ai ∧
     ∀ fuel : nat,
       add_knowledge fuel ai cell count
       = Raise (AssertionError Assert_i_not_8)).
Proof.
  split.
  - intros fuel ai cell count Hh _. unfold add_knowledge.
    destruct (add_sentence_cases ai cell count) as [[ai' ->]|[? _]]; [|lia].
    cbn. split; intros Hr%closure_raise; discriminate.
  - exists (init 10 10), (7, 0), 0.
    split; [cbn; lia|]. split; [cbn; lia|]. split; [cbn; lia|].
    intros fuel. unfold add_knowledge.
    assert (add_sentence (init 10 10) (7, 0) 0
            = Raise (AssertionError Assert_i_not_8)) as ->
      by (vm_compute; reflexivity).
    reflexivity.
Qed.

Lemma index_assertions_bound_witness :
  add_knowledge 20 (init 8 8) (7, 0) 0 ≠ Raise (AssertionError Assert_i_not_8)
  ∧ add_knowledge 20 (init 8 8) (7, 0) 0
    ≠ Raise (AssertionError Assert_j_not_8).
Proof.
  apply (proj1 index_assertions_bound 20%nat (init 8 8) (7, 0) 0);
    cbn; lia.
Defined.

(** ** The column bound of the neighbour loop *)

(** A board of 2 rows and 3 columns with mines at (0, 2) and (1, 2). *)
Definition board_2x3 : Minesweeper.t :=
  Minesweeper.mk 2 3 [[false; false; true]; [false; false; true]].

(** A board of 1 row and 3 columns with a mine at (0, 2). *)
Definition board_1x3 : Minesweeper.t :=
  Minesweeper.mk 1 3 [[false; false; true]].

(** A board of 1 row and 3 columns with mines at (0, 0) and (0, 2). *)
Definition board_1x3_two : Minesweeper.t :=
  Minesweeper.mk 1 3 [[true; false; true]].

(** The agent of a board. *)
Definition agent_of (g : Minesweeper.t) : AI :=
  init (Minesweeper.height g) (Minesweeper.width g).

(** C1: the sentence built for a cell holds the neighbours that are not in
    [safes], not in [mines], and have their row and their column between 0
    and [height], with [count] lowered by one for each neighbour in [mines]
    and not in [safes].  The claim, which bounds the column by [width],
    fails on the code: on the board of 2 rows and 3 columns, the sentence
    built for the cell (0, 1) leaves out the neighbours (0, 2) and (1, 2),
    which are on the board, in the column 2 with [height <= 2 < width], and
    neither safe nor mines for the agent. *)
Theorem neighbor_sentence_column_bound :
  (∀ (ai : AI) (cell : Cell) (count : Z)
     (neighboring_cells : gset Cell) (count' : Z),
     neighbor_sentence ai cell count = Ok (neighboring_cells, count') →
     (∀ n : Cell,
        n ∈ neighboring_cells ↔
        n ∈ neighborhood cell ∧ n ≠ cell ∧ n ∉ safes ai ∧ n ∉ mines ai
        ∧ (0 ≤ n.1 < height ai) ∧ (0 ≤ n.2 < height ai))
     ∧ count'
       = count - Z.of_nat (length (filter (accounted ai cell)
                                          (neighborhood cell)))) ∧
  (Minesweeper.is_mine board_2x3 (0, 1) = false ∧
   (0, 2) ∈ neighborhood (0, 1) ∧
   (0 ≤ 0 < Minesweeper.height board_2x3
    ∧ Minesweeper.height board_2x3 ≤ 2 < Minesweeper.width board_2x3) ∧
   add_sentence (agent_of board_2x3) (0, 1)
     (Minesweeper.nearby_mines board_2x3 (0, 1))
   = Ok (mk 2 3 {[ (0, 1) ]} ∅ {[ (0, 1) ]}
           [Sentence.mk {[ (0, 0); (1, 0); (1, 1) ]} 2]) ∧
   (0, 2) ∉ ({[ (0, 0); (1, 0); (1, 1) ]} : gset Cell)).
Proof.
  split.
  - intros ai cell count nc count' [-> ->]%neighbor_sentence_Ok.
    split; [|done]. intros n.
    rewrite elem_of_list_to_set, list_elem_of_filter.
    unfold undetermined. tauto.
  - split; [reflexivity|]. split; [|split; [|split]].
    + unfold neighborhood. cbn. set_solver.
    + cbn. lia.
    + vm_compute. reflexivity.
    + set_solver.
Qed.

(** The agent of the board of 2 rows and 3 columns once (0, 1) is marked
    as a move and as safe. *)
Definition agent_2x3_marked : AI := mk 2 3 {[ (0, 1) ]} ∅ {[ (0, 1) ]} [].

Lemma neighbor_sentence_column_bound_witness :
  (∀ n : Cell,
     n ∈ ({[ (0, 0); (1, 0); (1, 1) ]} : gset Cell) ↔
     n ∈ neighborhood (0, 1) ∧ n ≠ (0, 1)
     ∧ n ∉ safes agent_2x3_marked ∧ n ∉ mines agent_2x3_marked
     ∧ (0 ≤ n.1 < height agent_2x3_marked)
     ∧ (0 ≤ n.2 < height agent_2x3_marked))
  ∧ 2 = 2 - Z.of_nat (length (filter (accounted agent_2x3_marked (0, 1))
                                     (neighborhood (0, 1)))).
Proof.
  destruct neighbor_sentence_column_bound as (Hloop & _).
  apply (Hloop agent_2x3_marked (0, 1) 2 {[ (0, 0); (1, 0); (1, 1) ]} 2).
  vm_compute. reflexivity.
Defined.

(** ** Fuel *)

(** More fuel does not change a result that is not [OutOfFuel]. *)
Definition fuel_monotone {A : Type} (f : nat → result A) : Prop :=
  ∀ fuel fuel' : nat,
    (fuel ≤ fuel')%nat → f fuel ≠ OutOfFuel → f fuel' = f fuel.

(** The computation stops: with enough fuel it returns or raises. *)
Definition terminates {A : Type} (f : nat → result A) : Prop :=
  ∃ fuel : nat, f fuel ≠ OutOfFuel.

Lemma bind_not_OutOfFuel {A B : Type} (r : result A) (k : A → result B) :
  r ≫= k ≠ OutOfFuel →
  r ≠ OutOfFuel ∧ ∀ a, r = Ok a → k a ≠ OutOfFuel.
Proof.
  destruct r; cbn; intros H; split; try done. by intros ? [= <-].
Qed.

Lemma resolve_inner_fuel st s1 j :
  fuel_monotone (λ fuel, resolve_inner fuel st s1 j).
Proof.
  intros fuel. revert st j.
  induction fuel as [|fuel IH]; intros st j fuel' Hle; cbn; [done|].
  destruct fuel' as [|fuel']; [lia|]. cbn.
  destruct (st.1 !! j) as [s2|]; [|done].
  intros [_ Hk]%bind_not_OutOfFuel.
  destruct (resolve_pair st s1 s2) as [st'| |]; cbn; try done.
  apply IH; [lia | by apply Hk].
Qed.

Lemma resolve_outer_fuel st i :
  fuel_monotone (λ fuel, resolve_outer fuel st i).
Proof.
  intros fuel. revert st i.
  induction fuel as [|fuel IH]; intros st i fuel' Hle; cbn; [done|].
  destruct fuel' as [|fuel']; [lia|]. cbn.
  destruct (st.1 !! i) as [s1|]; [|done].
  intros [Hr Hk]%bind_not_OutOfFuel.
  rewrite (resolve_inner_fuel st s1 0 fuel fuel') by (lia || done).
  destruct (resolve_inner fuel st s1 0) as [st'| |]; cbn; try done.
  apply IH; [lia | by apply Hk].
Qed.

Lemma closure_body_fuel st :
  fuel_monotone (λ fuel, closure_body fuel st).
Proof.
  intros fuel fuel' Hle. unfold closure_body.
  destruct (if st.2 then deduce (st.1, false) else Ok st) as [st1| |];
    cbn; try done.
  intros [Hr _]%bind_not_OutOfFuel.
  by rewrite (resolve_outer_fuel _ 0 fuel fuel').
Qed.

Lemma closure_fuel st : fuel_monotone (λ fuel, closure fuel st).
Proof.
  intros fuel. revert st.
  induction fuel as [|fuel IH]; intros st fuel' Hle; cbn.
  - destruct st.2 eqn:Hc; [done|]. intros _.
    destruct fuel'; cbn; by rewrite Hc.
  - destruct fuel' as [|fuel']; cbn; destruct st.2; try done; [lia|].
    intros [Hr Hk]%bind_not_OutOfFuel.
    rewrite (closure_body_fuel st fuel fuel') by (lia || done).
    destruct (closure_body fuel st) as [st'| |]; cbn; try done.
    apply IH; [lia | by apply Hk].
Qed.

Lemma add_knowledge_fuel ai cell count :
  fuel_monotone (λ fuel, add_knowledge fuel ai cell count).
Proof.
  intros fuel fuel' Hle. unfold add_knowledge.
  destruct (add_sentence ai cell count) as [ai'| |]; cbn; try done.
  by apply closure_fuel.
Qed.

(** Two computations that stop have a common fuel. *)
Lemma terminates_bind {A B : Type}
    (f : nat → result A) (g : nat → A → result B) :
  fuel_monotone f → (∀ a, fuel_monotone (λ fuel, g fuel a)) →
  terminates f →
  (∀ fuel a, f fuel = Ok a → terminates (λ fuel, g fuel a)) →
  ∃ fuel, ∀ fuel', (fuel ≤ fuel')%nat → f fuel' ≫= g fuel' ≠ OutOfFuel.
Proof.
  intros Hf Hg [n1 Hn1] Hk.
  destruct (f n1) as [a| e |] eqn:Hfa; [| |done].
  - destruct (Hk n1 a Hfa) as [n2 Hn2].
    exists (n1 `max` n2)%nat. intros fuel' Hle.
    rewrite (Hf n1 fuel'), Hfa by (lia || congruence). cbn.
    rewrite (Hg a n2 fuel') by (lia || done). done.
  - exists n1. intros fuel' Hle.
    rewrite (Hf n1 fuel'), Hfa by (lia || congruence). done.
Qed.

(** ** Subset resolution: the two loops *)

(** Loop rules: a property of the pair [(self.knowledge, changed)] and of
    the index, kept by the body, holds when the loop ends, at an index past
    the end of the list. *)
Lemma resolve_inner_rule (P : list Sentence * bool → nat → Prop)
    (s1 : Sentence) :
  (∀ st j s2 st', P st j → st.1 !! j = Some s2 →
                  resolve_pair st s1 s2 = Ok st' → P st' (S j)) →
  ∀ fuel st j st',
    P st j → resolve_inner fuel st s1 j = Ok st' →
    ∃ j', P st' j' ∧ st'.1 !! j' = None.
Proof.
  intros Hstep fuel.
  induction fuel as [|fuel IH]; intros st j st' HP; cbn; [done|].
  destruct (st.1 !! j) as [s2|] eqn:Hj.
  - intros (st1 & Hp & Hr)%bind_Ok. eapply IH; [|done]. by eapply Hstep.
  - intros [= <-]. eauto.
Qed.

Lemma resolve_outer_rule (P : list Sentence * bool → nat → Prop) :
  (∀ fuel st i s1 st', P st i → st.1 !! i = Some s1 →
                       resolve_inner fuel st s1 0 = Ok st' → P st' (S i)) →
  ∀ fuel st i st',
    P st i → resolve_outer fuel st i = Ok st' →
    ∃ i', P st' i' ∧ st'.1 !! i' = None.
Proof.
  intros Hstep fuel.
  induction fuel as [|fuel IH]; intros st i st' HP; cbn; [done|].
  destruct (st.1 !! i) as [s1|] eqn:Hi.
  - intros (st1 & Hp & Hr)%bind_Ok. eapply IH; [|done]. by eapply Hstep.
  - intros [= <-]. eauto.
Qed.

Section InnerLoop.

(** The list and the flag when the inner loop starts, and the sentence of
    the outer loop. *)
Variables (kb0 : list Sentence) (ch0 : bool) (s1 : Sentence).

(** The invariant of the inner loop at index [j]: the list is [kb0]
    followed by new sentences, each the candidate of [s1] and a sentence
    of [kb0]; the sentences before [j] have their candidates in the
    list. *)
Definition inner_inv (st : list Sentence * bool) (j : nat) : Prop :=
  ∃ app : list Sentence,
    st.1 = kb0 ++ app
    ∧ (j ≤ length st.1)%nat
    ∧ NoDup app
    ∧ (∀ x, x ∈ app →
         x ∉ kb0 ∧ Sentence.cells x ≠ ∅
         ∧ ∃ s2, s2 ∈ kb0 ∧ resolvable s1 s2 ∧ x = candidate s1 s2)
    ∧ (∀ b s2, (b < j)%nat → st.1 !! b = Some s2 → resolvable s1 s2 →
         candidate s1 s2 ∈ st.1)
    ∧ st.2 = ch0 || bool_decide (app ≠ []).

Lemma inner_inv_start : inner_inv (kb0, ch0) 0.
Proof.
  exists []. split; [by rewrite app_nil_r|]. split; [cbn; lia|].
  split; [constructor|].
  split; [by intros ? ?%elem_of_nil|]. split; [intros; lia|].
  rewrite bool_decide_false by (by intros ?). by rewrite orb_false_r.
Qed.

Lemma inner_inv_step st j s2 st' :
  inner_inv st j → st.1 !! j = Some s2 →
  resolve_pair st s1 s2 = Ok st' → inner_inv st' (S j).
Proof.
  intros (app & Hkb & Hj & Hnd & Happ & Hcl & Hch) Hs2.
  pose proof (lookup_lt_Some _ _ _ Hs2) as Hlt.
  rewrite resolve_pair_unfold.
  destruct (decide (resolvable s1 s2)) as [Hres|Hres].
  - destruct (decide (candidate s1 s2 ∈ st.1)) as [Hin|Hin].
    + intros [= <-]. exists app.
      split; [done|]. split; [lia|]. split; [done|]. split; [done|].
      split; [|done]. intros b s2' Hb Hb2 Hr.
      destruct (decide (b = j)) as [->|]; [|apply (Hcl b); [lia|done..]].
      congruence.
    + case_decide as Hne; [|done]. intros [= <-]. cbn.
      exists (app ++ [candidate s1 s2]). cbn [fst snd].
      split; [by rewrite Hkb, app_assoc|].
      split; [rewrite List.length_app; cbn; lia|].
      assert (s2 ∈ kb0) as Hs2kb.
      { apply list_elem_of_lookup_2 in Hs2. rewrite Hkb in Hs2.
        apply elem_of_app in Hs2 as [|Hs2]; [done|].
        destruct (Happ _ Hs2) as (_ & _ & s2' & _ & _ & ->).
        pose proof Hres as (_ & Hne1 & _).
        by apply (candidate_not_resolvable s1 s2' Hne1) in Hres. }
      split.
      { apply NoDup_app. split; [done|]. split; [|apply NoDup_singleton].
        intros x Hx ->%list_elem_of_singleton. apply Hin.
        rewrite Hkb. apply elem_of_app. by right. }
      split.
      { intros x [Hx| ->%list_elem_of_singleton]%elem_of_app; [by apply Happ|].
        split; [|split; [done|by exists s2]].
        intros Hc. apply Hin. rewrite Hkb. apply elem_of_app. by left. }
      split.
      { intros b s2' Hb Hb2 Hr. apply elem_of_app.
        destruct (decide (b = j)) as [->|].
        - rewrite lookup_app_l in Hb2 by done.
          assert (s2' = s2) as -> by congruence.
          right. by apply list_elem_of_singleton.
        - rewrite lookup_app_l in Hb2 by lia.
          left. apply (Hcl b); [lia|done..]. }
      rewrite bool_decide_true by (by destruct app).
      by rewrite orb_true_r.
  - intros [= <-]. exists app.
    split; [done|]. split; [lia|]. split; [done|]. split; [done|].
    split; [|done]. intros b s2' Hb Hb2 Hr.
    destruct (decide (b = j)) as [->|]; [|apply (Hcl b); [lia|done..]].
    congruence.
Qed.

(** When the inner loop returns, the invariant holds at the length of
    the list. *)
Lemma resolve_inner_Ok fuel st' :
  resolve_inner fuel (kb0, ch0) s1 0 = Ok st' →
  inner_inv st' (length st'.1).
Proof.
  intros Hr.
  destruct (resolve_inner_rule inner_inv s1 inner_inv_step
              fuel (kb0, ch0) 0%nat st' inner_inv_start Hr)
    as (j' & Hinv & Hnone).
  apply lookup_ge_None_1 in Hnone.
  destruct Hinv as (app & ? & ? & ?).
  assert (j' = length st'.1) as <- by lia. by exists app.
Qed.

End InnerLoop.

(** *** The inner loop stops *)

(** Past the index [j], the number of sentences plus the number of those
    that [s1] resolves with: every run of the body lowers it. *)
Definition inner_measure (s1 : Sentence) (kb : list Sentence) (j : nat) : nat :=
  (length (drop j kb) + length (filter (resolvable s1) (drop j kb)))%nat.

Lemma resolve_inner_enough (s1 : Sentence) (fuel : nat) :
  ∀ st j, (inner_measure s1 st.1 j < fuel)%nat →
          resolve_inner fuel st s1 j ≠ OutOfFuel.
Proof.
  induction fuel as [|fuel IH]; intros st j Hm; [lia|]. cbn.
  destruct (st.1 !! j) as [s2|] eqn:Hj; [|done].
  pose proof (lookup_lt_Some _ _ _ Hj) as Hlt.
  unfold inner_measure in Hm. rewrite (drop_S _ _ _ Hj) in Hm.
  rewrite filter_cons in Hm. cbn [length] in Hm.
  rewrite resolve_pair_unfold.
  destruct (decide (resolvable s1 s2)) as [Hres|Hres].
  - cbn [length] in Hm.
    destruct (decide (candidate s1 s2 ∈ st.1)) as [Hin|Hin].
    + cbn. apply IH. unfold inner_measure. lia.
    + case_decide as Hne; [|done]. cbn. apply IH.
      unfold inner_measure. cbn [fst].
      rewrite drop_app_le by lia. rewrite filter_app, !List.length_app.
      rewrite filter_cons_False, filter_nil; [cbn; lia|].
      apply candidate_not_resolvable. by destruct Hres as (_ & ? & _).
  - cbn. apply IH. unfold inner_measure. lia.
Qed.

Lemma resolve_inner_terminates st s1 j :
  terminates (λ fuel, resolve_inner fuel st s1 j).
Proof.
  exists (S (inner_measure s1 st.1 j)). apply resolve_inner_enough. lia.
Qed.

(** *** The invariant of the outer loop *)

Section OuterLoop.

(** A set that holds the cells of the list [kb0] the loops start from, and
    the flag at the start. *)
Variables (U : gset Cell) (kb0 : list Sentence) (ch0 : bool).
Hypothesis kb0_cells : ∀ x, x ∈ kb0 → Sentence.cells x ⊆ U.

(** At index [i]: the list is [kb0] followed by new sentences, all
    different, none in [kb0], each with cells and the candidate of two
    sentences of the list; a sentence before [i] has its candidates in the
    list, with the sentences of [kb0] and with the sentences before it;
    [changed] has been set if a sentence was added. *)
Definition outer_inv (st : list Sentence * bool) (i : nat) : Prop :=
  ∃ app : list Sentence,
    st.1 = kb0 ++ app
    ∧ (i ≤ length st.1)%nat
    ∧ NoDup app
    ∧ (∀ x, x ∈ app →
         x ∉ kb0 ∧ Sentence.cells x ≠ ∅ ∧ Sentence.cells x ⊆ U
         ∧ ∃ sa sb, sa ∈ st.1 ∧ sb ∈ st.1 ∧ resolvable sa sb
                    ∧ x = candidate sa sb)
    ∧ (∀ a b sa sb,
         (a < i)%nat → (b < length kb0 ∨ b < a)%nat →
         st.1 !! a = Some sa → st.1 !! b = Some sb →
         resolvable sa sb → candidate sa sb ∈ st.1)
    ∧ st.2 = ch0 || bool_decide (app ≠ []).

Lemma outer_inv_start : outer_inv (kb0, ch0) 0.
Proof.
  exists []. split; [by rewrite app_nil_r|]. split; [cbn; lia|].
  split; [constructor|].
  split; [by intros ? ?%elem_of_nil|]. split; [intros; lia|].
  rewrite bool_decide_false by (by intros ?). by rewrite orb_false_r.
Qed.

Lemma outer_inv_cells st i x :
  outer_inv st i → x ∈ st.1 → Sentence.cells x ⊆ U.
Proof.
  intros (app & -> & _ & _ & Happ & _) [Hx|Hx]%elem_of_app.
  - by apply kb0_cells.
  - by apply Happ.
Qed.

Lemma outer_inv_step fuel st i s1 st' :
  outer_inv st i → st.1 !! i = Some s1 →
  resolve_inner fuel st s1 0 = Ok st' → outer_inv st' (S i).
Proof.
  intros Hinv Hi Hr. pose proof (lookup_lt_Some _ _ _ Hi) as Hlt.
  pose proof (λ x, outer_inv_cells st i x Hinv) as Hcells.
  destruct Hinv as (app & Hkb & _ & Hnd & Happ & Hcl & Hch).
  destruct st as [kb ch]. cbn [fst snd] in *.
  apply resolve_inner_Ok in Hr
    as (app' & Hkb' & _ & Hnd' & Happ' & Hcl' & Hch').
  assert (∀ x, x ∈ kb → x ∈ st'.1) as Hmono.
  { intros x Hx. rewrite Hkb'. apply elem_of_app. by left. }
  exists (app ++ app').
  split; [by rewrite Hkb', Hkb, app_assoc|].
  split; [rewrite Hkb', List.length_app; lia|].
  split.
  { apply NoDup_app. split; [done|]. split; [|done].
    intros x Hx Hx'. apply Happ' in Hx' as (Hn & _). apply Hn.
    rewrite Hkb. apply elem_of_app. by right. }
  split.
  { intros x [Hx|Hx]%elem_of_app.
    - destruct (Happ x Hx) as (? & ? & ? & sa & sb & ? & ? & ? & ?).
      split; [done|]. split; [done|]. split; [done|].
      exists sa, sb. auto.
    - destruct (Happ' x Hx) as (Hn & Hne & s2 & Hs2 & Hres & ->).
      split; [|split; [done|split]].
      + intros Hc. apply Hn. rewrite Hkb. apply elem_of_app. by left.
      + cbn. specialize (Hcells s2 Hs2). set_solver.
      + exists s1, s2. split; [|split; [|done]]; apply Hmono; [|done].
        by eapply list_elem_of_lookup_2. }
  split.
  { intros a b sa sb Ha Hb Hsa Hsb Hres.
    destruct (decide (a = i)) as [->|Hai].
    - rewrite Hkb', lookup_app_l in Hsa by done.
      assert (sa = s1) as -> by congruence.
      apply (Hcl' b); [|done..]. by eapply lookup_lt_Some.
    - assert (a < i)%nat as Ha' by lia.
      assert (b < length kb)%nat as Hb'.
      { destruct Hb; [|lia]. rewrite Hkb, List.length_app. lia. }
      rewrite Hkb', lookup_app_l in Hsa by lia.
      rewrite Hkb', lookup_app_l in Hsb by lia.
      by apply Hmono, (Hcl a b sa sb). }
  rewrite Hch', Hch, <- orb_assoc. f_equal.
  destruct app, app'; done.
Qed.

(** When the loops return, the invariant holds at the length of the
    list. *)
Lemma resolve_outer_Ok fuel st' :
  resolve_outer fuel (kb0, ch0) 0 = Ok st' →
  outer_inv st' (length st'.1).
Proof.
  intros Hr.
  destruct (resolve_outer_rule outer_inv outer_inv_step
              fuel (kb0, ch0) 0%nat st' outer_inv_start Hr)
    as (i' & Hinv & Hnone).
  apply lookup_ge_None_1 in Hnone.
  destruct Hinv as (app & ? & ? & ?).
  assert (i' = length st'.1) as <- by lia. by exists app.
Qed.

End OuterLoop.

(** ** Counting sentences *)

(** Sentences with the same cells have counts at most [M] apart. *)
Definition near (M : Z) (l : list Sentence) : Prop :=
  ∀ x y, x ∈ l → y ∈ l → Sentence.cells x = Sentence.cells y →
         Z.abs (Sentence.count x - Sentence.count y) ≤ M.

(** The subsets of a list of cells. *)
Fixpoint subsets (l : list Cell) : list (gset Cell) :=
  match l with
  | [] => [∅]
  | c :: l => subsets l ++ ((λ X, {[ c ]} ∪ X) <$> subsets l)
  end.

Lemma length_subsets (l : list Cell) :
  length (subsets l) = (2 ^ length l)%nat.
Proof.
  induction l as [|c l IH]; [done|].
  cbn [subsets length]. rewrite List.length_app, length_fmap, IH.
  rewrite Nat.pow_succ_r'. lia.
Qed.

Lemma elem_of_subsets (l : list Cell) (X : gset Cell) :
  X ⊆ list_to_set l → X ∈ subsets l.
Proof.
  revert X. induction l as [|c l IH]; intros X HX; cbn in *.
  - apply list_elem_of_singleton. set_solver.
  - apply elem_of_app. destruct (decide (c ∈ X)) as [Hc|Hc].
    + right. apply list_elem_of_fmap. exists (X ∖ {[ c ]}).
      split; [by apply union_difference_singleton_L|].
      apply IH. set_solver.
    + left. apply IH. set_solver.
Qed.

Lemma length_filter_split {A : Type} (P : A → Prop)
    `{!∀ x, Decision (P x)} (l : list A) :
  length l = (length (filter P l) + length (filter (λ x, ¬ P x) l))%nat.
Proof.
  induction l as [|x l IH]; [done|].
  rewrite !filter_cons. destruct (decide (P x)) as [HP|HP].
  - rewrite decide_False by tauto. cbn. lia.
  - rewrite decide_True by done. cbn. lia.
Qed.

Lemma length_filter_filter {A : Type} (P Q : A → Prop)
    `{!∀ x, Decision (P x)} `{!∀ x, Decision (Q x)} (l : list A) :
  (length (filter P (filter Q l)) ≤ length (filter P l))%nat.
Proof.
  induction l as [|x l IH]; [done|].
  rewrite !filter_cons.
  destruct (decide (Q x)); [rewrite filter_cons|];
    destruct (decide (P x)); cbn; lia.
Qed.

(** A list whose sentences have their cells among [ks], with at most [c]
    sentences for each cell set, has at most [length ks * c] sentences. *)
Lemma fiber_bound (c : nat) (ks : list (gset Cell)) :
  ∀ l : list Sentence,
    (∀ x, x ∈ l → Sentence.cells x ∈ ks) →
    (∀ k, (length (filter (λ x, Sentence.cells x = k) l) ≤ c)%nat) →
    (length l ≤ length ks * c)%nat.
Proof.
  induction ks as [|k ks IH]; intros l Hin Hf.
  - destruct l as [|x l]; [cbn; lia|].
    specialize (Hin x (list_elem_of_here _ _)). by apply elem_of_nil in Hin.
  - rewrite (length_filter_split (λ x, Sentence.cells x = k) l).
    specialize (Hf k) as Hk.
    assert (length (filter (λ x, Sentence.cells x ≠ k) l) ≤ length ks * c)%nat.
    { apply IH.
      - intros x [Hx1 Hx2]%list_elem_of_filter.
        apply Hin in Hx2. apply elem_of_cons in Hx2 as [|]; done.
      - intros k'. etrans; [apply length_filter_filter|]. apply Hf. }
    cbn [length]. lia.
Qed.

Lemma same_cells_bound (M : Z) (l : list Sentence) (k : gset Cell) :
  0 ≤ M → NoDup l → near M l →
  (length (filter (λ x, Sentence.cells x = k) l) ≤ Z.to_nat (2 * M + 1))%nat.
Proof.
  intros HM Hnd Hnear.
  set (f := filter (λ x, Sentence.cells x = k) l).
  assert (∀ x, x ∈ f → Sentence.cells x = k ∧ x ∈ l) as Hf
    by (intros x Hx; by apply list_elem_of_filter in Hx).
  destruct f as [|x0 f'] eqn:Hf0; [cbn; lia|]. rewrite <- Hf0 in *.
  assert (x0 ∈ f) as Hx0 by (rewrite Hf0; left).
  rewrite <- (length_fmap Sentence.count),
          <- (length_seqZ (Sentence.count x0 - M) (2 * M + 1)).
  apply submseteq_length, NoDup_submseteq.
  - apply NoDup_fmap_2_strong; [|by apply NoDup_filter].
    intros [c1 n1] [c2 n2] [? _]%Hf [? _]%Hf ?. cbn in *. congruence.
  - intros n (x & -> & Hx)%list_elem_of_fmap.
    apply elem_of_seqZ.
    destruct (Hf x Hx) as [Hc Hl]. destruct (Hf x0 Hx0) as [Hc0 Hl0].
    specialize (Hnear x x0 Hl Hl0). rewrite Hc, Hc0 in Hnear.
    specialize (Hnear eq_refl). lia.
Qed.

(** The number of sentences the loops can hold: one for each subset of
    [U] and each count in a range of [2 * M + 1]. *)
Definition bound (U : gset Cell) (M : Z) : nat :=
  (2 ^ size U * Z.to_nat (2 * M + 1))%nat.

Lemma near_length (U : gset Cell) (M : Z) (l : list Sentence) :
  0 ≤ M → NoDup l → (∀ x, x ∈ l → Sentence.cells x ⊆ U) → near M l →
  (length l ≤ bound U M)%nat.
Proof.
  intros HM Hnd HU Hnear. unfold bound.
  change (size U) with (length (elements U)).
  rewrite <- length_subsets. apply fiber_bound.
  - intros x Hx. apply elem_of_subsets.
    rewrite list_to_set_elements_L. by apply HU.
  - intros k. by apply same_cells_bound.
Qed.

(** The largest absolute value of a count of the list. *)
Definition max_abs_count (kb : list Sentence) : Z :=
  foldr (λ s acc, Z.abs (Sentence.count s) `max` acc) 0 kb.

Lemma max_abs_count_nonneg kb : 0 ≤ max_abs_count kb.
Proof.
  unfold max_abs_count. induction kb as [|y kb IH]; cbn [foldr]; lia.
Qed.

Lemma max_abs_count_elem kb x :
  x ∈ kb → Z.abs (Sentence.count x) ≤ max_abs_count kb.
Proof.
  unfold max_abs_count.
  induction kb as [|y kb IH]; [by intros ?%elem_of_nil|].
  intros [->|Hx]%elem_of_cons; cbn [foldr]; [lia|]. specialize (IH Hx). lia.
Qed.

(** In a list where the sentences before [i] have their candidates with
    the sentences before them, and where the counts of the sentences
    without cells are at most [M] in absolute value, the sentences with
    cells before [i] are near: two of them with the same cells were
    compared, and the candidate has no cells. *)
Lemma closed_near (kb : list Sentence) (i : nat) (M : Z) (l : list Sentence) :
  (∀ a b sa sb, (a < i)%nat → (b < a)%nat →
     kb !! a = Some sa → kb !! b = Some sb →
     resolvable sa sb → candidate sa sb ∈ kb) →
  (∀ x, x ∈ kb → Sentence.cells x = ∅ → Z.abs (Sentence.count x) ≤ M) →
  0 ≤ M →
  (∀ x, x ∈ l →
     Sentence.cells x ≠ ∅ ∧ ∃ a, (a < i)%nat ∧ kb !! a = Some x) →
  near M l.
Proof.
  intros Hcl Hemp HM Hl x y Hx Hy Hc.
  destruct (decide (x = y)) as [->|Hxy]; [lia|].
  destruct (Hl x Hx) as (Hnx & a & Ha & Hax).
  destruct (Hl y Hy) as (Hny & b & Hb & Hby).
  assert (a ≠ b) as Hab by congruence.
  assert (∀ u v, u ≠ v → Sentence.cells u ≠ ∅ → Sentence.cells v ≠ ∅ →
                 Sentence.cells u = Sentence.cells v →
                 candidate u v ∈ kb →
                 Z.abs (Sentence.count v - Sentence.count u) ≤ M) as Hcand.
  { intros u v Huv Hu Hv Heq Hin.
    apply (Hemp _ Hin). cbn. rewrite Heq. set_solver. }
  destruct (decide (b < a)%nat) as [Hlt|Hge].
  - assert (candidate x y ∈ kb) as Hin.
    { apply (Hcl a b x y); [done | done | done | done |].
      repeat split; try done. by rewrite Hc. }
    specialize (Hcand x y Hxy Hnx Hny Hc Hin). lia.
  - assert (candidate y x ∈ kb) as Hin.
    { apply (Hcl b a y x); [done | lia | done | done |].
      repeat split; try done. by rewrite Hc. }
    apply (Hcand y x); done.
Qed.

(** ** The loops of subset resolution stop *)

Section OuterTermination.

Variables (U : gset Cell) (kb0 : list Sentence) (ch0 : bool).
Hypothesis kb0_cells : ∀ x, x ∈ kb0 → Sentence.cells x ⊆ U.

Lemma outer_inv_near st i (M : Z) (l : list Sentence) :
  outer_inv U kb0 ch0 st i →
  (∀ x, x ∈ kb0 → Sentence.cells x = ∅ → Z.abs (Sentence.count x) ≤ M) →
  0 ≤ M →
  (∀ x, x ∈ l →
     Sentence.cells x ≠ ∅ ∧ ∃ a, (a < i)%nat ∧ st.1 !! a = Some x) →
  near M l.
Proof.
  intros (app & Hkb & _ & _ & Happ & Hcl & _) Hemp HM Hl.
  apply (closed_near st.1 i); try done.
  - intros a b sa sb Ha Hb. apply Hcl; [done | by right].
  - intros x Hx He. rewrite Hkb in Hx.
    apply elem_of_app in Hx as [Hx|Hx]; [by apply Hemp|].
    by destruct (Happ x Hx) as (_ & Hne & _).
Qed.

(** The index of the outer loop stays below a number fixed by the list
    the loops start from. *)
Lemma outer_inv_bound st i :
  outer_inv U kb0 ch0 st i →
  (i ≤ length kb0 + bound U (max_abs_count kb0))%nat.
Proof.
  intros Hinv. pose proof Hinv as (app & Hkb & Hi & Hnd & Happ & _).
  set (l := take (i - length kb0) app).
  assert (length l = (i - length kb0)%nat) as Hlen.
  { apply length_take_le. rewrite Hkb, List.length_app in Hi. lia. }
  assert (length l ≤ bound U (max_abs_count kb0))%nat; [|lia].
  assert (∀ x, x ∈ l → ∃ a', (a' < i - length kb0)%nat ∧ app !! a' = Some x)
    as Hl.
  { intros x (a' & ? & ?)%elem_of_take. eauto. }
  apply near_length.
  - apply max_abs_count_nonneg.
  - eapply sublist_NoDup; [done | apply sublist_take].
  - intros x (a' & _ & Hx)%Hl.
    apply list_elem_of_lookup_2 in Hx. by apply Happ in Hx as (_ & _ & ? & _).
  - apply (outer_inv_near st i); [done | | apply max_abs_count_nonneg |].
    + intros x Hx _. by apply max_abs_count_elem.
    + intros x (a' & Ha' & Hx)%Hl. split.
      * apply list_elem_of_lookup_2 in Hx.
        by apply Happ in Hx as (_ & ? & _).
      * exists (length kb0 + a')%nat. split; [lia|].
        rewrite Hkb, lookup_app_r by lia.
        by replace (length kb0 + a' - length kb0)%nat with a' by lia.
Qed.

Lemma resolve_outer_terminates_from (d : nat) :
  ∀ st i,
    outer_inv U kb0 ch0 st i →
    (length kb0 + bound U (max_abs_count kb0) - i ≤ d)%nat →
    terminates (λ fuel, resolve_outer fuel st i).
Proof.
  induction d as [|d IH]; intros st i Hinv Hd.
  - destruct (st.1 !! i) as [s1|] eqn:Hi;
      [|exists 1%nat; cbn; by rewrite Hi].
    destruct (resolve_inner_terminates st s1 0) as [f1 Hf1].
    exists (S f1). cbn. rewrite Hi.
    destruct (resolve_inner f1 st s1 0) as [st'| |] eqn:Hr; [|done..].
    pose proof (outer_inv_step U kb0 ch0 kb0_cells f1 st i s1 st' Hinv Hi Hr)
      as Hinv'.
    apply outer_inv_bound in Hinv'. lia.
  - destruct (st.1 !! i) as [s1|] eqn:Hi;
      [|exists 1%nat; cbn; by rewrite Hi].
    destruct (terminates_bind
                (λ fuel, resolve_inner fuel st s1 0)
                (λ fuel st', resolve_outer fuel st' (S i))) as [f Hf].
    + apply resolve_inner_fuel.
    + intros st'. apply resolve_outer_fuel.
    + apply resolve_inner_terminates.
    + intros f1 st' Hr. apply IH.
      * by apply (outer_inv_step U kb0 ch0 kb0_cells f1 st i s1).
      * lia.
    + exists (S f). cbn. rewrite Hi. by apply Hf.
Qed.

Lemma resolve_outer_terminates_in :
  terminates (λ fuel, resolve_outer fuel (kb0, ch0) 0).
Proof.
  eapply resolve_outer_terminates_from; [apply outer_inv_start | done].
Qed.

End OuterTermination.

(** The cells of the sentences of a list. *)
Definition cells_of (kb : list Sentence) : gset Cell :=
  ⋃ (Sentence.cells <$> kb).

Lemma cells_of_elem kb x : x ∈ kb → Sentence.cells x ⊆ cells_of kb.
Proof.
  intros Hx c Hc. apply elem_of_union_list.
  exists (Sentence.cells x). split; [|done]. by apply list_elem_of_fmap_2.
Qed.

Lemma elem_of_cells_of kb c :
  c ∈ cells_of kb ↔ ∃ x, x ∈ kb ∧ c ∈ Sentence.cells x.
Proof.
  unfold cells_of. rewrite elem_of_union_list. split.
  - intros (X & (x & -> & Hx)%list_elem_of_fmap & Hc). eauto.
  - intros (x & Hx & Hc). exists (Sentence.cells x).
    split; [by apply list_elem_of_fmap_2 | done].
Qed.

Lemma resolve_outer_terminates (kb : list Sentence) (changed : bool) :
  terminates (λ fuel, resolve_outer fuel (kb, changed) 0).
Proof.
  apply (resolve_outer_terminates_in (cells_of kb)), cells_of_elem.
Qed.

(** ** The order in which a set is iterated *)

(** The sentence once the cells of [X] are taken out as mines, and as safe
    cells. *)
Definition without_mines (X : gset Cell) (s : Sentence) : Sentence :=
  Sentence.mk (Sentence.cells s ∖ X)
              (Sentence.count s - Z.of_nat (size (Sentence.cells s ∩ X))).

Definition without_safes (X : gset Cell) (s : Sentence) : Sentence :=
  Sentence.mk (Sentence.cells s ∖ X) (Sentence.count s).

Lemma without_mines_empty s : without_mines ∅ s = s.
Proof.
  destruct s as [Y n]. unfold without_mines. cbn. f_equal.
  - set_solver.
  - replace (Y ∩ ∅) with (∅ : gset Cell) by set_solver.
    rewrite size_empty. lia.
Qed.

Lemma without_safes_empty s : without_safes ∅ s = s.
Proof.
  destruct s as [Y n]. unfold without_safes. cbn. f_equal. set_solver.
Qed.

Lemma without_mines_mark s c X :
  c ∉ X → without_mines X (Sentence.mark_mine s c) = without_mines ({[ c ]} ∪ X) s.
Proof.
  intros Hc. destruct s as [Y n]. unfold without_mines, Sentence.mark_mine.
  cbn. case_decide as Hin; cbn.
  - f_equal; [set_solver|].
    replace (Y ∩ ({[ c ]} ∪ X)) with ({[ c ]} ∪ (Y ∖ {[ c ]}) ∩ X : gset Cell).
    + rewrite (size_union {[ c ]}) by set_solver. rewrite size_singleton. lia.
    + apply set_eq. intros x. rewrite !elem_of_union, !elem_of_intersection,
        elem_of_difference, elem_of_union, elem_of_singleton.
      destruct (decide (x = c)) as [->|]; tauto.
  - f_equal; [set_solver|]. do 3 f_equal. set_solver.
Qed.

Lemma without_safes_mark s c X :
  without_safes X (Sentence.mark_safe s c) = without_safes ({[ c ]} ∪ X) s.
Proof.
  destruct s as [Y n]. unfold without_safes, Sentence.mark_safe.
  cbn. case_decide as Hin; cbn; f_equal; set_solver.
Qed.

(** The agent once the cells of [X] are marked as mines, and as safe. *)
Definition with_mines (X : gset Cell) (ai : AI) : AI :=
  mk (height ai) (width ai) (moves_made ai) (X ∪ mines ai) (safes ai)
     (without_mines X <$> knowledge ai).

Definition with_safes (X : gset Cell) (ai : AI) : AI :=
  mk (height ai) (width ai) (moves_made ai) (mines ai) (X ∪ safes ai)
     (without_safes X <$> knowledge ai).

Lemma with_mines_empty ai : with_mines ∅ ai = ai.
Proof.
  destruct ai as [h w mm ms sf kb]. unfold with_mines. cbn.
  f_equal; [set_solver|].
  rewrite <- (list_fmap_id kb) at 2. apply list_fmap_ext.
  intros ? s _. apply without_mines_empty.
Qed.

Lemma with_safes_empty ai : with_safes ∅ ai = ai.
Proof.
  destruct ai as [h w mm ms sf kb]. unfold with_safes. cbn.
  f_equal; [set_solver|].
  rewrite <- (list_fmap_id kb) at 2. apply list_fmap_ext.
  intros ? s _. apply without_safes_empty.
Qed.

Lemma with_mines_mark ai c X :
  c ∉ X → with_mines X (mark_mine ai c) = with_mines ({[ c ]} ∪ X) ai.
Proof.
  intros Hc. unfold with_mines, mark_mine. cbn. f_equal; [set_solver|].
  rewrite <- list_fmap_compose. apply list_fmap_ext.
  intros ? s _. by apply without_mines_mark.
Qed.

Lemma with_safes_mark ai c X :
  with_safes X (mark_safe ai c) = with_safes ({[ c ]} ∪ X) ai.
Proof.
  unfold with_safes, mark_safe. cbn. f_equal; [set_solver|].
  rewrite <- list_fmap_compose. apply list_fmap_ext.
  intros ? s _. by apply without_safes_mark.
Qed.

(** The loop over the cells of a set marks those that are not marked yet,
    whatever the order. *)
Lemma mark_new_mines_set (l : list Cell) :
  NoDup l →
  ∀ ai changed,
    mark_new_mines (ai, changed) l
    = (with_mines (list_to_set l ∖ mines ai) ai,
       changed || bool_decide (list_to_set l ∖ mines ai ≠@{gset Cell} ∅)).
Proof.
  unfold mark_new_mines.
  induction 1 as [|c l Hc Hnd IH]; intros ai changed; cbn [foldl list_to_set].
  - replace (∅ ∖ mines ai) with (∅ : gset Cell) by set_solver.
    rewrite with_mines_empty, bool_decide_false by (by intros ?).
    by rewrite orb_false_r.
  - case_decide as Hin.
    + rewrite IH.
      replace (({[ c ]} ∪ list_to_set l) ∖ mines ai)
        with (list_to_set l ∖ mines ai : gset Cell) by set_solver.
      done.
    + rewrite IH. cbn [mines mark_mine].
      assert (c ∉ (list_to_set l ∖ ({[ c ]} ∪ mines ai) : gset Cell)) as Hc'
        by set_solver.
      rewrite (with_mines_mark ai c _ Hc').
      replace ({[ c ]} ∪ list_to_set l ∖ ({[ c ]} ∪ mines ai))
        with (({[ c ]} ∪ list_to_set l) ∖ mines ai : gset Cell).
      2:{ apply set_eq. intros x.
          rewrite !elem_of_union, !elem_of_difference, !elem_of_union,
            !elem_of_singleton.
          destruct (decide (x = c)) as [->|]; tauto. }
      f_equal. rewrite orb_true_l, bool_decide_true by set_solver.
      by rewrite orb_true_r.
Qed.

Lemma mark_new_safes_set (l : list Cell) :
  NoDup l →
  ∀ ai changed,
    mark_new_safes (ai, changed) l
    = (with_safes (list_to_set l ∖ safes ai) ai,
       changed || bool_decide (list_to_set l ∖ safes ai ≠@{gset Cell} ∅)).
Proof.
  unfold mark_new_safes.
  induction 1 as [|c l Hc Hnd IH]; intros ai changed; cbn [foldl list_to_set].
  - replace (∅ ∖ safes ai) with (∅ : gset Cell) by set_solver.
    rewrite with_safes_empty, bool_decide_false by (by intros ?).
    by rewrite orb_false_r.
  - case_decide as Hin.
    + rewrite IH.
      replace (({[ c ]} ∪ list_to_set l) ∖ safes ai)
        with (list_to_set l ∖ safes ai : gset Cell) by set_solver.
      done.
    + rewrite IH. cbn [safes mark_safe].
      rewrite (with_safes_mark ai c _).
      replace ({[ c ]} ∪ list_to_set l ∖ ({[ c ]} ∪ safes ai))
        with (({[ c ]} ∪ list_to_set l) ∖ safes ai : gset Cell).
      2:{ apply set_eq. intros x.
          rewrite !elem_of_union, !elem_of_difference, !elem_of_union,
            !elem_of_singleton.
          destruct (decide (x = c)) as [->|]; tauto. }
      f_equal. rewrite orb_true_l, bool_decide_true by set_solver.
      by rewrite orb_true_r.
Qed.

(** Two enumerations of the same set give the same agent: the model goes
    through [elements], Python through the order of its hash table. *)
Lemma mark_new_mines_order (X : gset Cell) (l : list Cell) st :
  NoDup l → list_to_set l = X →
  mark_new_mines st l = mark_new_mines st (elements X).
Proof.
  intros Hl HX. destruct st as [ai changed].
  rewrite !mark_new_mines_set by (done || apply NoDup_elements).
  by rewrite HX, list_to_set_elements_L.
Qed.

Lemma mark_new_safes_order (X : gset Cell) (l : list Cell) st :
  NoDup l → list_to_set l = X →
  mark_new_safes st l = mark_new_safes st (elements X).
Proof.
  intros Hl HX. destruct st as [ai changed].
  rewrite !mark_new_safes_set by (done || apply NoDup_elements).
  by rewrite HX, list_to_set_elements_L.
Qed.

(** ** Deduction: what a pass of the first loop changes *)

Lemma mark_mine_cells_of (ai : AI) (c : Cell) :
  cells_of (knowledge (mark_mine ai c)) ⊆ cells_of (knowledge ai).
Proof.
  intros x (s & Hs & Hx)%elem_of_cells_of. cbn in Hs.
  apply list_elem_of_fmap in Hs as (s' & -> & Hs').
  apply elem_of_cells_of. exists s'. split; [done|].
  unfold Sentence.mark_mine in Hx. case_decide; [|done]. cbn in Hx. set_solver.
Qed.

Lemma mark_safe_cells_of (ai : AI) (c : Cell) :
  cells_of (knowledge (mark_safe ai c)) ⊆ cells_of (knowledge ai).
Proof.
  intros x (s & Hs & Hx)%elem_of_cells_of. cbn in Hs.
  apply list_elem_of_fmap in Hs as (s' & -> & Hs').
  apply elem_of_cells_of. exists s'. split; [done|].
  unfold Sentence.mark_safe in Hx. case_decide; [|done]. cbn in Hx. set_solver.
Qed.

Section Deduction.

(** A set that holds the cells of the knowledge base. *)
Variable U0 : gset Cell.

(** The cells of [U0] not yet known as mines, plus those not yet known as
    safe: every call of [mark_mine] or [mark_safe] in the loop lowers
    it. *)
Definition potential (ai : AI) : nat :=
  (size (U0 ∖ mines ai) + size (U0 ∖ safes ai))%nat.

Lemma mark_mine_potential ai c :
  c ∈ U0 → c ∉ mines ai →
  (potential (mark_mine ai c) < potential ai)%nat.
Proof.
  intros HU Hc. unfold potential. cbn.
  assert (size (U0 ∖ ({[ c ]} ∪ mines ai)) < size (U0 ∖ mines ai))%nat;
    [|lia].
  apply subset_size. split; [set_solver|].
  intros Hsub. specialize (Hsub c). set_solver.
Qed.

Lemma mark_safe_potential ai c :
  c ∈ U0 → c ∉ safes ai →
  (potential (mark_safe ai c) < potential ai)%nat.
Proof.
  intros HU Hc. unfold potential. cbn.
  assert (size (U0 ∖ ({[ c ]} ∪ safes ai)) < size (U0 ∖ safes ai))%nat;
    [|lia].
  apply subset_size. split; [set_solver|].
  intros Hsub. specialize (Hsub c). set_solver.
Qed.

(** The agent the loop starts from, with [changed = False]. *)
Variable ai0 : AI.

(** Either nothing was marked and the agent is as it was, or [changed] is
    set and the potential is lower. *)
Definition deduce_inv (st : AI * bool) : Prop :=
  cells_of (knowledge st.1) ⊆ U0
  ∧ if st.2 then (potential st.1 < potential ai0)%nat else st.1 = ai0.

Lemma deduce_inv_le st : deduce_inv st → (potential st.1 ≤ potential ai0)%nat.
Proof. intros [_ H]. destruct st.2; [lia | by rewrite H]. Qed.

Lemma mark_new_mines_inv (l : list Cell) :
  ∀ st, (∀ c, c ∈ l → c ∈ U0) → deduce_inv st →
        deduce_inv (mark_new_mines st l).
Proof.
  unfold mark_new_mines.
  induction l as [|c l IH]; intros [ai ch] Hl Hinv; [done|]. cbn [foldl].
  apply IH; [intros; apply Hl; by right|].
  case_decide as Hc; [done|].
  pose proof (deduce_inv_le _ Hinv) as Hle. destruct Hinv as [Hsub _].
  split; cbn [fst snd] in *.
  - etrans; [apply mark_mine_cells_of | done].
  - assert (c ∈ U0) as HU by (apply Hl; left).
    pose proof (mark_mine_potential ai c HU Hc). lia.
Qed.

Lemma mark_new_safes_inv (l : list Cell) :
  ∀ st, (∀ c, c ∈ l → c ∈ U0) → deduce_inv st →
        deduce_inv (mark_new_safes st l).
Proof.
  unfold mark_new_safes.
  induction l as [|c l IH]; intros [ai ch] Hl Hinv; [done|]. cbn [foldl].
  apply IH; [intros; apply Hl; by right|].
  case_decide as Hc; [done|].
  pose proof (deduce_inv_le _ Hinv) as Hle. destruct Hinv as [Hsub _].
  split; cbn [fst snd] in *.
  - etrans; [apply mark_safe_cells_of | done].
  - assert (c ∈ U0) as HU by (apply Hl; left).
    pose proof (mark_safe_potential ai c HU Hc). lia.
Qed.

(** The cells read from the sentence at index [k] are in [U0]. *)
Lemma deduce_inv_lookup st k sentence c :
  deduce_inv st → knowledge st.1 !! k = Some sentence →
  c ∈ Sentence.cells sentence → c ∈ U0.
Proof.
  intros [Hsub _] Hk Hc. apply Hsub, elem_of_cells_of.
  exists sentence. split; [by eapply list_elem_of_lookup_2 | done].
Qed.

Lemma deduce_step_inv st k st' :
  deduce_inv st → deduce_step st k = Ok st' → deduce_inv st'.
Proof.
  intros Hinv. unfold deduce_step.
  destruct (knowledge st.1 !! k) as [sentence|] eqn:Hk;
    [|by intros [= <-]].
  case_decide; [by intros [= <-]|].
  intros (st1 & Hm & Hs)%bind_Ok.
  assert (deduce_inv st1) as Hinv1.
  { destruct (Sentence.known_mines sentence) as [nm|] eqn:Hnm;
      [|by injection Hm as <-].
    destruct (decide (nm ≠ ∅)); [|done]. injection Hm as <-.
    apply known_mines_Some in Hnm as [_ ->].
    apply mark_new_mines_inv; [|done].
    intros c Hc%elem_of_elements. by eapply deduce_inv_lookup. }
  destruct (Sentence.known_safes sentence); [|by injection Hs as <-].
  destruct (decide (_ ≠ ∅)) in Hs; [|done]. injection Hs as <-.
  apply mark_new_safes_inv; [|done].
  intros c Hc%elem_of_elements.
  destruct (knowledge st1.1 !! k) as [sentence'|] eqn:Hk';
    [|by apply not_elem_of_empty in Hc].
  by eapply (deduce_inv_lookup st1).
Qed.

End Deduction.

(** After a pass of the first loop from [changed = False]: the agent is as
    it was, or [changed] is set and the potential is lower. *)
Lemma deduce_Ok (U0 : gset Cell) (ai : AI) (st1 : AI * bool) :
  cells_of (knowledge ai) ⊆ U0 →
  deduce (ai, false) = Ok st1 →
  deduce_inv U0 ai st1.
Proof.
  intros Hsub Hd.
  eapply (for_each_invariant (deduce_inv U0 ai)); [| |exact Hd].
  - by split.
  - intros st k st' _. apply deduce_step_inv.
Qed.

(** ** The [while] loop stops *)

Lemma remove_empty_elem kb x : x ∈ remove_empty kb ↔ x ≠ empty ∧ x ∈ kb.
Proof. unfold remove_empty. by rewrite list_elem_of_filter. Qed.

Lemma remove_empty_app kb1 kb2 :
  remove_empty (kb1 ++ kb2) = remove_empty kb1 ++ remove_empty kb2.
Proof. apply filter_app. Qed.

Lemma remove_empty_cells kb :
  (∀ x, x ∈ kb → Sentence.cells x ≠ ∅) → remove_empty kb = kb.
Proof.
  induction kb as [|x kb IH]; intros Hne; [done|].
  unfold remove_empty in *. rewrite filter_cons_True.
  - f_equal. apply IH. intros y Hy. apply Hne. by right.
  - intros ->. by apply (Hne empty); [left|].
Qed.

Lemma closure_body_Ok fuel ai st' :
  closure_body fuel (ai, true) = Ok st' →
  ∃ st1 kb changed,
    deduce (ai, false) = Ok st1
    ∧ resolve_outer fuel (knowledge st1.1, st1.2) 0 = Ok (kb, changed)
    ∧ st' = (set_knowledge st1.1 (remove_empty kb), changed).
Proof.
  unfold closure_body. cbn [fst snd].
  intros (st1 & Hd & ([kb ch] & Hr & [= <-])%bind_Ok)%bind_Ok.
  by exists st1, kb, ch.
Qed.

Lemma closure_body_terminates st :
  terminates (λ fuel, closure_body fuel st).
Proof.
  unfold closure_body.
  assert (∃ st1, (if st.2 then deduce (st.1, false) else Ok st) = Ok st1)
    as [st1 ->] by (destruct st.2; [apply deduce_returns | eauto]).
  destruct (resolve_outer_terminates (knowledge st1.1) st1.2) as [fuel Hf].
  exists fuel. cbn.
  by destruct (resolve_outer fuel (knowledge st1.1, st1.2) 0) as [[? ?]| |].
Qed.

Section ClosureTermination.

(** A set that holds the cells of the knowledge base all along. *)
Variable U0 : gset Cell.

(** The passes of the loop that mark no cell only add sentences: the
    knowledge base is a list [pre], where the sentences without cells have
    counts of absolute value at most [M0], followed by the sentences
    [app] added since the last pass that marked a cell. *)
Definition stretch (M0 : Z) (ai : AI) (pre app : list Sentence) : Prop :=
  cells_of (knowledge ai) ⊆ U0
  ∧ knowledge ai = pre ++ app
  ∧ NoDup app
  ∧ (∀ x, x ∈ app → x ∉ pre ∧ Sentence.cells x ≠ ∅)
  ∧ (∀ x, x ∈ pre → Sentence.cells x = ∅ → Z.abs (Sentence.count x) ≤ M0)
  ∧ 0 ≤ M0.

Lemma stretch_start ai :
  cells_of (knowledge ai) ⊆ U0 →
  stretch (max_abs_count (knowledge ai)) ai (knowledge ai) [].
Proof.
  intros HU. split; [done|]. split; [by rewrite app_nil_r|].
  split; [constructor|]. split; [by intros ? ?%elem_of_nil|].
  split; [|apply max_abs_count_nonneg].
  intros x Hx _. by apply max_abs_count_elem.
Qed.

(** One pass that marks no cell and adds the sentences [app']. *)
Lemma stretch_step M0 ai pre app kb changed :
  stretch M0 ai pre app →
  outer_inv U0 (knowledge ai) false (kb, changed) (length kb) →
  ∃ app',
    kb = knowledge ai ++ app'
    ∧ changed = bool_decide (app' ≠ [])
    ∧ stretch M0 (set_knowledge ai (remove_empty kb))
              (remove_empty pre) (app ++ app')
    ∧ (length (app ++ app') ≤ bound U0 M0)%nat.
Proof.
  intros (HU & Hkb & Hnd & Happ & Hemp & HM) Hinv.
  pose proof Hinv as (app' & Hkb' & _ & Hnd' & Happ' & _ & Hch).
  cbn [fst snd] in *.
  exists app'. split; [done|]. split; [done|].
  assert (NoDup (app ++ app')) as Hnd2.
  { apply NoDup_app. split; [done|]. split; [|done].
    intros x Hx Hx'. apply Happ' in Hx' as (Hn & _). apply Hn.
    rewrite Hkb. apply elem_of_app. by right. }
  assert (∀ x, x ∈ app ++ app' → x ∉ pre ∧ Sentence.cells x ≠ ∅) as Happ2.
  { intros x [Hx|Hx]%elem_of_app; [by apply Happ|].
    apply Happ' in Hx as (Hn & Hne & _). split; [|done].
    intros Hp. apply Hn. rewrite Hkb. apply elem_of_app. by left. }
  assert (∀ x, x ∈ kb → Sentence.cells x ⊆ U0) as Hcells.
  { intros x Hx. apply (outer_inv_cells U0 (knowledge ai) false) with
      (st := (kb, changed)) (i := length kb); [|done..].
    intros y Hy. etrans; [by apply cells_of_elem | done]. }
  split; [split; [|split; [|split; [|split; [|split]]]]|]; try done.
  - cbn. intros c (x & [_ Hx]%remove_empty_elem & Hc)%elem_of_cells_of.
    by apply (Hcells x Hx).
  - cbn. rewrite Hkb', Hkb, <- app_assoc, remove_empty_app. f_equal.
    apply remove_empty_cells. intros x Hx. by apply Happ2.
  - intros x Hx. destruct (Happ2 x Hx) as [Hn Hne]. split; [|done].
    intros [_ Hp]%remove_empty_elem. done.
  - intros x [_ Hx]%remove_empty_elem. by apply Hemp.
  - apply near_length; [done | done | |].
    + intros x Hx. apply Hcells. rewrite Hkb', Hkb, <- app_assoc.
      apply elem_of_app. by right.
    + apply (outer_inv_near U0 (knowledge ai) false (kb, changed)
               (length kb)); [done | | done |].
      * intros x Hx He. rewrite Hkb in Hx.
        apply elem_of_app in Hx as [Hx|Hx]; [by apply Hemp|].
        by destruct (Happ x Hx).
      * intros x Hx. split; [by apply Happ2|].
        assert (x ∈ kb) as Hin.
        { rewrite Hkb', Hkb, <- app_assoc. apply elem_of_app. by right. }
        apply list_elem_of_lookup_1 in Hin as [a Ha].
        exists a. split; [by eapply lookup_lt_Some | done].
Qed.

Lemma closure_terminates_stretch (n : nat) :
  ∀ (k : nat) (M0 : Z) (ai : AI) (pre app : list Sentence),
    (potential U0 ai ≤ n)%nat →
    stretch M0 ai pre app →
    (bound U0 M0 - length app ≤ k)%nat →
    terminates (λ fuel, closure fuel (ai, true)).
Proof.
  induction n as [n IHn] using lt_wf_ind.
  induction k as [|k IHk]; intros M0 ai pre app Hpot Hst Hk.
  all: destruct (terminates_bind
                   (λ fuel, closure_body fuel (ai, true))
                   (λ fuel st', closure fuel st')) as [f Hf];
    [ apply closure_body_fuel | intros; apply closure_fuel
    | apply closure_body_terminates | | exists (S f); cbn; by apply Hf ].
  all: intros fuel st' (st1 & kb & ch & Hd & Hr & ->)%closure_body_Ok.
  all: destruct ch; [|by exists 0%nat].
  all: pose proof Hst as (HU & _).
  all: apply (deduce_Ok U0) in Hd as [HU1 Hch1]; [|done].
  all: destruct st1 as [ai1 ch1]; cbn [fst snd] in *.
  all: assert (∀ y, y ∈ knowledge ai1 → Sentence.cells y ⊆ U0) as Hcells
    by (intros y Hy; etrans; [by apply cells_of_elem | done]).
  all: apply (resolve_outer_Ok U0) in Hr; [|done].
  all: cbn [fst] in Hr.
  all: destruct ch1.
  (* a cell was marked: the potential is lower *)
  1,3: apply (IHn (potential U0 ai1))
         with (M0 := max_abs_count (remove_empty kb))
              (k := bound U0 (max_abs_count (remove_empty kb)))
              (pre := remove_empty kb) (app := []);
    [ lia | done | | cbn; lia ];
    apply (stretch_start (set_knowledge ai1 (remove_empty kb)));
    cbn; intros c (x & [_ Hx]%remove_empty_elem & Hc)%elem_of_cells_of;
    by apply (outer_inv_cells U0 (knowledge ai1) true Hcells
                (kb, true) (length kb) x Hr).
  (* no cell was marked: sentences were added *)
  all: subst ai1.
  all: destruct (stretch_step M0 ai pre app kb true Hst Hr)
         as (app' & Hkb & Hch & Hst' & Hlen).
  all: assert (app' ≠ []) as Hne
    by (intros ->; by rewrite bool_decide_false in Hch by (by intros ?)).
  all: assert (0 < length app')%nat as Hpos by (destruct app'; cbn; [done|lia]).
  all: rewrite List.length_app in Hlen.
  - lia.
  - apply (IHk M0 _ (remove_empty pre) (app ++ app')); [done | done |].
    rewrite List.length_app. lia.
Qed.

End ClosureTermination.

(** The [while] loop always stops. *)
Lemma closure_terminates (st : AI * bool) :
  terminates (λ fuel, closure fuel st).
Proof.
  destruct st as [ai [|]]; [|by exists 0%nat].
  eapply (closure_terminates_stretch (cells_of (knowledge ai)));
    [done | by apply stretch_start | done].
Qed.

(** ** add_knowledge stops *)

(** C5, as the code has it: for every agent and every call, with enough
    fuel [add_knowledge] stops, with one outcome whatever fuel is added: it
    returns an agent, or it raises [AssertionError] from one of the two
    assertions on the index 8 or from the assertion on the sentence built
    by subset resolution. *)
Theorem add_knowledge_terminates (ai : AI) (cell : Cell) (count : Z) :
  ∃ (fuel : nat) (outcome : result AI),
    ((∃ ai', outcome = Ok ai')
     ∨ (∃ a, a ∈ [Assert_i_not_8; Assert_j_not_8;
                  Assert_new_sentence_not_empty]
             ∧ outcome = Raise (AssertionError a)))
    ∧ ∀ more : nat, add_knowledge (fuel + more) ai cell count = outcome.
Proof.
  assert (terminates (λ fuel, add_knowledge fuel ai cell count)) as [fuel Hf].
  { unfold add_knowledge.
    destruct (add_sentence_cases ai cell count) as [[ai1 ->]|[_ [-> | ->]]];
      [apply closure_terminates | by exists 0%nat..]. }
  exists fuel, (add_knowledge fuel ai cell count). split.
  - revert Hf. unfold add_knowledge.
    destruct (add_sentence_cases ai cell count) as [[ai1 ->]|[_ [-> | ->]]];
      cbn.
    + destruct (closure fuel (ai1, true)) as [ai'|e|] eqn:Hc; [eauto| |done].
      apply closure_raise in Hc as ->. intros _.
      right. exists Assert_new_sentence_not_empty. split; [set_solver | done].
    + right. exists Assert_i_not_8. split; [set_solver | done].
    + right. exists Assert_j_not_8. split; [set_solver | done].
  - intros more. apply add_knowledge_fuel; [lia | done].
Qed.

(** The agent after [add_knowledge((0, 0), 1)] on a new agent of a board of
    8 rows and 8 columns. *)
Definition after_first_call : AI :=
  mk 8 8 {[ (0, 0) ]} ∅ {[ (0, 0) ]}
     [Sentence.mk {[ (0, 1); (1, 0); (1, 1) ]} 1].

(** C5, counterexample: a second call for the cell (0, 0), with the count
    2, does not return, whatever the fuel: the sentences of the two calls
    have the same cells and the counts 1 and 2, and the assertion on the
    sentence built from them fails. *)
Lemma add_knowledge_does_not_return :
  add_knowledge 20 (init 8 8) (0, 0) 1 = Ok after_first_call ∧
  add_knowledge 20 after_first_call (0, 0) 2
  = Raise (AssertionError Assert_new_sentence_not_empty) ∧
  ¬ ∃ (fuel : nat) (ai' : AI),
      add_knowledge fuel after_first_call (0, 0) 2 = Ok ai'.
Proof.
  assert (add_knowledge 20 after_first_call (0, 0) 2
          = Raise (AssertionError Assert_new_sentence_not_empty)) as Hr
    by (vm_compute; reflexivity).
  split; [vm_compute; reflexivity|]. split; [done|].
  intros (fuel & ai' & Hok).
  pose proof (add_knowledge_fuel after_first_call (0, 0) 2) as Hmono.
  pose proof (Hmono fuel (fuel `max` 20)%nat) as H1.
  pose proof (Hmono 20%nat (fuel `max` 20)%nat) as H2.
  cbn beta in H1, H2.
  rewrite H1, Hok in H2 by (lia || congruence).
  rewrite Hr in H2. by discriminate H2; [lia|].
Qed.

(** ** Subset resolution: what the loops derive *)

(** The body of the loops on a pair that resolves. *)
Lemma resolve_pair_resolvable kb changed (A B : Sentence) :
  resolvable A B →
  (candidate A B ∈ kb → resolve_pair (kb, changed) A B = Ok (kb, changed)) ∧
  (candidate A B ∉ kb → Sentence.cells A ≠ Sentence.cells B →
   resolve_pair (kb, changed) A B = Ok (kb ++ [candidate A B], true)) ∧
  (candidate A B ∉ kb → Sentence.cells A = Sentence.cells B →
   resolve_pair (kb, changed) A B
   = Raise (AssertionError Assert_new_sentence_not_empty)).
Proof.
  intros Hres. pose proof (candidate_empty A B Hres) as He.
  rewrite resolve_pair_unfold, decide_True by done. cbn [fst].
  split; [|split].
  - intros Hin. by rewrite decide_True.
  - intros Hin Hne. rewrite decide_False, decide_True by tauto. done.
  - intros Hin Heq. rewrite decide_False by done.
    rewrite decide_False; [done|]. intros Hne. tauto.
Qed.

(** The two loops, when they return: the list has grown by candidates that
    were not in it, and holds the candidate of every pair of sentences it
    started with. *)
Lemma resolve_outer_closed fuel kb changed kb' changed' :
  resolve_outer fuel (kb, changed) 0 = Ok (kb', changed') →
  ∃ app : list Sentence,
    kb' = kb ++ app
    ∧ NoDup app
    ∧ (∀ x, x ∈ app →
         x ∉ kb ∧ ∃ A B, A ∈ kb' ∧ B ∈ kb' ∧ resolvable A B
                         ∧ x = candidate A B)
    ∧ (∀ A B, A ∈ kb → B ∈ kb → resolvable A B → candidate A B ∈ kb')
    ∧ changed' = changed || bool_decide (app ≠ []).
Proof.
  intros Hr.
  apply (resolve_outer_Ok (cells_of kb)) in Hr; [|apply cells_of_elem].
  destruct Hr as (app & Hkb & _ & Hnd & Happ & Hcl & Hch).
  cbn [fst snd] in *. exists app.
  split; [done|]. split; [done|]. split; [|split; [|done]].
  - intros x Hx. destruct (Happ x Hx) as (? & _ & _ & A & B & ?).
    split; [done|]. by exists A, B.
  - intros A B [a Ha]%list_elem_of_lookup_1 [b Hb]%list_elem_of_lookup_1 Hres.
    pose proof (lookup_lt_Some _ _ _ Ha). pose proof (lookup_lt_Some _ _ _ Hb).
    apply (Hcl a b A B); [|by left| | |done].
    + rewrite Hkb, List.length_app. lia.
    + rewrite Hkb. by apply lookup_app_l_Some.
    + rewrite Hkb. by apply lookup_app_l_Some.
Qed.

(** ** A knowledge base with nothing to derive *)

Lemma resolve_pair_skip st s1 s2 :
  ¬ resolvable s1 s2 ∨ candidate s1 s2 ∈ st.1 → resolve_pair st s1 s2 = Ok st.
Proof.
  rewrite resolve_pair_unfold. intros [H|H].
  - by rewrite decide_False.
  - case_decide; [|done]. by rewrite decide_True.
Qed.

Lemma resolve_inner_S fuel st s1 j :
  resolve_inner (S fuel) st s1 j =
  match st.1 !! j with
  | None => Ok st
  | Some s2 => st' ← resolve_pair st s1 s2; resolve_inner fuel st' s1 (S j)
  end.
Proof. done. Qed.

Lemma resolve_outer_S fuel st i :
  resolve_outer (S fuel) st i =
  match st.1 !! i with
  | None => Ok st
  | Some s1 => st' ← resolve_inner fuel st s1 0; resolve_outer fuel st' (S i)
  end.
Proof. done. Qed.

(** The inner loop leaves the list as it is when the candidates of
    [s1] are in it. *)
Lemma resolve_inner_closed (s1 : Sentence) (fuel : nat) :
  ∀ st j,
    (∀ s2, s2 ∈ st.1 → resolvable s1 s2 → candidate s1 s2 ∈ st.1) →
    (length st.1 - j < fuel)%nat →
    resolve_inner fuel st s1 j = Ok st.
Proof.
  induction fuel as [|fuel IH]; intros st j Hcl Hf; [lia|]. cbn.
  destruct (st.1 !! j) as [s2|] eqn:Hj; [|done].
  pose proof (lookup_lt_Some _ _ _ Hj).
  rewrite resolve_pair_skip; cbn; [apply IH; [done|lia]|].
  destruct (decide (resolvable s1 s2)); [right|by left].
  apply Hcl; [by eapply list_elem_of_lookup_2 | done].
Qed.

Lemma resolve_outer_closed_id (fuel : nat) :
  ∀ st i,
    (∀ s1 s2, s1 ∈ st.1 → s2 ∈ st.1 → resolvable s1 s2 →
              candidate s1 s2 ∈ st.1) →
    (length st.1 + (length st.1 - i) < fuel)%nat →
    resolve_outer fuel st i = Ok st.
Proof.
  induction fuel as [|fuel IH]; intros st i Hcl Hf; [lia|]. cbn.
  destruct (st.1 !! i) as [s1|] eqn:Hi; [|done].
  pose proof (lookup_lt_Some _ _ _ Hi).
  rewrite resolve_inner_closed; cbn; [apply IH; [done|lia] | | lia].
  intros s2 Hs2. apply Hcl; [by eapply list_elem_of_lookup_2 | done].
Qed.

(** A sentence that tells nothing in the first loop. *)
Definition inert (s : Sentence) : Prop :=
  Sentence.cells s = ∅
  ∨ Sentence.known_mines s = None ∧ Sentence.known_safes s = None.

Lemma deduce_step_inert st k :
  (∀ s, knowledge st.1 !! k = Some s → inert s) → deduce_step st k = Ok st.
Proof.
  intros H. unfold deduce_step.
  destruct (knowledge st.1 !! k) as [s|]; [|done].
  case_decide; [done|]. destruct (H s eq_refl) as [|[-> ->]]; done.
Qed.

Lemma deduce_inert ai :
  (∀ s, s ∈ knowledge ai → inert s) → deduce (ai, false) = Ok (ai, false).
Proof.
  intros H. unfold deduce. cbn [fst].
  induction (seq 0 (length (knowledge ai))) as [|k l IH]; [done|].
  cbn [for_each]. rewrite deduce_step_inert; [done|].
  intros s Hs. apply H. by eapply list_elem_of_lookup_2.
Qed.

Lemma closure_S fuel st :
  closure (S fuel) st =
  if st.2 then st' ← closure_body fuel st; closure fuel st' else Ok st.1.
Proof. done. Qed.

(** ** The example of three cells *)

Section Example.

(** Two sentences with the same count [n], the cells of the second being
    those of the first without the cell [C]; neither tells a mine or a
    safe cell by itself. *)
Variables (Y : gset Cell) (C : Cell) (n : Z).
Hypotheses (HC : C ∉ Y) (HY : Y ≠ ∅) (Hn0 : n ≠ 0)
           (Hn1 : n ≠ Z.of_nat (size Y)) (Hn2 : n ≠ Z.of_nat (size Y) + 1).

Definition S_X : Sentence := Sentence.mk (Y ∪ {[ C ]}) n.
Definition S_Y : Sentence := Sentence.mk Y n.
Definition S_C : Sentence := Sentence.mk {[ C ]} 0.

Lemma candidate_Y_X : candidate S_Y S_X = S_C.
Proof. unfold candidate, S_C. cbn. f_equal; [set_solver | lia]. Qed.

Lemma candidate_C_X : candidate S_C S_X = S_Y.
Proof. unfold candidate, S_Y. cbn. f_equal; [set_solver | lia]. Qed.

Lemma S_X_inert :
  Sentence.known_mines S_X = None ∧ Sentence.known_safes S_X = None.
Proof.
  unfold Sentence.known_mines, Sentence.known_safes. cbn.
  rewrite size_union, size_singleton by set_solver.
  rewrite !decide_False; [done | done | lia].
Qed.

Lemma S_Y_inert :
  Sentence.known_mines S_Y = None ∧ Sentence.known_safes S_Y = None.
Proof.
  unfold Sentence.known_mines, Sentence.known_safes. cbn.
  rewrite !decide_False; done.
Qed.

Lemma Y_not_below_C : ¬ Y ⊆ {[ C ]}.
Proof.
  intros Hsub. apply HY, set_eq. intros c. split; [|set_solver].
  intros Hc. pose proof (Hsub c Hc) as ->%elem_of_singleton. done.
Qed.

Lemma not_resolvable_X s2 : s2 ∈ [S_X; S_Y; S_C] → ¬ resolvable S_X s2.
Proof.
  intros Hs2 (Hne & _ & _ & Hsub).
  repeat (apply elem_of_cons in Hs2 as [->|Hs2]); try done.
  - apply HC, Hsub. cbn. set_solver.
  - apply Y_not_below_C. cbn in Hsub. set_solver.
  - by apply elem_of_nil in Hs2.
Qed.

Lemma not_resolvable_Y_C : ¬ resolvable S_Y S_C.
Proof.
  intros (_ & _ & _ & Hsub). by apply Y_not_below_C.
Qed.

Lemma not_resolvable_C_Y : ¬ resolvable S_C S_Y.
Proof. intros (_ & _ & _ & Hsub). cbn in Hsub. set_solver. Qed.

Lemma resolvable_Y_X : resolvable S_Y S_X.
Proof.
  split; [|split; [done|split; [|cbn; set_solver]]].
  - intros H. apply (f_equal Sentence.cells) in H. cbn in H.
    apply HC. rewrite H. set_solver.
  - cbn. set_solver.
Qed.

Lemma S_C_not_in : S_C ∉ [S_X; S_Y].
Proof.
  intros H. repeat (apply elem_of_cons in H as [H|H]);
    try (apply (f_equal Sentence.count) in H; cbn in H; congruence).
  by apply elem_of_nil in H.
Qed.

Lemma closed_XYC s1 s2 :
  s1 ∈ [S_X; S_Y; S_C] → s2 ∈ [S_X; S_Y; S_C] → resolvable s1 s2 →
  candidate s1 s2 ∈ [S_X; S_Y; S_C].
Proof.
  intros Hs1 Hs2 Hr.
  repeat (apply elem_of_cons in Hs1 as [->|Hs1]).
  - by destruct (not_resolvable_X s2).
  - repeat (apply elem_of_cons in Hs2 as [->|Hs2]).
    + rewrite candidate_Y_X. set_solver.
    + by destruct Hr.
    + by destruct not_resolvable_Y_C.
    + by apply elem_of_nil in Hs2.
  - repeat (apply elem_of_cons in Hs2 as [->|Hs2]).
    + rewrite candidate_C_X. set_solver.
    + by destruct not_resolvable_C_Y.
    + by destruct Hr.
    + by apply elem_of_nil in Hs2.
  - by apply elem_of_nil in Hs1.
Qed.

(** The loops of the first pass append {C} = 0. *)
Lemma example_resolve_1 changed :
  resolve_outer 20 ([S_X; S_Y], changed) 0 = Ok ([S_X; S_Y; S_C], true).
Proof.
  change 20%nat with (S (S 18)).
  rewrite resolve_outer_S. cbn [fst lookup list_lookup].
  rewrite resolve_inner_closed; [| |cbn; lia].
  2:{ intros s2 Hs2 Hr. exfalso. eapply not_resolvable_X; [|done].
      cbn in *. set_solver. }
  cbn [mbind result_bind].
  rewrite resolve_outer_S. cbn [fst lookup list_lookup].
  change 18%nat with (S 17).
  rewrite resolve_inner_S. cbn [fst lookup list_lookup].
  destruct (resolve_pair_resolvable [S_X; S_Y] changed S_Y S_X resolvable_Y_X)
    as (_ & -> & _).
  2:{ rewrite candidate_Y_X. apply S_C_not_in. }
  2:{ cbn. intros H. apply HC. rewrite H. set_solver. }
  rewrite candidate_Y_X. cbn [mbind result_bind app].
  rewrite resolve_inner_closed; [| |cbn; lia].
  2:{ cbn [fst]. intros s2 Hs2 Hr.
      repeat (apply elem_of_cons in Hs2 as [->|Hs2]).
      - rewrite candidate_Y_X. set_solver.
      - by destruct Hr.
      - by destruct not_resolvable_Y_C.
      - by apply elem_of_nil in Hs2. }
  cbn [mbind result_bind].
  apply resolve_outer_closed_id; [apply closed_XYC | cbn; lia].
Qed.

Lemma S_X_cells : Sentence.cells S_X ≠ ∅.
Proof. cbn. set_solver. Qed.

Lemma S_C_cells : Sentence.cells S_C ≠ ∅.
Proof. cbn. set_solver. Qed.

Lemma known_mines_C : Sentence.known_mines S_C = None.
Proof.
  unfold Sentence.known_mines. cbn. rewrite size_singleton.
  by rewrite decide_False.
Qed.

Lemma known_safes_C : Sentence.known_safes S_C = Some {[ C ]}.
Proof. done. Qed.

Lemma mark_safe_X : Sentence.mark_safe S_X C = S_Y.
Proof.
  unfold Sentence.mark_safe. cbn. rewrite decide_True by set_solver.
  unfold S_Y. f_equal. set_solver.
Qed.

Lemma mark_safe_Y : Sentence.mark_safe S_Y C = S_Y.
Proof. unfold Sentence.mark_safe. cbn. by rewrite decide_False. Qed.

Lemma mark_safe_C : Sentence.mark_safe S_C C = empty.
Proof.
  unfold Sentence.mark_safe. cbn. rewrite decide_True by set_solver.
  unfold empty. f_equal. set_solver.
Qed.

Lemma remove_empty_YY : remove_empty [S_Y; S_Y; empty] = [S_Y; S_Y].
Proof.
  unfold remove_empty.
  rewrite !filter_cons_True
    by (intros H; by apply (f_equal Sentence.cells) in H).
  by rewrite filter_cons_False by (by intros H).
Qed.

Lemma closed_YY (l : list Sentence) :
  (∀ s, s ∈ l → s = S_Y ∨ s = empty) →
  ∀ s1 s2, s1 ∈ l → s2 ∈ l → resolvable s1 s2 → candidate s1 s2 ∈ l.
Proof.
  intros Hl s1 s2 Hs1 Hs2 (Hne & H1 & H2 & _).
  destruct (Hl s1 Hs1) as [->| ->]; [|done].
  destruct (Hl s2 Hs2) as [->| ->]; done.
Qed.

(** The first pass: nothing to mark, {C} = 0 is appended. *)
Lemma example_pass_1 ai :
  knowledge ai = [S_X; S_Y] →
  closure_body 20 (ai, true)
  = Ok (set_knowledge ai [S_X; S_Y; S_C], true).
Proof.
  intros Hkb. unfold closure_body. cbn [fst snd].
  rewrite deduce_inert.
  2:{ rewrite Hkb. intros s Hs. right.
      repeat (apply elem_of_cons in Hs as [->|Hs]);
        [apply S_X_inert | apply S_Y_inert | by apply elem_of_nil in Hs]. }
  cbn [mbind result_bind fst snd]. rewrite Hkb, example_resolve_1.
  cbn [mbind result_bind]. rewrite remove_empty_cells; [done|].
  intros s Hs. repeat (apply elem_of_cons in Hs as [->|Hs]);
    [apply S_X_cells | done | apply S_C_cells | by apply elem_of_nil in Hs].
Qed.

(** The second pass: C is marked safe. *)
Lemma example_pass_2 ai :
  knowledge ai = [S_X; S_Y; S_C] → C ∉ safes ai →
  closure_body 20 (ai, true)
  = Ok (set_knowledge (mark_safe ai C) [S_Y; S_Y], true).
Proof.
  intros Hkb HCs. unfold closure_body. cbn [fst snd].
  assert (deduce (ai, false) = Ok (mark_safe ai C, true)) as ->.
  { unfold deduce. cbn [fst]. rewrite Hkb. cbn [length seq for_each].
    rewrite deduce_step_inert.
    2:{ cbn [fst]. rewrite Hkb. intros s [= <-]. right. apply S_X_inert. }
    cbn [mbind result_bind].
    rewrite deduce_step_inert.
    2:{ cbn [fst]. rewrite Hkb. intros s [= <-]. right. apply S_Y_inert. }
    cbn [mbind result_bind].
    unfold deduce_step. cbn [fst]. rewrite Hkb. cbn [lookup list_lookup].
    rewrite decide_False by apply S_C_cells.
    rewrite known_mines_C, known_safes_C. cbn [mbind result_bind fst].
    rewrite Hkb. cbn [lookup list_lookup from_option].
    rewrite decide_True by apply S_C_cells.
    unfold S_C. cbn [Sentence.cells].
    rewrite elements_singleton. unfold mark_new_safes. cbn [foldl].
    by rewrite decide_False. }
  cbn [mbind result_bind fst snd mark_safe knowledge].
  rewrite Hkb. cbn [fmap list_fmap].
  rewrite mark_safe_X, mark_safe_Y, mark_safe_C.
  rewrite resolve_outer_closed_id; [| |cbn; lia].
  2:{ cbn [fst]. apply closed_YY. intros s Hs.
      repeat (apply elem_of_cons in Hs as [->|Hs]); auto.
      by apply elem_of_nil in Hs. }
  cbn [mbind result_bind fst]. by rewrite remove_empty_YY.
Qed.

Lemma XYC_cells s : s ∈ [S_X; S_Y; S_C] → Sentence.cells s ≠ ∅.
Proof.
  intros Hs. repeat (apply elem_of_cons in Hs as [->|Hs]);
    [apply S_X_cells | done | apply S_C_cells | by apply elem_of_nil in Hs].
Qed.

(** The second pass when C is safe already: nothing changes. *)
Lemma example_pass_2_safe ai :
  knowledge ai = [S_X; S_Y; S_C] → C ∈ safes ai →
  closure_body 20 (ai, true) = Ok (ai, false).
Proof.
  intros Hkb HCs. unfold closure_body. cbn [fst snd].
  assert (deduce (ai, false) = Ok (ai, false)) as ->.
  { unfold deduce. cbn [fst]. rewrite Hkb. cbn [length seq for_each].
    rewrite deduce_step_inert.
    2:{ cbn [fst]. rewrite Hkb. intros s [= <-]. right. apply S_X_inert. }
    cbn [mbind result_bind].
    rewrite deduce_step_inert.
    2:{ cbn [fst]. rewrite Hkb. intros s [= <-]. right. apply S_Y_inert. }
    cbn [mbind result_bind].
    unfold deduce_step. cbn [fst]. rewrite Hkb. cbn [lookup list_lookup].
    rewrite decide_False by apply S_C_cells.
    rewrite known_mines_C, known_safes_C. cbn [mbind result_bind fst].
    rewrite Hkb. cbn [lookup list_lookup from_option].
    rewrite decide_True by apply S_C_cells.
    unfold S_C. cbn [Sentence.cells].
    rewrite elements_singleton. unfold mark_new_safes. cbn [foldl].
    by rewrite decide_True. }
  cbn [mbind result_bind fst snd]. rewrite Hkb.
  rewrite resolve_outer_closed_id; [|apply closed_XYC|cbn; lia].
  cbn [mbind result_bind]. rewrite remove_empty_cells by apply XYC_cells.
  rewrite <- Hkb. by destruct ai.
Qed.

(** The last pass: nothing to mark and nothing to derive. *)
Lemma example_pass_3 ai :
  knowledge ai = [S_Y; S_Y] →
  closure_body 20 (ai, true) = Ok (ai, false).
Proof.
  intros Hkb. unfold closure_body. cbn [fst snd].
  rewrite deduce_inert.
  2:{ rewrite Hkb. intros s Hs. right.
      repeat (apply elem_of_cons in Hs as [->|Hs]);
        [apply S_Y_inert | apply S_Y_inert | by apply elem_of_nil in Hs]. }
  cbn [mbind result_bind fst snd]. rewrite Hkb.
  rewrite resolve_outer_closed_id; [| |cbn; lia].
  2:{ cbn [fst]. apply closed_YY. intros s Hs.
      repeat (apply elem_of_cons in Hs as [->|Hs]); auto.
      by apply elem_of_nil in Hs. }
  cbn [mbind result_bind]. rewrite remove_empty_cells.
  2:{ intros s Hs. repeat (apply elem_of_cons in Hs as [->|Hs]);
        [done | done | by apply elem_of_nil in Hs]. }
  rewrite <- Hkb. by destruct ai.
Qed.

Lemma closure_body_more fuel st r :
  closure_body 20 st = Ok r → (20 ≤ fuel)%nat → closure_body fuel st = Ok r.
Proof.
  intros Hr Hf. rewrite <- Hr. apply closure_body_fuel; [done|].
  by rewrite Hr.
Qed.

(** From the two sentences the closure ends with C safe. *)
Lemma example_closure ai :
  knowledge ai = [S_X; S_Y] →
  ∃ ai', closure 24 (ai, true) = Ok ai'
         ∧ C ∈ safes ai' ∧ mines ai' = mines ai.
Proof.
  intros Hkb. change 24%nat with (S (S (S (S 20)))).
  rewrite closure_S. cbn [snd].
  rewrite (closure_body_more _ _ _ (example_pass_1 ai Hkb)) by lia.
  cbn [mbind result_bind]. rewrite closure_S. cbn [snd].
  destruct (decide (C ∈ safes ai)) as [HCs|HCs].
  - rewrite (closure_body_more _ _ _
               (example_pass_2_safe (set_knowledge ai [S_X; S_Y; S_C])
                  eq_refl HCs)) by lia.
    cbn [mbind result_bind]. rewrite closure_S. cbn [snd fst]. eauto.
  - rewrite (closure_body_more _ _ _
               (example_pass_2 (set_knowledge ai [S_X; S_Y; S_C])
                  eq_refl HCs)) by lia.
    cbn [mbind result_bind]. rewrite closure_S. cbn [snd].
    rewrite (closure_body_more _ _ _
               (example_pass_3 (set_knowledge _ [S_Y; S_Y]) eq_refl)) by lia.
    cbn [mbind result_bind]. rewrite closure_S. cbn [snd fst].
    eexists. split; [done|]. cbn. split; [set_solver | done].
Qed.

End Example.

(** From {A, B, C} = 1 and {A, B} = 1, for three cells A, B and C. *)
Lemma closure_ABC (A B C : Cell) (ai : AI) :
  A ≠ B → A ≠ C → B ≠ C →
  knowledge ai = [Sentence.mk {[ A; B; C ]} 1; Sentence.mk {[ A; B ]} 1] →
  resolve_outer 20 (knowledge ai, false) 0
  = Ok (knowledge ai ++ [Sentence.mk {[ C ]} 0], true)
  ∧ ∃ ai', closure 24 (ai, true) = Ok ai' ∧ C ∈ safes ai'.
Proof.
  intros HAB HAC HBC Hkb.
  assert (size ({[ A; B ]} : gset Cell) = 2%nat) as Hsz.
  { rewrite size_union, !size_singleton by set_solver. done. }
  assert (C ∉ ({[ A; B ]} : gset Cell)) as HC by set_solver.
  assert (({[ A; B ]} : gset Cell) ≠ ∅) as HY by set_solver.
  assert (1 ≠ Z.of_nat (size ({[ A; B ]} : gset Cell))) as H1
    by (rewrite Hsz; lia).
  assert (1 ≠ Z.of_nat (size ({[ A; B ]} : gset Cell)) + 1) as H2
    by (rewrite Hsz; lia).
  assert (1 ≠ 0) as H0 by lia.
  split.
  - rewrite Hkb. apply (example_resolve_1 {[ A; B ]} C 1 HC HY H0 H1 H2).
  - destruct (example_closure {[ A; B ]} C 1 HC HY H0 H1 H2 ai Hkb)
      as (ai' & Hc & Hs & _).
    by exists ai'.
Qed.

(** The agent whose knowledge base is {A, B, C} = 1 and {A, B} = 1 for the
    cells A = (0, 0), B = (0, 1) and C = (0, 2) of a board of 8 rows and 8
    columns. *)
Definition agent_ABC : AI :=
  set_knowledge (init 8 8)
    [Sentence.mk {[ (0, 0); (0, 1); (0, 2) ]} 1;
     Sentence.mk {[ (0, 0); (0, 1) ]} 1].

(** C2, as the code has it: for a pair of sentences of the knowledge base
    that are not equal, both with cells, the cells of the first among those
    of the second, the body of the loops builds the candidate; it leaves
    the knowledge base as it is when the candidate is in it, appends the
    candidate when it is not and the two cell sets differ, and fails its
    assertion when it is not and the two cell sets are the same.  The
    loops over the pairs stop, and when they return, the candidates of all
    the pairs of the list they started from are in the list, which has
    grown by candidates only.  From {A, B, C} = 1 and {A, B} = 1, for three
    cells A, B and C, the loops append {C} = 0, and the closure ends with C
    in [safes]. *)
Theorem subset_resolution_spec :
  (∀ (kb : list Sentence) (changed : bool) (A B : Sentence),
     A ∈ kb → B ∈ kb → A ≠ B →
     Sentence.cells A ≠ ∅ → Sentence.cells B ≠ ∅ →
     Sentence.cells A ⊆ Sentence.cells B →
     (candidate A B ∈ kb →
      resolve_pair (kb, changed) A B = Ok (kb, changed)) ∧
     (candidate A B ∉ kb → Sentence.cells A ≠ Sentence.cells B →
      resolve_pair (kb, changed) A B = Ok (kb ++ [candidate A B], true)) ∧
     (candidate A B ∉ kb → Sentence.cells A = Sentence.cells B →
      resolve_pair (kb, changed) A B
      = Raise (AssertionError Assert_new_sentence_not_empty))) ∧
  (∀ (fuel : nat) (kb kb' : list Sentence) (changed changed' : bool),
     resolve_outer fuel (kb, changed) 0 = Ok (kb', changed') →
     ∃ app : list Sentence,
       kb' = kb ++ app
       ∧ NoDup app
       ∧ (∀ x, x ∈ app →
            x ∉ kb ∧ ∃ A B, A ∈ kb' ∧ B ∈ kb' ∧ resolvable A B
                            ∧ x = candidate A B)
       ∧ (∀ A B, A ∈ kb → B ∈ kb → resolvable A B → candidate A B ∈ kb')
       ∧ changed' = changed || bool_decide (app ≠ [])) ∧
  (∀ (kb : list Sentence) (changed : bool),
     ∃ (fuel : nat) (outcome : result (list Sentence * bool)),
       outcome ≠ OutOfFuel
       ∧ ∀ more : nat, resolve_outer (fuel + more) (kb, changed) 0 = outcome) ∧
  (∀ (A B C : Cell) (ai : AI),
     A ≠ B → A ≠ C → B ≠ C →
     knowledge ai = [Sentence.mk {[ A; B; C ]} 1; Sentence.mk {[ A; B ]} 1] →
     resolve_outer 20 (knowledge ai, false) 0
     = Ok (knowledge ai ++ [Sentence.mk {[ C ]} 0], true)
     ∧ ∃ ai' : AI, closure 24 (ai, true) = Ok ai' ∧ C ∈ safes ai').
Proof.
  split; [|split; [|split]].
  - intros kb changed A B _ _ Hne HA HB Hsub.
    by apply resolve_pair_resolvable.
  - intros fuel kb kb' changed changed'. apply resolve_outer_closed.
  - intros kb changed.
    destruct (resolve_outer_terminates kb changed) as [fuel Hf].
    exists fuel, (resolve_outer fuel (kb, changed) 0). split; [done|].
    intros more. apply resolve_outer_fuel; [lia | done].
  - apply closure_ABC.
Qed.

Lemma subset_resolution_spec_witness :
  resolve_pair (knowledge agent_ABC, false)
    (Sentence.mk {[ (0, 0); (0, 1) ]} 1)
    (Sentence.mk {[ (0, 0); (0, 1); (0, 2) ]} 1)
  = Ok (knowledge agent_ABC
          ++ [candidate (Sentence.mk {[ (0, 0); (0, 1) ]} 1)
                        (Sentence.mk {[ (0, 0); (0, 1); (0, 2) ]} 1)], true)
  ∧ (∃ app : list Sentence,
       knowledge agent_ABC ++ [Sentence.mk {[ (0, 2) ]} 0]
       = knowledge agent_ABC ++ app)
  ∧ ∃ ai' : AI, closure 24 (agent_ABC, true) = Ok ai' ∧ (0, 2) ∈ safes ai'.
Proof.
  destruct subset_resolution_spec as (Hpair & Hloops & _ & Hex).
  split; [|split].
  2:{ destruct (Hloops 20%nat (knowledge agent_ABC)
                  (knowledge agent_ABC ++ [Sentence.mk {[ (0, 2) ]} 0])
                  false true) as (app & Happ & _).
      - vm_compute. reflexivity.
      - by exists app. }
  2:{ apply (Hex (0, 0) (0, 1) (0, 2) agent_ABC); done. }
  - apply (Hpair (knowledge agent_ABC) false
                 (Sentence.mk {[ (0, 0); (0, 1) ]} 1)
                 (Sentence.mk {[ (0, 0); (0, 1); (0, 2) ]} 1)).
    + apply list_elem_of_further, list_elem_of_here.
    + apply list_elem_of_here.
    + intros H. apply (f_equal (λ s, size (Sentence.cells s))) in H.
      vm_compute in H. discriminate H.
    + vm_compute. discriminate.
    + vm_compute. discriminate.
    + apply union_subseteq_l.
    + intros H. apply list_elem_of_In in H. cbn in H.
      destruct H as [H|[H|[]]];
        apply (f_equal Sentence.count) in H; discriminate H.
    + vm_compute. discriminate.
Defined.

(** C2, counterexample: two sentences with the same cells and the counts 1
    and 2 are a pair of the claim, their candidate is not in the list, and
    the body of the loops does not append it: it fails its assertion. *)
Lemma resolve_pair_same_cells :
  let A := Sentence.mk {[ (0, 0) ]} 1 in
  let B := Sentence.mk {[ (0, 0) ]} 2 in
  let kb := [A; B] in
  A ∈ kb ∧ B ∈ kb ∧ A ≠ B
  ∧ Sentence.cells A ≠ ∅ ∧ Sentence.cells B ≠ ∅
  ∧ Sentence.cells A ⊆ Sentence.cells B
  ∧ candidate A B ∉ kb
  ∧ resolve_pair (kb, false) A B ≠ Ok (kb ++ [candidate A B], true)
  ∧ resolve_pair (kb, false) A B
    = Raise (AssertionError Assert_new_sentence_not_empty).
Proof.
  cbn zeta.
  assert (resolve_pair
            ([Sentence.mk {[ (0, 0) ]} 1; Sentence.mk {[ (0, 0) ]} 2], false)
            (Sentence.mk {[ (0, 0) ]} 1) (Sentence.mk {[ (0, 0) ]} 2)
          = Raise (AssertionError Assert_new_sentence_not_empty)) as Hr
    by (vm_compute; reflexivity).
  split; [set_solver|]. split; [set_solver|]. split; [discriminate|].
  split; [vm_compute; discriminate|]. split; [vm_compute; discriminate|].
  split; [set_solver|]. split; [|split; [by rewrite Hr | done]].
  intros Hin. apply elem_of_cons in Hin as [Hin|Hin]; [discriminate Hin|].
  apply list_elem_of_singleton in Hin. discriminate Hin.
Qed.

(** ** The neighbours of a cell *)

(** The offsets of the two nested [range] loops. *)
Definition offsets : list (Z * Z) :=
  [(-1, -1); (-1, 0); (-1, 1); (0, -1); (0, 0); (0, 1); (1, -1); (1, 0); (1, 1)].

Lemma neighborhood_offsets (cell : Cell) :
  neighborhood cell = (λ d, (cell.1 + d.1, cell.2 + d.2)) <$> offsets.
Proof.
  unfold neighborhood, Minesweeper.range3, offsets. cbn.
  repeat f_equal; lia.
Qed.

Lemma NoDup_neighborhood (cell : Cell) : NoDup (neighborhood cell).
Proof.
  rewrite neighborhood_offsets. apply NoDup_fmap_2.
  - intros [a b] [c d] [= ? ?]. f_equal; lia.
  - apply (bool_decide_unpack _). by vm_compute.
Qed.

(** A loop that adds a weight for each element. *)
Lemma foldl_additive {B : Type} (f : Z → B → Z) (w : B → Z) :
  (∀ a b, f a b = a + w b) →
  ∀ l a, foldl f a l = a + foldr (λ b s, w b + s) 0 l.
Proof.
  intros Hf. induction l as [|b l IH]; intros a; cbn [foldl foldr]; [lia|].
  rewrite IH, Hf. lia.
Qed.

Lemma length_filter_weight {B : Type} (P : B → Prop)
    `{!∀ b, Decision (P b)} (l : list B) :
  Z.of_nat (length (filter P l))
  = foldr (λ b s, (if decide (P b) then 1 else 0) + s) 0 l.
Proof.
  induction l as [|b l IH]; [done|].
  rewrite filter_cons. cbn [foldr]. rewrite <- IH.
  destruct (decide (P b)); cbn [length]; lia.
Qed.

(** Counting with two cases. *)
Lemma length_filter_cases {A : Type} (P Q R : A → Prop)
    `{!∀ x, Decision (P x)} `{!∀ x, Decision (Q x)} `{!∀ x, Decision (R x)}
    (l : list A) :
  (∀ x, x ∈ l → (P x ↔ Q x ∨ R x) ∧ ¬ (Q x ∧ R x)) →
  length (filter P l) = (length (filter Q l) + length (filter R l))%nat.
Proof.
  induction l as [|x l IH]; intros Hl; [done|].
  rewrite !filter_cons.
  destruct (Hl x (list_elem_of_here _ _)) as [HP HQR].
  assert (length (filter P l)
          = (length (filter Q l) + length (filter R l))%nat) as IH'
    by (apply IH; intros y Hy; apply Hl; by right).
  destruct (decide (P x)), (decide (Q x)), (decide (R x));
    cbn [length]; try lia; tauto.
Qed.

(** ** What a call keeps *)

(** The agent [ai'] has the board size of [ai] and at least its moves,
    mines and safe cells. *)
Definition extends (ai ai' : AI) : Prop :=
  height ai' = height ai ∧ width ai' = width ai
  ∧ moves_made ai ⊆ moves_made ai'
  ∧ mines ai ⊆ mines ai' ∧ safes ai ⊆ safes ai'.

#[global] Instance extends_refl : Reflexive extends.
Proof. intros ai. by repeat split. Qed.

#[global] Instance extends_trans : Transitive extends.
Proof.
  intros a b c (? & ? & ? & ? & ?) (? & ? & ? & ? & ?).
  repeat split; try congruence; by etrans.
Qed.

Lemma extends_mark_mine ai c : extends ai (mark_mine ai c).
Proof. repeat split; cbn; set_solver. Qed.

Lemma extends_mark_safe ai c : extends ai (mark_safe ai c).
Proof. repeat split; cbn; set_solver. Qed.

Lemma extends_set_knowledge ai kb : extends ai (set_knowledge ai kb).
Proof. by repeat split. Qed.

Lemma extends_mark_new_mines (l : list Cell) :
  ∀ st, extends st.1 (mark_new_mines st l).1.
Proof.
  unfold mark_new_mines.
  induction l as [|c l IH]; intros [ai ch]; [done|]. cbn [foldl].
  etrans; [|apply IH]. case_decide; [done|]. apply extends_mark_mine.
Qed.

Lemma extends_mark_new_safes (l : list Cell) :
  ∀ st, extends st.1 (mark_new_safes st l).1.
Proof.
  unfold mark_new_safes.
  induction l as [|c l IH]; intros [ai ch]; [done|]. cbn [foldl].
  etrans; [|apply IH]. case_decide; [done|]. apply extends_mark_safe.
Qed.

Lemma extends_deduce_step st k st' :
  deduce_step st k = Ok st' → extends st.1 st'.1.
Proof.
  unfold deduce_step.
  destruct (knowledge st.1 !! k) as [sentence|]; [|by intros [= <-]].
  case_decide; [by intros [= <-]|].
  intros (st1 & Hm & Hs)%bind_Ok.
  assert (extends st.1 st1.1) as H1.
  { destruct (Sentence.known_mines sentence); [|by injection Hm as <-].
    destruct (decide (_ ≠ ∅)) in Hm; [|done]. injection Hm as <-.
    apply extends_mark_new_mines. }
  etrans; [exact H1|].
  destruct (Sentence.known_safes sentence); [|by injection Hs as <-].
  destruct (decide (_ ≠ ∅)) in Hs; [|done]. injection Hs as <-.
  apply extends_mark_new_safes.
Qed.

Lemma extends_deduce st st' : deduce st = Ok st' → extends st.1 st'.1.
Proof.
  intros Hd.
  eapply (for_each_invariant (λ s, extends st.1 s.1)); [done | | exact Hd].
  intros s k s' _ Hs Hk. etrans; [exact Hs|]. by eapply extends_deduce_step.
Qed.

Lemma extends_closure_body fuel st st' :
  closure_body fuel st = Ok st' → extends st.1 st'.1.
Proof.
  unfold closure_body.
  intros (st1 & Hd & ([kb ch] & Hr & [= <-])%bind_Ok)%bind_Ok.
  etrans; [|apply extends_set_knowledge].
  destruct st.2; [|by injection Hd as <-].
  by apply (extends_deduce (st.1, false)).
Qed.

Lemma extends_closure fuel :
  ∀ st ai', closure fuel st = Ok ai' → extends st.1 ai'.
Proof.
  induction fuel as [|fuel IH]; intros st ai'; cbn;
    destruct st.2; try done; try (by intros [= <-]).
  intros (st' & Hb & Hc)%bind_Ok.
  etrans; [by eapply extends_closure_body | by eapply IH].
Qed.

Lemma extends_add_sentence ai cell count ai' :
  add_sentence ai cell count = Ok ai' →
  extends ai ai' ∧ cell ∈ moves_made ai' ∧ cell ∈ safes ai'.
Proof.
  unfold add_sentence. intros ([nc c] & _ & Hr)%bind_Ok.
  case_decide; injection Hr as <-; repeat split; cbn; set_solver.
Qed.

(** A call that returns keeps the board size, the moves made, the mines
    and the safe cells, and adds its cell to the moves and to the safe
    cells. *)
Lemma extends_add_knowledge fuel ai cell count ai' :
  add_knowledge fuel ai cell count = Ok ai' →
  extends ai ai' ∧ cell ∈ moves_made ai' ∧ cell ∈ safes ai'.
Proof.
  unfold add_knowledge. intros (ai1 & Ha & Hc)%bind_Ok.
  apply extends_add_sentence in Ha as (H1 & Hm & Hs).
  apply extends_closure in Hc. cbn [fst] in Hc.
  split; [by etrans|]. destruct Hc as (_ & _ & ? & _ & ?). auto.
Qed.

(** When the [while] loop returns, the empty sentence with count 0 is not
    in the knowledge base. *)
Lemma closure_no_empty fuel :
  ∀ st ai', closure fuel st = Ok ai' →
            st.2 = true ∨ empty ∉ knowledge st.1 →
            empty ∉ knowledge ai'.
Proof.
  induction fuel as [|fuel IH]; intros st ai'; cbn;
    destruct st.2 eqn:Hch; try done.
  - intros [= <-] [|]; done.
  - intros (st' & Hb & Hc)%bind_Ok _. eapply IH; [done|]. right.
    revert Hb. unfold closure_body.
    intros (st1 & _ & ([kb ch] & _ & [= <-])%bind_Ok)%bind_Ok. cbn.
    by intros [? _]%remove_empty_elem.
  - intros [= <-] [|]; done.
Qed.

Lemma add_knowledge_no_empty fuel ai cell count ai' :
  add_knowledge fuel ai cell count = Ok ai' → empty ∉ knowledge ai'.
Proof.
  unfold add_knowledge. intros (ai1 & _ & Hc)%bind_Ok.
  eapply closure_no_empty; [done | by left].
Qed.

(** ** A second call for the same cell *)

(** *** Cells that wait in a sentence *)

(** Every cell of a sentence is unmarked and inside the square of side
    [height], the bound of the neighbour loop on rows and on columns. *)
Definition pending (ai : AI) : Prop :=
  ∀ s c, s ∈ knowledge ai → c ∈ Sentence.cells s →
         c ∉ mines ai ∧ c ∉ safes ai
         ∧ (0 ≤ c.1 < height ai) ∧ (0 ≤ c.2 < height ai).

Lemma cells_mark_mine s c :
  Sentence.cells (Sentence.mark_mine s c) = Sentence.cells s ∖ {[ c ]}.
Proof. unfold Sentence.mark_mine. case_decide; cbn; set_solver. Qed.

Lemma cells_mark_safe s c :
  Sentence.cells (Sentence.mark_safe s c) = Sentence.cells s ∖ {[ c ]}.
Proof. unfold Sentence.mark_safe. case_decide; cbn; set_solver. Qed.

Lemma pending_init h w : pending (init h w).
Proof. by intros s c ?%elem_of_nil. Qed.

Lemma pending_mark_mine ai c : pending ai → pending (mark_mine ai c).
Proof.
  intros Hp s' x (s & -> & Hs)%list_elem_of_fmap.
  rewrite cells_mark_mine. intros [Hx Hxc]%elem_of_difference.
  destruct (Hp s x Hs Hx) as (? & ? & ? & ?). cbn. set_solver.
Qed.

Lemma pending_mark_safe ai c : pending ai → pending (mark_safe ai c).
Proof.
  intros Hp s' x (s & -> & Hs)%list_elem_of_fmap.
  rewrite cells_mark_safe. intros [Hx Hxc]%elem_of_difference.
  destruct (Hp s x Hs Hx) as (? & ? & ? & ?). cbn. set_solver.
Qed.

Lemma pending_set_knowledge ai kb :
  pending ai →
  (∀ s, s ∈ kb → Sentence.cells s ⊆ cells_of (knowledge ai)) →
  pending (set_knowledge ai kb).
Proof.
  intros Hp Hkb s c Hs Hc. cbn in *.
  pose proof (Hkb s Hs c Hc) as (s0 & Hs0 & Hc0)%elem_of_cells_of.
  by apply (Hp s0).
Qed.

(** *** The sentence of the neighbours, as it would be built now *)

Definition remaining (ai : AI) (cell : Cell) (count : Z) : Sentence :=
  Sentence.mk
    (list_to_set (filter (undetermined ai cell) (neighborhood cell)))
    (count - Z.of_nat (length (filter (accounted ai cell) (neighborhood cell)))).

Lemma neighbor_sentence_remaining ai cell count neighboring_cells count' :
  neighbor_sentence ai cell count = Ok (neighboring_cells, count') →
  Sentence.mk neighboring_cells count' = remaining ai cell count.
Proof. intros [-> ->]%neighbor_sentence_Ok. done. Qed.

Lemma length_filter_one {A : Type} `{EqDecision A} (R : A → Prop)
    `{!∀ x, Decision (R x)} (l : list A) (c : A) :
  NoDup l → (∀ x, R x → x = c) →
  length (filter R l) = if decide (c ∈ l ∧ R c) then 1%nat else 0%nat.
Proof.
  intros Hnd HR. induction Hnd as [|x l Hx Hnd IH].
  - rewrite decide_False; [done|]. by intros [?%elem_of_nil _].
  - rewrite filter_cons. destruct (decide (R x)) as [Hr|Hr].
    + pose proof (HR x Hr) as ->. cbn [length]. rewrite IH.
      rewrite decide_False by tauto.
      rewrite decide_True; [done|]. split; [by left|done].
    + rewrite IH. destruct (decide (c ∈ l ∧ R c)) as [[Hc HRc]|Hn].
      * rewrite decide_True; [done|]. split; [by right|done].
      * rewrite decide_False; [done|]. intros [Hc HRc]. apply Hn.
        split; [|done]. apply elem_of_cons in Hc as [->|]; done.
Qed.

Section Remaining.

Variables (ai : AI) (cell : Cell) (count : Z) (c : Cell).
Hypotheses (c_mines : c ∉ mines ai) (c_safes : c ∉ safes ai)
           (c_row : 0 ≤ c.1 < height ai) (c_column : 0 ≤ c.2 < height ai).

Lemma undetermined_mark_mine n :
  undetermined (mark_mine ai c) cell n ↔ undetermined ai cell n ∧ n ≠ c.
Proof. unfold undetermined. cbn. set_solver. Qed.

Lemma undetermined_mark_safe n :
  undetermined (mark_safe ai c) cell n ↔ undetermined ai cell n ∧ n ≠ c.
Proof. unfold undetermined. cbn. set_solver. Qed.

Lemma accounted_mark_mine n :
  accounted (mark_mine ai c) cell n
  ↔ accounted ai cell n ∨ (n = c ∧ n ≠ cell).
Proof.
  unfold accounted. cbn. rewrite elem_of_union, elem_of_singleton.
  split; [tauto|]. intros [?|[-> ?]]; tauto.
Qed.

Lemma accounted_mark_safe n :
  accounted (mark_safe ai c) cell n ↔ accounted ai cell n.
Proof.
  unfold accounted. cbn. rewrite not_elem_of_union, elem_of_singleton.
  split; [tauto|]. intros (? & ? & ?). repeat split; try done. by intros ->.
Qed.

Lemma cells_remaining_mark (ai' : AI) :
  (∀ n, undetermined ai' cell n ↔ undetermined ai cell n ∧ n ≠ c) →
  Sentence.cells (remaining ai' cell count)
  = Sentence.cells (remaining ai cell count) ∖ {[ c ]}.
Proof.
  intros Hu. unfold remaining. cbn [Sentence.cells]. apply set_eq. intros n.
  rewrite elem_of_difference, !elem_of_list_to_set, !list_elem_of_filter,
    elem_of_singleton, Hu. tauto.
Qed.

Lemma elem_of_remaining :
  c ∈ Sentence.cells (remaining ai cell count)
  ↔ c ∈ neighborhood cell ∧ c ≠ cell.
Proof.
  unfold remaining. cbn [Sentence.cells].
  rewrite elem_of_list_to_set, list_elem_of_filter.
  unfold undetermined. tauto.
Qed.

(** Marking an unmarked cell of the square changes the sentence of the
    neighbours as it changes a sentence of the knowledge base. *)
Lemma remaining_mark_mine :
  remaining (mark_mine ai c) cell count
  = Sentence.mark_mine (remaining ai cell count) c.
Proof.
  assert (length (filter (accounted (mark_mine ai c) cell) (neighborhood cell))
          = (length (filter (accounted ai cell) (neighborhood cell))
             + if decide (c ∈ neighborhood cell ∧ c ≠ cell) then 1 else 0)%nat)
    as Hlen.
  { rewrite (length_filter_cases _ (accounted ai cell)
               (λ n, n = c ∧ n ≠ cell)).
    - f_equal. rewrite (length_filter_one _ _ c (NoDup_neighborhood cell));
        [|tauto]. repeat case_decide; tauto.
    - intros n _. split; [apply accounted_mark_mine|].
      intros [(_ & _ & Hm) [-> _]]. done. }
  unfold Sentence.mark_mine.
  destruct (decide (c ∈ Sentence.cells (remaining ai cell count))) as [Hc|Hc].
  - pose proof Hc as Hc'%elem_of_remaining.
    rewrite decide_True in Hlen by done.
    unfold remaining at 1. f_equal.
    + apply (cells_remaining_mark (mark_mine ai c)), undetermined_mark_mine.
    + rewrite Hlen. cbn. lia.
  - assert (¬ (c ∈ neighborhood cell ∧ c ≠ cell)) as Hc'
      by (by rewrite <- elem_of_remaining).
    rewrite decide_False in Hlen by done.
    pose proof (cells_remaining_mark (mark_mine ai c) undetermined_mark_mine)
      as He.
    unfold remaining in *. cbn [Sentence.cells] in *. f_equal.
    + rewrite He. set_solver.
    + rewrite Hlen. lia.
Qed.

Lemma remaining_mark_safe :
  remaining (mark_safe ai c) cell count
  = Sentence.mark_safe (remaining ai cell count) c.
Proof.
  assert (filter (accounted (mark_safe ai c) cell) (neighborhood cell)
          = filter (accounted ai cell) (neighborhood cell)) as Hlen
    by apply list_filter_iff, accounted_mark_safe.
  pose proof (cells_remaining_mark (mark_safe ai c) undetermined_mark_safe)
    as He.
  unfold Sentence.mark_safe.
  destruct (decide (c ∈ Sentence.cells (remaining ai cell count))) as [Hc|Hc].
  - unfold remaining at 1. f_equal; [exact He | by rewrite Hlen].
  - unfold remaining in *. cbn [Sentence.cells] in *. f_equal.
    + rewrite He. set_solver.
    + by rewrite Hlen.
Qed.

End Remaining.

(** *** What the call keeps of its sentence *)

(** The sentence of the neighbours is in the knowledge base for as long
    as it has cells. *)
Definition tracked (ai : AI) (cell : Cell) (count : Z) : Prop :=
  Sentence.cells (remaining ai cell count) ≠ ∅ →
  remaining ai cell count ∈ knowledge ai.

Definition kept (ai : AI) (cell : Cell) (count : Z) : Prop :=
  pending ai ∧ tracked ai cell count.

Section Kept.

Variables (cell : Cell) (count : Z).

Lemma remaining_set_knowledge ai kb :
  remaining (set_knowledge ai kb) cell count = remaining ai cell count.
Proof. done. Qed.

Lemma kept_mark_mine ai c :
  c ∉ mines ai → c ∉ safes ai →
  0 ≤ c.1 < height ai → 0 ≤ c.2 < height ai →
  kept ai cell count → kept (mark_mine ai c) cell count.
Proof.
  intros ? ? ? ? [Hp Ht]. split; [by apply pending_mark_mine|].
  unfold tracked. rewrite remaining_mark_mine, cells_mark_mine by done.
  intros Hne. apply (list_elem_of_fmap_2 (λ s, Sentence.mark_mine s c)).
  apply Ht. set_solver.
Qed.

Lemma kept_mark_safe ai c :
  c ∉ mines ai → c ∉ safes ai →
  0 ≤ c.1 < height ai → 0 ≤ c.2 < height ai →
  kept ai cell count → kept (mark_safe ai c) cell count.
Proof.
  intros ? ? ? ? [Hp Ht]. split; [by apply pending_mark_safe|].
  unfold tracked. rewrite remaining_mark_safe, cells_mark_safe by done.
  intros Hne. apply (list_elem_of_fmap_2 (λ s, Sentence.mark_safe s c)).
  apply Ht. set_solver.
Qed.

(** The cells of a list are unmarked and in the square. *)
Definition unmarked (ai : AI) (l : list Cell) : Prop :=
  ∀ c, c ∈ l → c ∉ mines ai ∧ c ∉ safes ai
               ∧ (0 ≤ c.1 < height ai) ∧ (0 ≤ c.2 < height ai).

Lemma kept_mark_new_mines (l : list Cell) :
  NoDup l →
  ∀ st, kept st.1 cell count → unmarked st.1 l →
        kept (mark_new_mines st l).1 cell count.
Proof.
  unfold mark_new_mines.
  induction 1 as [|c l Hc Hnd IH]; intros [ai ch] Hk Hl; [done|].
  cbn [foldl]. destruct (Hl c (list_elem_of_here _ _)) as (? & ? & ? & ?).
  rewrite decide_False by done. apply IH; cbn [fst].
  - by apply kept_mark_mine.
  - intros x Hx. destruct (Hl x (list_elem_of_further _ _ _ Hx))
      as (Hm & Hrest). cbn. split; [|exact Hrest].
    rewrite not_elem_of_union, elem_of_singleton. split; [|done].
    by intros ->.
Qed.

Lemma kept_mark_new_safes (l : list Cell) :
  NoDup l →
  ∀ st, kept st.1 cell count → unmarked st.1 l →
        kept (mark_new_safes st l).1 cell count.
Proof.
  unfold mark_new_safes.
  induction 1 as [|c l Hc Hnd IH]; intros [ai ch] Hk Hl; [done|].
  cbn [foldl]. destruct (Hl c (list_elem_of_here _ _)) as (? & ? & ? & ?).
  rewrite decide_False by done. apply IH; cbn [fst].
  - by apply kept_mark_safe.
  - intros x Hx. destruct (Hl x (list_elem_of_further _ _ _ Hx))
      as (Hm & Hs & Hrest). cbn. split; [done|]. split; [|exact Hrest].
    rewrite not_elem_of_union, elem_of_singleton. split; [|done].
    by intros ->.
Qed.

Lemma pending_unmarked ai s :
  pending ai → s ∈ knowledge ai → unmarked ai (elements (Sentence.cells s)).
Proof. intros Hp Hs c Hc%elem_of_elements. by apply (Hp s). Qed.

Lemma kept_deduce_step st k st' :
  deduce_step st k = Ok st' → kept st.1 cell count → kept st'.1 cell count.
Proof.
  unfold deduce_step.
  destruct (knowledge st.1 !! k) as [sentence|] eqn:Hk; [|by intros [= <-]].
  case_decide; [by intros [= <-]|].
  intros (st1 & Hm & Hs)%bind_Ok Hkept.
  assert (kept st1.1 cell count) as Hkept1.
  { destruct (Sentence.known_mines sentence) as [nm|] eqn:Hnm;
      [|by injection Hm as <-].
    apply known_mines_Some in Hnm as [_ ->].
    destruct (decide (_ ≠ ∅)) in Hm; [|done]. injection Hm as <-.
    apply kept_mark_new_mines; [apply NoDup_elements | done |].
    apply pending_unmarked; [apply Hkept | by eapply list_elem_of_lookup_2]. }
  destruct (Sentence.known_safes sentence); [|by injection Hs as <-].
  destruct (decide (_ ≠ ∅)) as [Hne|] in Hs; [|done]. injection Hs as <-.
  apply kept_mark_new_safes; [apply NoDup_elements | done |].
  destruct (knowledge st1.1 !! k) as [s'|] eqn:Hk'; [|done]. cbn.
  apply pending_unmarked; [apply Hkept1 | by eapply list_elem_of_lookup_2].
Qed.

Lemma kept_deduce st st' :
  deduce st = Ok st' → kept st.1 cell count → kept st'.1 cell count.
Proof.
  intros Hd Hk.
  eapply (for_each_invariant (λ s, kept s.1 cell count)); [done | | exact Hd].
  intros s k s' _ Hs Hstep. by eapply kept_deduce_step.
Qed.

Lemma kept_closure_body fuel st st' :
  closure_body fuel st = Ok st' → kept st.1 cell count → kept st'.1 cell count.
Proof.
  unfold closure_body.
  intros (st1 & Hd & ([kb ch] & Hr & [= <-])%bind_Ok)%bind_Ok Hk.
  assert (kept st1.1 cell count) as [Hp Ht].
  { destruct st.2; [|by injection Hd as <-].
    by apply (kept_deduce (st.1, false)). }
  pose proof (resolve_outer_Ok (cells_of (knowledge st1.1)) _ _
                (cells_of_elem _) _ _ Hr) as Hinv.
  apply resolve_outer_closed in Hr as (app & -> & _).
  cbn [fst]. split.
  - apply pending_set_knowledge; [done|].
    intros s [_ Hs]%remove_empty_elem.
    by apply (outer_inv_cells _ _ _ (cells_of_elem _) _ _ _ Hinv).
  - unfold tracked. rewrite remaining_set_knowledge. intros Hne.
    cbn [knowledge set_knowledge]. apply remove_empty_elem. split.
    + intros He. by rewrite He in Hne.
    + apply elem_of_app. left. by apply Ht.
Qed.

Lemma kept_closure fuel :
  ∀ st ai', closure fuel st = Ok ai' → kept st.1 cell count →
            kept ai' cell count.
Proof.
  induction fuel as [|fuel IH]; intros st ai'; cbn;
    destruct st.2; try done; try (by intros [= <-]).
  intros (st' & Hb & Hc)%bind_Ok Hk.
  eapply IH; [done|]. by eapply kept_closure_body.
Qed.

Lemma pending_add_moves_made ai c : pending ai → pending (add_moves_made ai c).
Proof. done. Qed.

Lemma kept_add_sentence ai ai' :
  add_sentence ai cell count = Ok ai' → pending ai → kept ai' cell count.
Proof.
  unfold add_sentence. intros ([nc c] & Hn & Hr)%bind_Ok Hp.
  set (a := mark_safe (add_moves_made ai cell) cell) in *.
  assert (pending a) as Hpa
    by (by apply pending_mark_safe, pending_add_moves_made).
  pose proof (neighbor_sentence_remaining _ _ _ _ _ Hn) as Hrem.
  case_decide as Hne; injection Hr as <-.
  - split.
    + intros s x [Hs| ->%list_elem_of_singleton]%elem_of_app;
        [by apply Hpa|].
      apply neighbor_sentence_Ok in Hn as [-> _]. cbn [Sentence.cells].
      rewrite elem_of_list_to_set, list_elem_of_filter.
      unfold undetermined. tauto.
    + intros _. rewrite remaining_set_knowledge, <- Hrem.
      cbn [knowledge set_knowledge]. apply elem_of_app. right.
      by apply list_elem_of_singleton.
  - split; [done|]. intros Hc. rewrite <- Hrem in Hc. cbn in Hc.
    by destruct Hne.
Qed.

(** A call that returns leaves the cells of the sentences unmarked and, if
    a neighbour is left unmarked, the sentence of the neighbours in the
    knowledge base. *)
Lemma kept_add_knowledge fuel ai ai' :
  add_knowledge fuel ai cell count = Ok ai' → pending ai →
  kept ai' cell count.
Proof.
  unfold add_knowledge. intros (ai1 & Ha & Hc)%bind_Ok Hp.
  eapply kept_closure; [done|]. by eapply kept_add_sentence.
Qed.

End Kept.

(** *** The knowledge base when the call returns *)

(** Nothing is left to mark and nothing to derive, and the empty sentence
    with count 0 is gone. *)
Definition saturated (kb : list Sentence) : Prop :=
  (∀ s, s ∈ kb → inert s)
  ∧ (∀ s1 s2, s1 ∈ kb → s2 ∈ kb → resolvable s1 s2 → candidate s1 s2 ∈ kb)
  ∧ empty ∉ kb.

Lemma mark_new_mines_flag (st : AI * bool) (l : list Cell) :
  st.2 = true → (mark_new_mines st l).2 = true.
Proof.
  unfold mark_new_mines. revert st.
  induction l as [|c l IH]; intros [ai ch] Hch; [done|]. cbn [foldl].
  apply IH. by case_decide.
Qed.

Lemma mark_new_safes_flag (st : AI * bool) (l : list Cell) :
  st.2 = true → (mark_new_safes st l).2 = true.
Proof.
  unfold mark_new_safes. revert st.
  induction l as [|c l IH]; intros [ai ch] Hch; [done|]. cbn [foldl].
  apply IH. by case_decide.
Qed.

(** A sentence with unmarked cells sets the flag when it tells something. *)
Lemma mark_new_mines_changed (st : AI * bool) (X : gset Cell) :
  X ≠ ∅ → X ## mines st.1 → (mark_new_mines st (elements X)).2 = true.
Proof.
  destruct st as [ai ch]. intros Hne Hdisj.
  rewrite mark_new_mines_set by apply NoDup_elements. cbn [fst snd].
  rewrite list_to_set_elements_L, bool_decide_true; [apply orb_true_r|].
  set_solver.
Qed.

Lemma mark_new_safes_changed (st : AI * bool) (X : gset Cell) :
  X ≠ ∅ → X ## safes st.1 → (mark_new_safes st (elements X)).2 = true.
Proof.
  destruct st as [ai ch]. intros Hne Hdisj.
  rewrite mark_new_safes_set by apply NoDup_elements. cbn [fst snd].
  rewrite list_to_set_elements_L, bool_decide_true; [apply orb_true_r|].
  set_solver.
Qed.

Lemma deduce_step_flag st k st' :
  deduce_step st k = Ok st' → st.2 = true → st'.2 = true.
Proof.
  unfold deduce_step.
  destruct (knowledge st.1 !! k) as [sentence|]; [|by intros [= <-]].
  case_decide; [by intros [= <-]|].
  intros (st1 & Hm & Hs)%bind_Ok Hch.
  assert (st1.2 = true) as Hch1.
  { destruct (Sentence.known_mines sentence); [|by injection Hm as <-].
    destruct (decide (_ ≠ ∅)) in Hm; [|done]. injection Hm as <-.
    by apply mark_new_mines_flag. }
  destruct (Sentence.known_safes sentence); [|by injection Hs as <-].
  destruct (decide (_ ≠ ∅)) in Hs; [|done]. injection Hs as <-.
  by apply mark_new_safes_flag.
Qed.

(** A step of the first loop that leaves the flag down has met a sentence
    that tells nothing, and changes nothing. *)
Lemma deduce_step_unchanged st k st' :
  pending st.1 → deduce_step st k = Ok st' → st'.2 = false →
  st' = st ∧ ∀ s, knowledge st.1 !! k = Some s → inert s.
Proof.
  intros Hp. unfold deduce_step.
  destruct (knowledge st.1 !! k) as [sentence|] eqn:Hk;
    [|by intros [= <-]].
  case_decide as Hne;
    [intros [= <-] _; split; [done|]; intros s [= <-]; by left|].
  assert (Sentence.cells sentence ## mines st.1
          ∧ Sentence.cells sentence ## safes st.1) as [Hdm Hds].
  { apply list_elem_of_lookup_2 in Hk.
    split; intros c Hc ?; destruct (Hp sentence c Hk Hc) as (? & ? & _);
      done. }
  destruct (Sentence.known_mines sentence) as [nm|] eqn:Hnm.
  { apply known_mines_Some in Hnm as [_ ->]. rewrite decide_True by done.
    cbn. intros Hs Hch. exfalso.
    pose proof (mark_new_mines_changed st _ Hne Hdm) as Hflag.
    destruct (Sentence.known_safes sentence).
    - destruct (decide (_ ≠ ∅)) in Hs; [|done]. injection Hs as <-.
      rewrite mark_new_safes_flag in Hch; done.
    - injection Hs as <-. congruence. }
  cbn. rewrite Hk. cbn.
  destruct (Sentence.known_safes sentence) as [ns|] eqn:Hns.
  { rewrite decide_True by done. intros [= <-] Hch. exfalso.
    rewrite mark_new_safes_changed in Hch; done. }
  intros [= <-] _. split; [done|]. intros s [= <-]. by right.
Qed.

Lemma deduce_loop_unchanged (l : list nat) :
  ∀ st st',
    pending st.1 → for_each deduce_step l st = Ok st' → st'.2 = false →
    st' = st ∧ ∀ k s, k ∈ l → knowledge st.1 !! k = Some s → inert s.
Proof.
  induction l as [|k l IH]; intros st st' Hp; cbn [for_each].
  - intros [= <-] _. split; [done|]. by intros k s ?%elem_of_nil.
  - intros (st1 & Hstep & Hrest)%bind_Ok Hch.
    assert (st1.2 = false) as Hch1.
    { destruct st1.2 eqn:H1; [|done].
      rewrite <- Hch. symmetry.
      apply (for_each_invariant (λ s, s.2 = true) deduce_step l st1 st');
        [done | | done].
      intros s x s' _ Hs Hx. by eapply deduce_step_flag. }
    destruct (deduce_step_unchanged st k st1 Hp Hstep Hch1) as [-> Hk].
    destruct (IH st st' Hp Hrest Hch) as [-> Hl].
    split; [done|]. intros k' s [->|Hk']%elem_of_cons; [apply Hk | by apply Hl].
Qed.

Lemma deduce_unchanged ai st' :
  pending ai → deduce (ai, false) = Ok st' → st'.2 = false →
  st' = (ai, false) ∧ ∀ s, s ∈ knowledge ai → inert s.
Proof.
  intros Hp Hd Hch.
  destruct (deduce_loop_unchanged _ (ai, false) st' Hp Hd Hch) as [-> Hl].
  split; [done|]. intros s [k Hk]%list_elem_of_lookup_1.
  apply (Hl k); [|done]. apply elem_of_seq.
  apply lookup_lt_Some in Hk. cbn in *. lia.
Qed.

Lemma candidate_not_empty s1 s2 : resolvable s1 s2 → candidate s1 s2 ≠ empty.
Proof.
  intros Hr He.
  apply (candidate_empty_count s1 s2 Hr); by rewrite He.
Qed.

Lemma saturated_remove_empty kb :
  (∀ s, s ∈ kb → inert s) →
  (∀ s1 s2, s1 ∈ kb → s2 ∈ kb → resolvable s1 s2 → candidate s1 s2 ∈ kb) →
  saturated (remove_empty kb).
Proof.
  intros Hi Hc. split; [|split].
  - intros s [_ Hs]%remove_empty_elem. by apply Hi.
  - intros s1 s2 [_ H1]%remove_empty_elem [_ H2]%remove_empty_elem Hr.
    apply remove_empty_elem. split; [by apply candidate_not_empty|].
    by apply Hc.
  - by intros [? _]%remove_empty_elem.
Qed.

(** The last run of the body of the [while] loop. *)
Lemma closure_body_saturated fuel ai ai' :
  closure_body fuel (ai, true) = Ok (ai', false) → pending ai →
  saturated (knowledge ai').
Proof.
  intros (st1 & kb & ch & Hd & Hr & [= -> <-])%closure_body_Ok Hp.
  apply resolve_outer_closed in Hr as (app & -> & _ & _ & Hcl & Hch).
  symmetry in Hch. apply orb_false_iff in Hch as [Hch1 Happ].
  apply bool_decide_eq_false in Happ. apply dec_stable in Happ as ->.
  destruct (deduce_unchanged ai st1 Hp Hd Hch1) as [-> Hi].
  cbn [fst knowledge set_knowledge] in *. rewrite app_nil_r in *.
  by apply saturated_remove_empty.
Qed.

Lemma closure_saturated (cell : Cell) (count : Z) (fuel : nat) :
  ∀ st ai', closure fuel st = Ok ai' → st.2 = true → kept st.1 cell count →
            saturated (knowledge ai').
Proof.
  induction fuel as [|fuel IH]; intros [ai ch] ai'; cbn [closure fst snd];
    intros Hc ->; [done|]. intros Hk.
  apply bind_Ok in Hc as ([ai1 ch1] & Hb & Hc).
  pose proof (kept_closure_body cell count _ _ _ Hb Hk) as Hk1.
  destruct ch1.
  - by apply (IH (ai1, true) ai').
  - assert (ai' = ai1) as -> by (destruct fuel; cbn in Hc; congruence).
    eapply closure_body_saturated; [done | apply Hk].
Qed.

Lemma add_knowledge_saturated fuel ai cell count ai' :
  add_knowledge fuel ai cell count = Ok ai' → pending ai →
  saturated (knowledge ai').
Proof.
  unfold add_knowledge. intros (ai1 & Ha & Hc)%bind_Ok Hp.
  eapply (closure_saturated cell count); [done | done |].
  by eapply kept_add_sentence.
Qed.

(** *** The second call *)

Lemma remove_empty_id kb : empty ∉ kb → remove_empty kb = kb.
Proof.
  induction kb as [|x kb IH]; intros He; [done|].
  unfold remove_empty in *. rewrite filter_cons_True.
  - f_equal. apply IH. intros H. apply He. by right.
  - intros ->. apply He. by left.
Qed.

Lemma set_knowledge_id ai : set_knowledge ai (knowledge ai) = ai.
Proof. by destruct ai. Qed.

(** On a knowledge base with nothing to mark and nothing to derive the
    [while] loop runs its body once and changes nothing. *)
Lemma closure_saturated_id fuel ai :
  saturated (knowledge ai) → (2 * length (knowledge ai) + 1 < fuel)%nat →
  closure fuel (ai, true) = Ok ai.
Proof.
  intros (Hi & Hc & He) Hf. destruct fuel as [|fuel]; [lia|].
  rewrite closure_S. cbn [snd]. unfold closure_body. cbn [fst snd].
  rewrite deduce_inert by done. cbn [mbind result_bind fst snd].
  rewrite resolve_outer_closed_id; [|done|cbn [fst]; lia].
  cbn [mbind result_bind fst snd].
  rewrite remove_empty_id, set_knowledge_id by done.
  by destruct fuel.
Qed.

Lemma saturated_again kb s : saturated kb → s ∈ kb → saturated (kb ++ [s]).
Proof.
  intros (Hi & Hc & He) Hs.
  assert (∀ x, x ∈ kb ++ [s] ↔ x ∈ kb) as Hin.
  { intros x. rewrite elem_of_app, list_elem_of_singleton.
    split; [intros [?| ->]; done | tauto]. }
  split; [|split].
  - intros x Hx%Hin. by apply Hi.
  - intros s1 s2 H1%Hin H2%Hin Hr. apply Hin. by apply Hc.
  - by intros ?%Hin.
Qed.

Lemma add_moves_made_id ai cell :
  cell ∈ moves_made ai → add_moves_made ai cell = ai.
Proof.
  intros Hc. destruct ai as [h w mm ms sf kb]. unfold add_moves_made.
  cbn in *. f_equal. set_solver.
Qed.

Lemma mark_safe_id ai cell :
  pending ai → cell ∈ safes ai → mark_safe ai cell = ai.
Proof.
  intros Hp Hc. destruct ai as [h w mm ms sf kb]. unfold mark_safe.
  cbn in *. f_equal; [set_solver|].
  rewrite <- (list_fmap_id kb) at 2. apply list_fmap_ext.
  intros i s Hs%list_elem_of_lookup_2. unfold Sentence.mark_safe.
  rewrite decide_False; [done|]. intros Hin.
  destruct (Hp s cell Hs Hin) as (_ & ? & _). done.
Qed.

(** Every step of a loop that returns has returned. *)
Lemma for_each_steps {A S : Type} (f : S → A → result S) (l : list A) :
  ∀ s r x, for_each f l s = Ok r → x ∈ l → ∃ s1 s2, f s1 x = Ok s2.
Proof.
  induction l as [|y l IH]; intros s r x; cbn [for_each];
    [by intros _ ?%elem_of_nil|].
  intros (s' & Hy & Hl)%bind_Ok [->|Hx]%elem_of_cons; [eauto|].
  by eapply IH.
Qed.

(** The loop over the neighbours returns when no neighbour it keeps has
    the index 8. *)
Lemma neighbor_sentence_returns ai cell count :
  (∃ r, neighbor_sentence ai cell count = Ok r)
  ↔ ∀ n, n ∈ neighborhood cell → undetermined ai cell n → n.1 ≠ 8 ∧ n.2 ≠ 8.
Proof.
  split.
  - intros [r Hr] n Hn Hu.
    destruct (for_each_steps _ _ _ _ n Hr Hn) as ([nc c] & s2 & Hs).
    revert Hs. unfold neighbor_step, undetermined in *.
    repeat case_decide; try done; tauto.
  - intros H.
    destruct (for_each_total (λ _, True) (neighbor_step ai cell)
                (neighborhood cell) (∅, count)) as (r & Hr & _);
      [done | | by exists r].
    intros [nc c] n Hn _. specialize (H n Hn).
    unfold neighbor_step, undetermined in *.
    repeat case_decide; eauto; tauto.
Qed.

Lemma add_sentence_again ai cell count :
  pending ai → cell ∈ moves_made ai → cell ∈ safes ai →
  ∀ nc c, neighbor_sentence ai cell count = Ok (nc, c) →
  add_sentence ai cell count
  = Ok (if decide (nc ≠ ∅)
        then set_knowledge ai (knowledge ai ++ [Sentence.mk nc c])
        else ai).
Proof.
  intros Hp Hm Hs nc c Hn. unfold add_sentence.
  rewrite (add_moves_made_id ai cell Hm), (mark_safe_id ai cell Hp Hs), Hn.
  cbn. by case_decide.
Qed.

(** A call that has returned, made again: it returns, with the same moves,
    mines and safe cells; if the cell has a neighbour left that the loop
    keeps, the sentence built is in the knowledge base already and is
    appended to it a second time; if not, the knowledge base is left as it
    is. *)
Lemma add_knowledge_again fuel ai cell count ai1 :
  pending ai → add_knowledge fuel ai cell count = Ok ai1 →
  pending ai1 ∧
  ∃ (fuel' : nat) (nc : gset Cell) (c : Z),
    neighbor_sentence ai1 cell count = Ok (nc, c)
    ∧ (nc ≠ ∅ → Sentence.mk nc c ∈ knowledge ai1)
    ∧ ∀ more : nat,
        add_knowledge (fuel' + more) ai1 cell count
        = Ok (if decide (nc ≠ ∅)
              then set_knowledge ai1 (knowledge ai1 ++ [Sentence.mk nc c])
              else ai1).
Proof.
  intros Hp Hcall.
  destruct (kept_add_knowledge _ _ _ _ _ Hcall Hp) as [Hp1 Ht].
  pose proof (add_knowledge_saturated _ _ _ _ _ Hcall Hp) as Hsat.
  split; [done|].
  unfold add_knowledge in Hcall.
  apply bind_Ok in Hcall as (a & Ha & Hc).
  pose proof (extends_add_sentence _ _ _ _ Ha) as (_ & Hmoves & Hsafes).
  pose proof (extends_closure _ _ _ Hc) as Hext. cbn [fst] in Hext.
  assert (∃ r, neighbor_sentence ai1 cell count = Ok r) as [[nc c] Hn].
  { apply neighbor_sentence_returns. intros n Hn Hu.
    revert Ha. unfold add_sentence.
    intros ([nc0 c0] & Hn0 & Hr)%bind_Ok.
    assert (∃ r, neighbor_sentence
                   (mark_safe (add_moves_made ai cell) cell) cell count = Ok r)
      as Hret by eauto.
    rewrite neighbor_sentence_returns in Hret. apply (Hret n Hn).
    assert (extends (mark_safe (add_moves_made ai cell) cell) ai1)
      as (Hh & _ & _ & Hmi & Hsa).
    { etrans; [|exact Hext].
      case_decide; injection Hr as <-; [apply extends_set_knowledge | done]. }
    unfold undetermined in *. rewrite <- Hh. set_solver. }
  destruct Hext as (_ & _ & Hmm & _ & Hsf).
  assert (nc ≠ ∅ → Sentence.mk nc c ∈ knowledge ai1) as Hin.
  { intros Hne. rewrite (neighbor_sentence_remaining _ _ _ _ _ Hn).
    apply Ht. by rewrite <- (neighbor_sentence_remaining _ _ _ _ _ Hn). }
  exists (2 * length (knowledge ai1) + 4)%nat, nc, c.
  split; [done|]. split; [done|]. intros more. unfold add_knowledge.
  rewrite (add_sentence_again ai1 cell count Hp1) with (nc := nc) (c := c);
    [|set_solver..|done].
  cbn [mbind result_bind]. case_decide as Hne.
  - apply closure_saturated_id; cbn [knowledge set_knowledge].
    + apply saturated_again; [done | by apply Hin].
    + rewrite List.length_app. cbn [length]. lia.
  - apply closure_saturated_id; [done | lia].
Qed.

(** C6 fails on the code.  In a state where no sentence holds a marked
    cell (the state of a new agent is one, and a call that returns keeps
    the property), a call that has returned and is made again with the
    same cell and count returns, with the moves, the mines and the safe
    cells of the first call: this half of the claim holds.  But the second
    call builds the sentence of the neighbours without looking for an
    equal one: when the cell has a neighbour left that the loop keeps, the
    sentence built is in the knowledge base already, and the call leaves it
    there twice; only when no such neighbour is left is the knowledge base
    unchanged.  On the agent of a board of 8 rows and 8 columns, the second
    call for the cell (0, 0) with the count 1 ends with two equal
    sentences. *)
Theorem second_call_duplicates :
  (∀ h w : Z, pending (init h w))
  ∧ (∀ (fuel : nat) (ai : AI) (cell : Cell) (count : Z) (ai1 : AI),
       pending ai → add_knowledge fuel ai cell count = Ok ai1 →
       pending ai1 ∧
       ∃ (fuel' : nat) (nc : gset Cell) (c : Z) (ai2 : AI),
         neighbor_sentence ai1 cell count = Ok (nc, c)
         ∧ (∀ more : nat,
              add_knowledge (fuel' + more) ai1 cell count = Ok ai2)
         ∧ moves_made ai2 = moves_made ai1
         ∧ mines ai2 = mines ai1 ∧ safes ai2 = safes ai1
         ∧ (nc = ∅ → knowledge ai2 = knowledge ai1)
         ∧ (nc ≠ ∅ →
            Sentence.mk nc c ∈ knowledge ai1
            ∧ knowledge ai2 = knowledge ai1 ++ [Sentence.mk nc c]))
  ∧ (∃ ai1 ai2 : AI,
       add_knowledge 20 (init 8 8) (0, 0) 1 = Ok ai1 ∧
       add_knowledge 20 ai1 (0, 0) 1 = Ok ai2 ∧
       knowledge ai1 = [Sentence.mk {[ (0, 1); (1, 0); (1, 1) ]} 1] ∧
       knowledge ai2 = [Sentence.mk {[ (0, 1); (1, 0); (1, 1) ]} 1;
                        Sentence.mk {[ (0, 1); (1, 0); (1, 1) ]} 1] ∧
       mines ai2 = mines ai1 ∧ safes ai2 = safes ai1).
Proof.
  split; [apply pending_init|]. split.
  - intros fuel ai cell count ai1 Hp Hcall.
    destruct (add_knowledge_again fuel ai cell count ai1 Hp Hcall)
      as (Hp1 & fuel' & nc & c & Hn & Hin & Hagain).
    split; [done|]. exists fuel', nc, c.
    destruct (decide (nc ≠ ∅)) as [Hne|He].
    + exists (set_knowledge ai1 (knowledge ai1 ++ [Sentence.mk nc c])).
      split; [done|]. split.
      { intros more. by rewrite Hagain. }
      repeat (split; [done|]). by split; [auto|].
    + exists ai1. split; [done|]. split.
      { intros more. by rewrite Hagain. }
      by repeat (split; [done|]).
  - exists after_first_call.
    exists (mk 8 8 {[ (0, 0) ]} ∅ {[ (0, 0) ]}
              [Sentence.mk {[ (0, 1); (1, 0); (1, 1) ]} 1;
               Sentence.mk {[ (0, 1); (1, 0); (1, 1) ]} 1]).
    split; [vm_compute; reflexivity|].
    split; [vm_compute; reflexivity|].
    done.
Qed.

Lemma second_call_duplicates_witness :
  pending (init 8 8)
  ∧ add_knowledge 20 (init 8 8) (0, 0) 1 = Ok after_first_call
  ∧ pending after_first_call
  ∧ ∃ (fuel' : nat) (nc : gset Cell) (c : Z) (ai2 : AI),
      neighbor_sentence after_first_call (0, 0) 1 = Ok (nc, c)
      ∧ (∀ more : nat,
           add_knowledge (fuel' + more) after_first_call (0, 0) 1 = Ok ai2)
      ∧ moves_made ai2 = moves_made after_first_call
      ∧ mines ai2 = mines after_first_call
      ∧ safes ai2 = safes after_first_call
      ∧ (nc = ∅ → knowledge ai2 = knowledge after_first_call)
      ∧ (nc ≠ ∅ →
         Sentence.mk nc c ∈ knowledge after_first_call
         ∧ knowledge ai2 = knowledge after_first_call ++ [Sentence.mk nc c]).
Proof.
  destruct second_call_duplicates as (Hinit & Hagain & _).
  split; [apply Hinit|]. split; [vm_compute; reflexivity|].
  apply (Hagain 20%nat (init 8 8) (0, 0) 1 after_first_call);
    [apply Hinit | vm_compute; reflexivity].
Defined.

(** ** Sentences that are true of a board *)

Section Soundness.

(** The board the agent plays on. *)
Variable g : Minesweeper.t.

Definition on_board (c : Cell) : Prop :=
  (0 ≤ c.1 < Minesweeper.height g) ∧ (0 ≤ c.2 < Minesweeper.width g).

(** The cells of the board that hold a mine. *)
Definition real_mine (c : Cell) : Prop :=
  on_board c ∧ Minesweeper.is_mine g c = true.

#[local] Instance real_mine_dec c : Decision (real_mine c).
Proof. unfold real_mine, on_board. apply _. Defined.

(** [nearby_mines] counts the neighbours that hold a mine. *)
Lemma nearby_mines_count (cell : Cell) :
  Minesweeper.nearby_mines g cell
  = Z.of_nat (length (filter (λ n, n ≠ cell ∧ real_mine n)
                             (neighborhood cell))).
Proof.
  set (w := λ n : Cell, if decide (n ≠ cell ∧ real_mine n) then 1 else 0).
  assert (∀ (count : Z) (n : Cell),
            (if decide (n = cell) then count
             else if decide ((0 ≤ n.1 < Minesweeper.height g)
                             ∧ (0 ≤ n.2 < Minesweeper.width g)) then
               if Minesweeper.board_at g n.1 n.2 then count + 1 else count
             else count) = count + w n) as Hstep.
  { intros count n. unfold w.
    destruct (decide (n ≠ cell ∧ real_mine n)) as [[Hne [Hb Hm]]|Hno].
    - rewrite decide_False, decide_True by done.
      unfold Minesweeper.is_mine in Hm. by rewrite Hm.
    - destruct (decide (n = cell)) as [|Hne]; [lia|].
      case_decide as Hb; [|lia].
      destruct (Minesweeper.board_at g n.1 n.2) eqn:Hm; [|lia].
      destruct Hno. split; [done|]. by split. }
  rewrite length_filter_weight. unfold Minesweeper.nearby_mines.
  rewrite (foldl_additive _
             (λ i, foldr (λ j s, w (i, j) + s) 0
                         (Minesweeper.range3 cell.2))).
  - unfold neighborhood, Minesweeper.range3.
    cbn [foldr mbind list_bind app mret list_ret fmap list_fmap].
    unfold w. lia.
  - intros a i. apply (foldl_additive _ (λ j, w (i, j))).
    intros c j. apply (Hstep c (i, j)).
Qed.

(** The mines among a set of cells. *)
Definition mines_in (X : gset Cell) : gset Cell := filter real_mine X.

(** A sentence is true of the board: its count is the number of its cells
    that hold a mine. *)
Definition sound_sentence (s : Sentence) : Prop :=
  Sentence.count s = Z.of_nat (size (mines_in (Sentence.cells s))).

(** The knowledge of the agent is true of the board. *)
Definition sound (ai : AI) : Prop :=
  (∀ c, c ∈ mines ai → real_mine c)
  ∧ (∀ c, c ∈ safes ai → ¬ real_mine c)
  ∧ (∀ s, s ∈ knowledge ai → sound_sentence s).

Lemma mines_in_subseteq X : mines_in X ⊆ X.
Proof. intros c [_ ?]%elem_of_filter. done. Qed.

Lemma sound_sentence_bounds s :
  sound_sentence s → 0 ≤ Sentence.count s ≤ Z.of_nat (size (Sentence.cells s)).
Proof.
  unfold sound_sentence. intros ->.
  pose proof (subseteq_size _ _ (mines_in_subseteq (Sentence.cells s))). lia.
Qed.

Lemma sound_sentence_empty s :
  sound_sentence s → Sentence.cells s = ∅ → s = empty.
Proof.
  unfold sound_sentence. destruct s as [X c]. cbn. intros -> ->.
  unfold mines_in. rewrite filter_empty_L, size_empty; [done | apply _].
Qed.

Lemma sound_mark_mine s c :
  real_mine c → sound_sentence s → sound_sentence (Sentence.mark_mine s c).
Proof.
  unfold sound_sentence, Sentence.mark_mine. intros Hc Hs.
  case_decide as Hin; [|done]. cbn. rewrite Hs.
  assert (mines_in (Sentence.cells s ∖ {[ c ]})
          = mines_in (Sentence.cells s) ∖ {[ c ]}) as ->.
  { apply set_eq. intros x. unfold mines_in. split.
    - intros [Hm [Hx Hn]%elem_of_difference]%elem_of_filter.
      apply elem_of_difference. split; [by apply elem_of_filter | done].
    - intros [[Hm Hx]%elem_of_filter Hn]%elem_of_difference.
      apply elem_of_filter. split; [done|]. by apply elem_of_difference. }
  assert ({[ c ]} ⊆ mines_in (Sentence.cells s)) as Hsub
    by (by apply singleton_subseteq_l, elem_of_filter).
  rewrite size_difference by done.
  apply subseteq_size in Hsub. rewrite size_singleton in *. lia.
Qed.

Lemma sound_mark_safe s c :
  ¬ real_mine c → sound_sentence s → sound_sentence (Sentence.mark_safe s c).
Proof.
  unfold sound_sentence, Sentence.mark_safe. intros Hc Hs.
  case_decide as Hin; [|done]. cbn. rewrite Hs. do 2 f_equal.
  apply set_eq. intros x. unfold mines_in. split.
  - intros [Hm Hx]%elem_of_filter. apply elem_of_filter. split; [done|].
    apply elem_of_difference. split; [done|].
    intros ->%elem_of_singleton. done.
  - intros [Hm [Hx _]%elem_of_difference]%elem_of_filter.
    by apply elem_of_filter.
Qed.

Lemma sound_candidate s1 s2 :
  Sentence.cells s1 ⊆ Sentence.cells s2 →
  sound_sentence s1 → sound_sentence s2 → sound_sentence (candidate s1 s2).
Proof.
  unfold sound_sentence. intros Hsub H1 H2. cbn. rewrite H1, H2.
  assert (mines_in (Sentence.cells s2 ∖ Sentence.cells s1)
          = mines_in (Sentence.cells s2) ∖ mines_in (Sentence.cells s1)) as ->.
  { apply set_eq. intros x. unfold mines_in. split.
    - intros [Hm [Hx Hn]%elem_of_difference]%elem_of_filter.
      apply elem_of_difference. split; [by apply elem_of_filter|].
      by intros [_ ?]%elem_of_filter.
    - intros [[Hm Hx]%elem_of_filter Hn]%elem_of_difference.
      apply elem_of_filter. split; [done|]. apply elem_of_difference.
      split; [done|]. intros Hx1. apply Hn. by apply elem_of_filter. }
  assert (mines_in (Sentence.cells s1) ⊆ mines_in (Sentence.cells s2)) as Hm.
  { intros x [Hm Hx]%elem_of_filter. apply elem_of_filter. auto. }
  rewrite size_difference by done.
  pose proof (subseteq_size _ _ Hm). lia.
Qed.

Lemma sound_ai_mark_mine ai c :
  real_mine c → sound ai → sound (mark_mine ai c).
Proof.
  intros Hc (Hm & Hs & Hk). split; [|split]; cbn.
  - intros x [->%elem_of_singleton|Hx]%elem_of_union; auto.
  - done.
  - intros s (s' & -> & Hs')%list_elem_of_fmap. apply sound_mark_mine; auto.
Qed.

Lemma sound_ai_mark_safe ai c :
  ¬ real_mine c → sound ai → sound (mark_safe ai c).
Proof.
  intros Hc (Hm & Hs & Hk). split; [|split]; cbn.
  - done.
  - intros x [->%elem_of_singleton|Hx]%elem_of_union; auto.
  - intros s (s' & -> & Hs')%list_elem_of_fmap. apply sound_mark_safe; auto.
Qed.

Lemma sound_mark_new_mines (l : list Cell) :
  ∀ st, (∀ c, c ∈ l → real_mine c) → sound st.1 →
        sound (mark_new_mines st l).1.
Proof.
  unfold mark_new_mines.
  induction l as [|c l IH]; intros [ai ch] Hl Hs; [done|]. cbn [foldl].
  apply IH; [intros; apply Hl; by right|].
  case_decide; [done|]. cbn [fst] in *.
  apply sound_ai_mark_mine; [apply Hl; left | done].
Qed.

Lemma sound_mark_new_safes (l : list Cell) :
  ∀ st, (∀ c, c ∈ l → ¬ real_mine c) → sound st.1 →
        sound (mark_new_safes st l).1.
Proof.
  unfold mark_new_safes.
  induction l as [|c l IH]; intros [ai ch] Hl Hs; [done|]. cbn [foldl].
  apply IH; [intros; apply Hl; by right|].
  case_decide; [done|]. cbn [fst] in *.
  apply sound_ai_mark_safe; [apply Hl; left | done].
Qed.

(** A true sentence with as many cells as its count has only mines, and one
    with count 0 has none. *)
Lemma sound_known_mines s c :
  sound_sentence s → Z.of_nat (size (Sentence.cells s)) = Sentence.count s →
  c ∈ Sentence.cells s → real_mine c.
Proof.
  unfold sound_sentence. intros Hs Hsz Hc.
  assert (mines_in (Sentence.cells s) = Sentence.cells s) as Heq.
  { apply set_subseteq_size_eq; [apply mines_in_subseteq | lia]. }
  rewrite <- Heq in Hc. by apply elem_of_filter in Hc as [? _].
Qed.

Lemma sound_known_safes s c :
  sound_sentence s → Sentence.count s = 0 →
  c ∈ Sentence.cells s → ¬ real_mine c.
Proof.
  unfold sound_sentence. intros Hs H0 Hc Hm.
  assert (c ∈ mines_in (Sentence.cells s)) as Hin by (by apply elem_of_filter).
  assert (size (mines_in (Sentence.cells s)) = 0%nat) as Hz by lia.
  apply size_empty_inv in Hz. by apply Hz in Hin.
Qed.

Lemma sound_deduce_step st k st' :
  sound st.1 → deduce_step st k = Ok st' → sound st'.1.
Proof.
  intros Hs. unfold deduce_step.
  destruct (knowledge st.1 !! k) as [sentence|] eqn:Hk;
    [|by intros [= <-]].
  case_decide as Hne; [by intros [= <-]|].
  assert (sound_sentence sentence) as Hsent.
  { destruct Hs as (_ & _ & Hkb). by eapply Hkb, list_elem_of_lookup_2. }
  destruct (known_mines_safes_exclusive sentence Hne) as [Hm|Hsf].
  - rewrite Hm. cbn [mbind result_bind]. rewrite Hk. cbn [from_option].
    destruct (Sentence.known_safes sentence) as [X|] eqn:Hsafe;
      [|by intros [= <-]].
    apply known_safes_Some in Hsafe as [H0 _].
    case_decide; [|done]. intros [= <-].
    apply sound_mark_new_safes; [|done].
    intros c Hc%elem_of_elements. by eapply sound_known_safes.
  - rewrite Hsf.
    destruct (Sentence.known_mines sentence) as [X|] eqn:Hmine;
      [|by intros [= <-]].
    apply known_mines_Some in Hmine as [Hsz ->].
    case_decide; [|done]. cbn [mbind result_bind]. intros [= <-].
    apply sound_mark_new_mines; [|done].
    intros c Hc%elem_of_elements. by eapply sound_known_mines.
Qed.

Lemma sound_deduce st st' : sound st.1 → deduce st = Ok st' → sound st'.1.
Proof.
  intros Hs Hd.
  eapply (for_each_invariant (λ st, sound st.1)); [done | | exact Hd].
  intros s k s' _. apply sound_deduce_step.
Qed.

(** Subset resolution keeps the sentences true. *)
Definition sound_list (kb : list Sentence) : Prop :=
  ∀ s, s ∈ kb → sound_sentence s.

Lemma sound_resolve_pair st s1 s2 st' :
  sound_list st.1 → sound_sentence s1 → sound_sentence s2 →
  resolve_pair st s1 s2 = Ok st' → sound_list st'.1.
Proof.
  intros Hl H1 H2. rewrite resolve_pair_unfold.
  destruct (decide (resolvable s1 s2)) as [(_ & _ & _ & Hsub)|];
    [|by intros [= <-]].
  case_decide; [by intros [= <-]|]. case_decide; [|done]. intros [= <-].
  cbn [fst]. intros s [Hs| ->%list_elem_of_singleton]%elem_of_app; [auto|].
  by apply sound_candidate.
Qed.

Lemma sound_resolve_inner fuel st s1 st' :
  sound_list st.1 → sound_sentence s1 →
  resolve_inner fuel st s1 0 = Ok st' → sound_list st'.1.
Proof.
  intros Hl H1 Hr.
  destruct (resolve_inner_rule (λ st _, sound_list st.1) s1) with
    (fuel := fuel) (st := st) (j := 0%nat) (st' := st') as (_ & H & _);
    try done.
  intros s j s2 s' Hs Hj. apply sound_resolve_pair; [done | done |].
  by eapply Hs, list_elem_of_lookup_2.
Qed.

Lemma sound_resolve_outer fuel st st' :
  sound_list st.1 → resolve_outer fuel st 0 = Ok st' → sound_list st'.1.
Proof.
  intros Hl Hr.
  destruct (resolve_outer_rule (λ st _, sound_list st.1)) with
    (fuel := fuel) (st := st) (i := 0%nat) (st' := st') as (_ & H & _);
    try done.
  intros f s i s1 s' Hs Hi. apply sound_resolve_inner; [done|].
  by eapply Hs, list_elem_of_lookup_2.
Qed.

Lemma sound_closure_body fuel st st' :
  sound st.1 → closure_body fuel st = Ok st' → sound st'.1.
Proof.
  intros Hs. unfold closure_body.
  intros (st1 & Hd & ([kb ch] & Hr & [= <-])%bind_Ok)%bind_Ok.
  assert (sound st1.1) as (Hm & Hsf & Hk).
  { destruct st.2; [|by injection Hd as <-].
    by apply (sound_deduce (st.1, false)). }
  apply sound_resolve_outer in Hr; [|done]. cbn [fst] in *.
  split; [done|]. split; [done|]. cbn.
  intros s [_ Hin]%remove_empty_elem. by apply Hr.
Qed.

Lemma sound_closure fuel : ∀ st ai', sound st.1 → closure fuel st = Ok ai' → sound ai'.
Proof.
  induction fuel as [|fuel IH]; intros st ai' Hs; cbn;
    destruct st.2; try done; try (by intros [= <-]).
  intros (st' & Hb & Hc)%bind_Ok.
  eapply IH; [|done]. by eapply sound_closure_body.
Qed.

(** The sentence of the neighbours is true when the columns of the board
    pass the test of the loop, which compares them with [height]. *)
Lemma sound_neighbor_sentence ai cell neighboring_cells count :
  Minesweeper.height g ≤ height ai → Minesweeper.width g ≤ height ai →
  sound ai →
  neighbor_sentence ai cell (Minesweeper.nearby_mines g cell)
  = Ok (neighboring_cells, count) →
  sound_sentence (Sentence.mk neighboring_cells count).
Proof.
  intros Hh Hw (Hm & Hs & _) [-> ->]%neighbor_sentence_Ok.
  unfold sound_sentence. cbn [Sentence.cells Sentence.count].
  set (L := neighborhood cell).
  assert (mines_in (list_to_set (filter (undetermined ai cell) L))
          = list_to_set
              (filter (λ n, undetermined ai cell n ∧ real_mine n) L)) as ->.
  { apply set_eq. intros n. unfold mines_in.
    rewrite elem_of_filter, !elem_of_list_to_set, !list_elem_of_filter.
    tauto. }
  rewrite size_list_to_set by apply NoDup_filter, NoDup_neighborhood.
  rewrite nearby_mines_count. fold L.
  rewrite (length_filter_cases _ (accounted ai cell)
             (λ n, undetermined ai cell n ∧ real_mine n)); [lia|].
  intros n _. unfold accounted, undetermined. split; [split|].
  - intros [Hne Hreal].
    assert (n ∉ safes ai) as Hns by (intros Hin; by apply (Hs n)).
    destruct (decide (n ∈ mines ai)); [by left|]. right.
    destruct Hreal as [[? ?] ?] eqn:E. clear E.
    repeat split; try done; lia.
  - intros [(Hne & _ & Hin)|[(Hne & _) Hreal]]; auto.
  - intros [(_ & _ & Hin) [(_ & _ & Hnin & _) _]]. done.
Qed.

Lemma sound_add_sentence ai cell ai' :
  Minesweeper.height g ≤ height ai → Minesweeper.width g ≤ height ai →
  sound ai → ¬ real_mine cell →
  add_sentence ai cell (Minesweeper.nearby_mines g cell) = Ok ai' →
  sound ai'.
Proof.
  intros Hh Hw Hs Hcell. unfold add_sentence.
  set (ai1 := mark_safe (add_moves_made ai cell) cell).
  assert (sound ai1) as Hs1.
  { apply sound_ai_mark_safe; [done|]. by destruct Hs as (? & ? & ?). }
  intros ([nc c] & Hn & Hr)%bind_Ok.
  apply sound_neighbor_sentence in Hn; [|done..].
  case_decide; injection Hr as <-; [|done].
  destruct Hs1 as (? & ? & Hk). split; [done|]. split; [done|]. cbn.
  intros s [Hin| ->%list_elem_of_singleton]%elem_of_app; [|done].
  by apply Hk.
Qed.

(** One call with the true count for a cell that holds no mine keeps the
    knowledge true. *)
Lemma sound_add_knowledge fuel ai cell ai' :
  Minesweeper.height g ≤ height ai → Minesweeper.width g ≤ height ai →
  sound ai → ¬ real_mine cell →
  add_knowledge fuel ai cell (Minesweeper.nearby_mines g cell) = Ok ai' →
  sound ai'.
Proof.
  intros Hh Hw Hs Hcell. unfold add_knowledge.
  intros (ai1 & Ha & Hc)%bind_Ok.
  apply (sound_closure fuel (ai1, true)); [|done].
  by eapply sound_add_sentence.
Qed.

End Soundness.

(** ** Games on boards no wider than high *)

(** The agents reached by revealing cells of the board that hold no mine,
    each with its true count, from the new agent of the board. *)
Inductive played (g : Minesweeper.t) : AI → Prop :=
| played_new : played g (agent_of g)
| played_reveal (ai : AI) (cell : Cell) (fuel : nat) (ai' : AI) :
    played g ai →
    on_board g cell → Minesweeper.is_mine g cell = false →
    add_knowledge fuel ai cell (Minesweeper.nearby_mines g cell) = Ok ai' →
    played g ai'.

Lemma played_sound (g : Minesweeper.t) (ai : AI) :
  Minesweeper.width g ≤ Minesweeper.height g →
  played g ai →
  sound g ai ∧ height ai = Minesweeper.height g
  ∧ empty ∉ knowledge ai.
Proof.
  intros Hw. induction 1 as [|ai cell fuel ai' _ (Hs & Hh & _) Hb Hm Hadd].
  - split; [|split; [done|]]; [|by intros ?%elem_of_nil].
    split; [|split]; cbn; intros ?; by intros ?%elem_of_nil
      || by intros ?%not_elem_of_empty.
  - pose proof Hadd as ((Hh' & _) & _)%extends_add_knowledge.
    split; [|split; [congruence | by eapply add_knowledge_no_empty]].
    apply (sound_add_knowledge g fuel ai cell ai'); [lia | lia | done | | done].
    intros [_ ?]. congruence.
Qed.

(** On a board no wider than high, in every game: no cell is both a known
    mine and a known safe cell, and every sentence has cells and a count
    between 0 and their number. *)
Lemma played_invariants (g : Minesweeper.t) (ai : AI) :
  Minesweeper.width g ≤ Minesweeper.height g →
  played g ai →
  mines ai ## safes ai
  ∧ ∀ s, s ∈ knowledge ai →
         Sentence.cells s ≠ ∅
         ∧ 0 ≤ Sentence.count s ≤ Z.of_nat (size (Sentence.cells s)).
Proof.
  intros Hw Hp. destruct (played_sound g ai Hw Hp) as ((Hm & Hs & Hk) & _ & He).
  split.
  - intros c Hc1 Hc2. by apply (Hs c Hc2), Hm.
  - intros s Hin. split; [|by apply (sound_sentence_bounds g), Hk].
    intros Hc. apply He. by rewrite <- (sound_sentence_empty g s (Hk s Hin) Hc).
Qed.

(** *** Games on the boards of the examples *)

(** A board of 2 rows and 2 columns with a mine at (1, 1), and the agent
    after the cell (0, 0) is revealed. *)
Definition board_2x2 : Minesweeper.t :=
  Minesweeper.mk 2 2 [[false; false]; [false; true]].

Definition agent_2x2 : AI :=
  mk 2 2 {[ (0, 0) ]} ∅ {[ (0, 0) ]}
     [Sentence.mk {[ (0, 1); (1, 0); (1, 1) ]} 1].

Lemma played_2x2 : played board_2x2 agent_2x2.
Proof.
  apply (played_reveal board_2x2 (agent_of board_2x2) (0, 0) 20).
  - apply played_new.
  - split; cbn; lia.
  - reflexivity.
  - vm_compute. reflexivity.
Qed.

(** The games of the three boards wider than high. *)
Definition agent_1x3 : AI :=
  mk 1 3 {[ (0, 0); (0, 1) ]} {[ (0, 0) ]} {[ (0, 0); (0, 1) ]} [].

Lemma played_1x3 : played board_1x3 agent_1x3.
Proof.
  apply (played_reveal board_1x3
           (mk 1 3 {[ (0, 1) ]} {[ (0, 0) ]} {[ (0, 1) ]} []) (0, 0) 20).
  - apply (played_reveal board_1x3 (agent_of board_1x3) (0, 1) 20).
    + apply played_new.
    + split; cbn; lia.
    + reflexivity.
    + vm_compute. reflexivity.
  - split; cbn; lia.
  - reflexivity.
  - vm_compute. reflexivity.
Qed.

Definition agent_1x3_two : AI :=
  mk 1 3 {[ (0, 1) ]} ∅ {[ (0, 1) ]} [Sentence.mk {[ (0, 0) ]} 2].

Lemma played_1x3_two : played board_1x3_two agent_1x3_two.
Proof.
  apply (played_reveal board_1x3_two (agent_of board_1x3_two) (0, 1) 20).
  - apply played_new.
  - split; cbn; lia.
  - reflexivity.
  - vm_compute. reflexivity.
Qed.

Definition agent_2x3 : AI :=
  mk 2 3 {[ (0, 0); (0, 1) ]} {[ (1, 0); (1, 1) ]} {[ (0, 0); (0, 1) ]}
     [Sentence.mk ∅ (-2)].

Lemma played_2x3 : played board_2x3 agent_2x3.
Proof.
  apply (played_reveal board_2x3
           (mk 2 3 {[ (0, 1) ]} ∅ {[ (0, 1) ]}
               [Sentence.mk {[ (0, 0); (1, 0); (1, 1) ]} 2]) (0, 0) 20).
  - apply (played_reveal board_2x3 (agent_of board_2x3) (0, 1) 20).
    + apply played_new.
    + split; cbn; lia.
    + reflexivity.
    + vm_compute. reflexivity.
  - split; cbn; lia.
  - reflexivity.
  - vm_compute. reflexivity.
Qed.

(** C4: a call that returns keeps the cells of [mines] and of [safes]; on
    a board no wider than high, [mines] and [safes] are disjoint in every
    game.  The claim fails on the code for a board wider than high: on the
    board of 1 row and 3 columns with a mine at (0, 2), revealing (0, 1)
    and then (0, 0) leaves (0, 0) both in [mines] and in [safes]. *)
Theorem safes_mines_disjoint :
  (∀ (fuel : nat) (ai : AI) (cell : Cell) (count : Z) (ai' : AI),
     add_knowledge fuel ai cell count = Ok ai' →
     mines ai ⊆ mines ai' ∧ safes ai ⊆ safes ai') ∧
  (∀ (g : Minesweeper.t) (ai : AI),
     Minesweeper.width g ≤ Minesweeper.height g →
     played g ai → mines ai ## safes ai) ∧
  (played board_1x3 agent_1x3
   ∧ (0, 0) ∈ mines agent_1x3 ∧ (0, 0) ∈ safes agent_1x3).
Proof.
  split; [|split].
  - intros fuel ai cell count ai' Hadd.
    apply extends_add_knowledge in Hadd as ((_ & _ & _ & ? & ?) & _). done.
  - intros g ai Hw Hp. by apply (played_invariants g ai Hw Hp).
  - split; [apply played_1x3|]. cbn. split; set_solver.
Qed.

Lemma safes_mines_disjoint_witness :
  (mines (agent_of board_2x2) ⊆ mines agent_2x2
   ∧ safes (agent_of board_2x2) ⊆ safes agent_2x2)
  ∧ mines agent_2x2 ## safes agent_2x2.
Proof.
  destruct safes_mines_disjoint as (Hmono & Hdisj & _). split.
  - apply (Hmono 20%nat (agent_of board_2x2) (0, 0) 1).
    vm_compute. reflexivity.
  - apply (Hdisj board_2x2 agent_2x2); [cbn; lia | apply played_2x2].
Defined.

(** C7: on a board no wider than high, in every game, the count of every
    sentence of the knowledge base is between 0 and the number of its
    cells, also right after the sentence of the neighbours is built, and a
    sentence that is true of the board stays so when a mine is taken out of
    it.  The claim fails on the code for a board wider than high: on the
    board of 1 row and 3 columns with mines at (0, 0) and (0, 2), revealing
    (0, 1) with its true count 2 leaves the sentence {(0, 0)} = 2 in the
    knowledge base. *)
Theorem count_within_cells :
  (∀ (g : Minesweeper.t) (ai : AI) (s : Sentence),
     Minesweeper.width g ≤ Minesweeper.height g →
     played g ai → s ∈ knowledge ai →
     0 ≤ Sentence.count s ≤ Z.of_nat (size (Sentence.cells s))) ∧
  (∀ (g : Minesweeper.t) (ai ai1 : AI) (cell : Cell) (s : Sentence),
     Minesweeper.width g ≤ Minesweeper.height g →
     played g ai →
     on_board g cell → Minesweeper.is_mine g cell = false →
     add_sentence ai cell (Minesweeper.nearby_mines g cell) = Ok ai1 →
     s ∈ knowledge ai1 →
     0 ≤ Sentence.count s ≤ Z.of_nat (size (Sentence.cells s))) ∧
  (∀ (g : Minesweeper.t) (s : Sentence) (c : Cell),
     sound_sentence g s → real_mine g c →
     sound_sentence g (Sentence.mark_mine s c)
     ∧ 0 ≤ Sentence.count (Sentence.mark_mine s c)
       ≤ Z.of_nat (size (Sentence.cells (Sentence.mark_mine s c)))) ∧
  (played board_1x3_two agent_1x3_two
   ∧ Sentence.mk {[ (0, 0) ]} 2 ∈ knowledge agent_1x3_two
   ∧ ¬ (0 ≤ Sentence.count (Sentence.mk {[ (0, 0) ]} 2)
        ≤ Z.of_nat (size (Sentence.cells (Sentence.mk {[ (0, 0) ]} 2))))).
Proof.
  split; [|split; [|split]].
  - intros g ai s Hw Hp Hs.
    by apply (proj2 (played_invariants g ai Hw Hp) s Hs).
  - intros g ai ai1 cell s Hw Hp Hb Hm Hadd Hs.
    destruct (played_sound g ai Hw Hp) as (Hsound & Hh & _).
    apply (sound_sentence_bounds g).
    apply (sound_add_sentence g ai cell ai1) in Hadd as (_ & _ & Hk);
      [by apply Hk | lia | lia | done |].
    intros [_ ?]. congruence.
  - intros g s c Hs Hc.
    pose proof (sound_mark_mine g s c Hc Hs) as Hs'.
    split; [done | by apply (sound_sentence_bounds g)].
  - split; [apply played_1x3_two|]. split; [cbn; set_solver|].
    vm_compute. intros [_ H]. by apply H.
Qed.

Lemma count_within_cells_witness :
  (0 ≤ Sentence.count (Sentence.mk {[ (0, 1); (1, 0); (1, 1) ]} 1)
   ≤ Z.of_nat
       (size (Sentence.cells (Sentence.mk {[ (0, 1); (1, 0); (1, 1) ]} 1))))
  ∧ (0 ≤ Sentence.count (Sentence.mk {[ (0, 1); (1, 1) ]} 1)
     ≤ Z.of_nat
         (size (Sentence.cells (Sentence.mk {[ (0, 1); (1, 1) ]} 1)))).
Proof.
  destruct count_within_cells as (Hcount & Hbuilt & _). split.
  - apply (Hcount board_2x2 agent_2x2
             (Sentence.mk {[ (0, 1); (1, 0); (1, 1) ]} 1));
      [cbn; lia | apply played_2x2 | apply list_elem_of_here].
  - apply (Hbuilt board_2x2 agent_2x2
             (mk 2 2 {[ (0, 0); (1, 0) ]} ∅ {[ (0, 0); (1, 0) ]}
                 [Sentence.mk {[ (0, 1); (1, 1) ]} 1;
                  Sentence.mk {[ (0, 1); (1, 1) ]} 1])
             (1, 0) (Sentence.mk {[ (0, 1); (1, 1) ]} 1)).
    + cbn; lia.
    + apply played_2x2.
    + split; cbn; lia.
    + reflexivity.
    + vm_compute. reflexivity.
    + apply list_elem_of_here.
Defined.

(** C8: when a call returns, the empty sentence with count 0 is not in the
    knowledge base; on a board no wider than high, in every game, every
    sentence of the knowledge base has cells.  The claim fails on the code
    for the sentences without cells and with another count: on the board
    of 2 rows and 3 columns, revealing (0, 1) and then (0, 0) ends with a
    sentence with no cells and count -2; on a board of 8 rows and 8
    columns, the count 5 for (0, 0) followed by the count 0 for (0, 1)
    ends with a sentence with no cells and count 5. *)
Theorem empty_sentences_retired :
  (∀ (fuel : nat) (ai : AI) (cell : Cell) (count : Z) (ai' : AI),
     add_knowledge fuel ai cell count = Ok ai' → empty ∉ knowledge ai') ∧
  (∀ (g : Minesweeper.t) (ai : AI) (s : Sentence),
     Minesweeper.width g ≤ Minesweeper.height g →
     played g ai → s ∈ knowledge ai → Sentence.cells s ≠ ∅) ∧
  (played board_2x3 agent_2x3
   ∧ knowledge agent_2x3 = [Sentence.mk ∅ (-2)]) ∧
  (∃ ai1 ai2 : AI,
     add_knowledge 20 (init 8 8) (0, 0) 5 = Ok ai1 ∧
     add_knowledge 20 ai1 (0, 1) 0 = Ok ai2 ∧
     knowledge ai2 = [Sentence.mk ∅ 5]).
Proof.
  split; [|split; [|split]].
  - intros fuel ai cell count ai'. apply add_knowledge_no_empty.
  - intros g ai s Hw Hp Hs.
    by apply (proj2 (played_invariants g ai Hw Hp) s Hs).
  - split; [apply played_2x3 | done].
  - exists (mk 8 8 {[ (0, 0) ]} ∅ {[ (0, 0) ]}
              [Sentence.mk {[ (0, 1); (1, 0); (1, 1) ]} 5]).
    exists (mk 8 8 {[ (0, 0); (0, 1) ]} ∅
              {[ (0, 0); (0, 1); (0, 2); (1, 0); (1, 1); (1, 2) ]}
              [Sentence.mk ∅ 5]).
    split; [vm_compute; reflexivity|].
    split; [vm_compute; reflexivity|].
    reflexivity.
Qed.

Lemma empty_sentences_retired_witness :
  empty ∉ knowledge agent_2x2
  ∧ Sentence.cells (Sentence.mk {[ (0, 1); (1, 0); (1, 1) ]} 1) ≠ ∅.
Proof.
  destruct empty_sentences_retired as (Hempty & Hcells & _). split.
  - apply (Hempty 20%nat (agent_of board_2x2) (0, 0) 1).
    vm_compute. reflexivity.
  - apply (Hcells board_2x2 agent_2x2);
      [cbn; lia | apply played_2x2 | apply list_elem_of_here].
Defined.


(** * The board, the marks and the moves *)

(** ** Indexing the board *)

Section Indexing.

Context {A : Type}.
Implicit Types (l : list A) (i : Z).

Lemma position_inside l i :
  0 ≤ i < Z.of_nat (length l) → Minesweeper.position l i = Some (Z.to_nat i).
Proof. intros H. unfold Minesweeper.position. by rewrite decide_True. Qed.

Lemma position_below l i :
  - Z.of_nat (length l) ≤ i < 0 →
  Minesweeper.position l i = Some (Z.to_nat (Z.of_nat (length l) + i)).
Proof.
  intros H. unfold Minesweeper.position.
  rewrite decide_False by lia. by rewrite decide_True.
Qed.

Lemma position_outside l i :
  i < - Z.of_nat (length l) ∨ Z.of_nat (length l) ≤ i →
  Minesweeper.position l i = None.
Proof.
  intros H. unfold Minesweeper.position. by rewrite !decide_False by lia.
Qed.

Lemma position_lt l i n :
  Minesweeper.position l i = Some n → (n < length l)%nat.
Proof.
  unfold Minesweeper.position. repeat case_decide; intros [= <-]; lia.
Qed.

Lemma getitem_inside l i :
  0 ≤ i < Z.of_nat (length l) →
  ∃ x, l !! Z.to_nat i = Some x ∧ Minesweeper.getitem l i = Ok x.
Proof.
  intros H. unfold Minesweeper.getitem. rewrite position_inside by done.
  destruct (lookup_lt_is_Some_2 l (Z.to_nat i)) as [x Hx]; [lia|].
  exists x. cbn. by rewrite Hx.
Qed.

Lemma getitem_wraps l i :
  - Z.of_nat (length l) ≤ i < 0 →
  Minesweeper.getitem l i = Minesweeper.getitem l (Z.of_nat (length l) + i).
Proof.
  intros H. unfold Minesweeper.getitem.
  rewrite position_below, position_inside by lia. done.
Qed.

Lemma getitem_outside l i :
  i < - Z.of_nat (length l) ∨ Z.of_nat (length l) ≤ i →
  Minesweeper.getitem l i = Raise IndexError.
Proof.
  intros H. unfold Minesweeper.getitem. by rewrite position_outside.
Qed.

Lemma setitem_inside l i x :
  0 ≤ i < Z.of_nat (length l) →
  Minesweeper.setitem l i x = Ok (<[Z.to_nat i := x]> l).
Proof.
  intros H. unfold Minesweeper.setitem. by rewrite position_inside.
Qed.

End Indexing.

(** A board of [height] rows of [width] cells. *)
Definition rectangular (height width : Z) (board : list (list bool)) : Prop :=
  length board = Z.to_nat height
  ∧ ∀ row, row ∈ board → length row = Z.to_nat width.

Definition well_formed (g : Minesweeper.t) : Prop :=
  rectangular (Minesweeper.height g) (Minesweeper.width g)
              (Minesweeper.board g).

Lemma is_mine_at_inside g cell :
  well_formed g → on_board g cell →
  Minesweeper.is_mine_at g cell = Ok (Minesweeper.is_mine g cell).
Proof.
  intros [Hl Hrows] [Hi Hj]. unfold Minesweeper.is_mine_at.
  destruct (getitem_inside (Minesweeper.board g) cell.1) as (row & Hrow & ->);
    [lia|]. cbn.
  pose proof (Hrows row (list_elem_of_lookup_2 _ _ _ Hrow)) as Hlen.
  destruct (getitem_inside row cell.2) as (b & Hb & ->); [lia|].
  unfold Minesweeper.is_mine, Minesweeper.board_at. by rewrite Hrow, Hb.
Qed.

(** ** The constructor of the board *)

Lemma foldl_snoc_replicate {B C : Type} (x : B) (l : list C) (acc : list B) :
  foldl (λ (a : list B) (_ : C), a ++ [x]) acc l
  = acc ++ replicate (length l) x.
Proof.
  revert acc. induction l as [|c l IH]; intros acc; cbn [foldl length].
  - by rewrite app_nil_r.
  - rewrite IH, <- app_assoc. done.
Qed.

Lemma empty_board_replicate (height width : Z) :
  Minesweeper.empty_board height width
  = replicate (Z.to_nat height) (replicate (Z.to_nat width) false).
Proof.
  unfold Minesweeper.empty_board, Minesweeper.range.
  rewrite !foldl_snoc_replicate, !length_seqZ. done.
Qed.

Lemma rectangular_empty_board (height width : Z) :
  rectangular height width (Minesweeper.empty_board height width).
Proof.
  rewrite empty_board_replicate. split; [by rewrite length_replicate|].
  intros row [-> _]%elem_of_replicate. by rewrite length_replicate.
Qed.

Section Constructor.

Variables (height width : Z).

(** The board and the set of mines agree, on a board of the size asked
    for. *)
Definition placed (st : list (list bool) * gset Cell) : Prop :=
  rectangular height width st.1
  ∧ ∀ c : Cell,
      c ∈ st.2 ↔ real_mine (Minesweeper.mk height width st.1) c.

Lemma placed_start : placed (Minesweeper.empty_board height width, ∅).
Proof.
  split; [apply rectangular_empty_board|]. intros c. cbn [fst snd].
  split; [by intros ?%not_elem_of_empty|].
  intros [_ Hm]. exfalso. revert Hm.
  unfold Minesweeper.is_mine, Minesweeper.board_at. cbn.
  rewrite empty_board_replicate.
  destruct (replicate _ _ !! _) as [row|] eqn:Hrow; [|done].
  apply lookup_replicate in Hrow as [-> _].
  destruct (replicate _ _ !! _) as [b|] eqn:Hb; [|done].
  apply lookup_replicate in Hb as [-> _]. done.
Qed.

(** The cell a pair of random numbers stands for. *)
Definition drawn (r : Z * Z) : Cell := (r.1 `mod` height, r.2 `mod` width).

Lemma drawn_on_board r :
  0 < height → 0 < width →
  (0 ≤ (drawn r).1 < height) ∧ (0 ≤ (drawn r).2 < width).
Proof.
  intros Hh Hw. unfold drawn. cbn.
  pose proof (Z.mod_pos_bound r.1 height Hh).
  pose proof (Z.mod_pos_bound r.2 width Hw). lia.
Qed.

(** The body of the [while] loop on a board with rows and columns: it
    puts a mine on the cell drawn, unless there is one. *)
Lemma place_returns st r :
  0 < height → 0 < width → placed st →
  ∃ st',
    Minesweeper.place height width st r = Minesweeper.Returned st'
    ∧ placed st'
    ∧ st'.2 = {[ drawn r ]} ∪ st.2
    ∧ (drawn r ∈ st.2 → st' = st).
Proof.
  intros Hh Hw [[Hlen Hrows] Hmines].
  pose proof (drawn_on_board r Hh Hw) as [Hi Hj].
  unfold Minesweeper.place, Minesweeper.randrange.
  rewrite (decide_True (P := 0 < height)) by done.
  cbn [mbind Minesweeper.outcome_bind].
  rewrite (decide_True (P := 0 < width)) by done.
  cbn [mbind Minesweeper.outcome_bind].
  change (r.1 `mod` height) with (drawn r).1.
  change (r.2 `mod` width) with (drawn r).2.
  set (c := drawn r) in *.
  destruct (getitem_inside st.1 c.1) as (row & Hrow & ->); [lia|].
  pose proof (Hrows row (list_elem_of_lookup_2 _ _ _ Hrow)) as Hrl.
  cbn [Minesweeper.lift mbind Minesweeper.outcome_bind].
  destruct (getitem_inside row c.2) as (b & Hb & ->); [lia|].
  cbn [Minesweeper.lift mbind Minesweeper.outcome_bind].
  assert (Minesweeper.is_mine (Minesweeper.mk height width st.1) c = b)
    as Hisb.
  { unfold Minesweeper.is_mine, Minesweeper.board_at.
    cbn [Minesweeper.board]. by rewrite Hrow, Hb. }
  assert (c ∈ st.2 ↔ b = true) as Hcb.
  { rewrite Hmines. unfold real_mine, on_board.
    cbn [Minesweeper.height Minesweeper.width]. rewrite Hisb.
    split; [tauto|]. intros ->. repeat split; lia. }
  destruct b.
  - exists st. split; [done|]. split; [by split|].
    split; [|done]. apply set_eq. intros x.
    rewrite elem_of_union, elem_of_singleton. split; [tauto|].
    intros [->|]; [by apply Hcb | done].
  - rewrite setitem_inside by lia.
    cbn [Minesweeper.lift mbind Minesweeper.outcome_bind].
    rewrite setitem_inside by lia.
    cbn [Minesweeper.lift mbind Minesweeper.outcome_bind].
    exists (<[Z.to_nat c.1 := <[Z.to_nat c.2 := true]> row]> st.1,
            {[ c ]} ∪ st.2).
    split; [done|]. unfold placed, rectangular. cbn [fst snd].
    split; [|split; [done|]].
    + split; [split|].
      * by rewrite length_insert.
      * intros row' [k Hk]%list_elem_of_lookup_1.
        destruct (decide (k = Z.to_nat c.1)) as [->|Hne].
        -- rewrite list_lookup_insert_eq in Hk by lia.
           injection Hk as <-. by rewrite length_insert.
        -- rewrite list_lookup_insert_ne in Hk by done.
           by apply Hrows, (list_elem_of_lookup_2 _ k).
      * intros x. rewrite elem_of_union, elem_of_singleton, Hmines.
        unfold real_mine, on_board, Minesweeper.is_mine,
          Minesweeper.board_at.
        cbn [Minesweeper.height Minesweeper.width Minesweeper.board].
        destruct (decide (Z.to_nat x.1 = Z.to_nat c.1)) as [Hx1|Hx1].
        -- rewrite Hx1, list_lookup_insert_eq, Hrow by lia.
           destruct (decide (Z.to_nat x.2 = Z.to_nat c.2)) as [Hx2|Hx2].
           ++ rewrite Hx2, list_lookup_insert_eq, Hb by lia. cbn.
              split.
              ** intros [->|[? ?]]; [|done]. repeat split; lia.
              ** intros [[? ?] _]. left.
                 destruct x as [x1 x2], c as [c1 c2]. cbn in *.
                 f_equal; lia.
           ++ rewrite list_lookup_insert_ne by done.
              split; [|tauto]. intros [->|]; [done|tauto].
        -- rewrite list_lookup_insert_ne by done.
           split; [|tauto]. intros [->|]; [done|tauto].
    + intros Hc. apply Hcb in Hc. done.
Qed.

End Constructor.

(** ** The cells of a board *)

(** The cells [(i, j)] with [i] in [range(height)] and [j] in
    [range(width)], row by row. *)
Definition cells_of_board (height width : Z) : list Cell :=
  i ← Minesweeper.range height ; j ← Minesweeper.range width ; [(i, j)].

Lemma elem_of_cells_of_board height width (c : Cell) :
  c ∈ cells_of_board height width
  ↔ (0 ≤ c.1 < height) ∧ (0 ≤ c.2 < width).
Proof.
  unfold cells_of_board, Minesweeper.range. rewrite list_elem_of_bind.
  split.
  - intros (i & (j & Hc & Hj%elem_of_seqZ)%list_elem_of_bind
              & Hi%elem_of_seqZ).
    apply list_elem_of_singleton in Hc as ->. cbn. lia.
  - intros [Hi Hj]. exists c.1. split; [|apply elem_of_seqZ; lia].
    apply list_elem_of_bind. exists c.2. split; [|apply elem_of_seqZ; lia].
    destruct c. by apply list_elem_of_singleton.
Qed.

Lemma length_bind_const {B C : Type} (f : B → list C) (n : nat) (l : list B) :
  (∀ x, length (f x) = n) → length (l ≫= f) = (length l * n)%nat.
Proof.
  intros Hf. induction l as [|x l IH]; [done|].
  cbn [mbind list_bind]. change (list_bind _ _ f l) with (l ≫= f).
  rewrite List.length_app, Hf, IH. cbn [length]. lia.
Qed.




(** ** What the constructor does *)

Section ConstructorLoop.

Variables (height width mines : Z).


(** On a board without rows or without columns the first draw raises
    [ValueError]. *)
Lemma place_empty_range st r :
  height ≤ 0 ∨ width ≤ 0 →
  Minesweeper.place height width st r = Minesweeper.Raised Minesweeper.ValueError.
Proof.
  intros H. unfold Minesweeper.place, Minesweeper.randrange.
  destruct (decide (0 < height)); [|done].
  cbn [mbind Minesweeper.outcome_bind]. by rewrite decide_False by lia.
Qed.



End ConstructorLoop.

Lemma place_mines_Returned (height width mines : Z) (draws : list (Z * Z)) :
  ∀ st st',
    placed height width st →
    Minesweeper.place_mines height width mines draws st
    = Minesweeper.Returned st' →
    placed height width st' ∧ Z.of_nat (size st'.2) = mines.
Proof.
  induction draws as [|r draws IH]; intros st st' Hst;
    cbn [Minesweeper.place_mines]; case_decide as Hm; try done;
    try (intros [= <-]; split; [done | lia]).
  destruct (decide (0 < height ∧ 0 < width)) as [[Hh Hw]|Hno].
  - destruct (place_returns height width st r Hh Hw Hst)
      as (st1 & -> & Hst1 & _).
    cbn [mbind Minesweeper.outcome_bind]. by apply IH.
  - rewrite place_empty_range by lia. done.
Qed.


Lemma init_Returned (height width mines : Z)
    (draws : list (Z * Z)) (g : Minesweeper.game) :
  Minesweeper.init height width mines draws = Minesweeper.Returned g →
  Minesweeper.height (Minesweeper.field g) = height
  ∧ Minesweeper.width (Minesweeper.field g) = width
  ∧ Z.of_nat (size (Minesweeper.mines g)) = mines
  ∧ (∀ c, c ∈ Minesweeper.mines g ↔ real_mine (Minesweeper.field g) c).
Proof.
  unfold Minesweeper.init.
  destruct (Minesweeper.place_mines _ _ _ _ _) as [[board mines']| |] eqn:Hp;
    [|done..].
  apply place_mines_Returned in Hp as [[Hrect Hmines] Hsize];
    [|apply placed_start].
  cbn [mbind Minesweeper.outcome_bind]. intros [= <-]. by cbn in *.
Qed.

(** X1: the constructor, when it returns: the object has the size asked for,
    a board of [height] rows of [width] cells, and as many mines as asked
    for; the cells of [mines] are the cells of the board that hold [True];
    no mine is found yet; and [is_mine] returns, for a cell of the board,
    whether it is in [mines]. *)
Theorem constructor_returns_spec
    (height width mines : Z) (draws : list (Z * Z)) (g : Minesweeper.game) :
  Minesweeper.init height width mines draws = Minesweeper.Returned g →
  Minesweeper.height (Minesweeper.field g) = height
  ∧ Minesweeper.width (Minesweeper.field g) = width
  ∧ well_formed (Minesweeper.field g)
  ∧ Z.of_nat (size (Minesweeper.mines g)) = mines
  ∧ (∀ c, c ∈ Minesweeper.mines g ↔ real_mine (Minesweeper.field g) c)
  ∧ Minesweeper.mines_found g = ∅
  ∧ (Minesweeper.won g = true ↔ mines = 0)
  ∧ ∀ c, on_board (Minesweeper.field g) c →
         Minesweeper.is_mine_at (Minesweeper.field g) c
         = Ok (bool_decide (c ∈ Minesweeper.mines g)).
Proof.
  unfold Minesweeper.init.
  destruct (Minesweeper.place_mines _ _ _ _ _) as [[board mines']| |] eqn:Hp;
    [|done..].
  apply place_mines_Returned in Hp as [[Hrect Hmines] Hsize];
    [|apply placed_start].
  cbn [mbind Minesweeper.outcome_bind]. intros [= <-]. cbn in *.
  repeat (split; [done|]). split.
  { unfold Minesweeper.won. cbn. rewrite bool_decide_eq_true. split.
    - intros <-. by rewrite size_empty in Hsize.
    - intros ->. symmetry. apply leibniz_equiv, size_empty_inv. lia. }
  intros c Hc. rewrite is_mine_at_inside by done. f_equal.
  destruct (Minesweeper.is_mine _ c) eqn:Him.
  - symmetry. apply bool_decide_eq_true. apply Hmines. by split.
  - symmetry. apply bool_decide_eq_false. rewrite Hmines. intros [_ ?].
    congruence.
Qed.

(** A board of 2 rows and 2 columns with its mine at (1, 1). *)
Definition game_2x2 : Minesweeper.game :=
  Minesweeper.mk_game board_2x2 {[ (1, 1) ]} ∅.

Lemma constructor_returns_spec_witness :
  Minesweeper.height (Minesweeper.field game_2x2) = 2
  ∧ Minesweeper.width (Minesweeper.field game_2x2) = 2
  ∧ well_formed (Minesweeper.field game_2x2)
  ∧ Z.of_nat (size (Minesweeper.mines game_2x2)) = 1
  ∧ (∀ c, c ∈ Minesweeper.mines game_2x2
          ↔ real_mine (Minesweeper.field game_2x2) c)
  ∧ Minesweeper.mines_found game_2x2 = ∅
  ∧ (Minesweeper.won game_2x2 = true ↔ 1 = 0)
  ∧ ∀ c, on_board (Minesweeper.field game_2x2) c →
         Minesweeper.is_mine_at (Minesweeper.field game_2x2) c
         = Ok (bool_decide (c ∈ Minesweeper.mines game_2x2)).
Proof.
  apply (constructor_returns_spec 2 2 1 [(5, 3)]). vm_compute. reflexivity.
Defined.





(** ** is_mine and the indices of a list *)

Lemma well_formed_board_2x2 : well_formed board_2x2.
Proof.
  split; [done|]. intros row Hrow.
  repeat (apply elem_of_cons in Hrow as [->|Hrow]; [done|]).
  by apply elem_of_nil in Hrow.
Qed.

(** X4: [is_mine] on a board of [height] rows of [width] cells: for a cell of
    the board it returns whether the cell holds a mine; an index below 0,
    down to [-height] for the row and [-width] for the column, is read
    from the other end of the board without an error; any other cell
    raises [IndexError]. *)
Theorem is_mine_indexing (g : Minesweeper.t) :
  well_formed g → 0 ≤ Minesweeper.height g → 0 ≤ Minesweeper.width g →
  (∀ c, on_board g c →
        Minesweeper.is_mine_at g c = Ok (Minesweeper.is_mine g c))
  ∧ (∀ i j, - Minesweeper.height g ≤ i < 0 →
            Minesweeper.is_mine_at g (i, j)
            = Minesweeper.is_mine_at g (Minesweeper.height g + i, j))
  ∧ (∀ i j, 0 ≤ i < Minesweeper.height g → - Minesweeper.width g ≤ j < 0 →
            Minesweeper.is_mine_at g (i, j)
            = Minesweeper.is_mine_at g (i, Minesweeper.width g + j))
  ∧ (∀ i j, i < - Minesweeper.height g ∨ Minesweeper.height g ≤ i
            ∨ j < - Minesweeper.width g ∨ Minesweeper.width g ≤ j →
            Minesweeper.is_mine_at g (i, j) = Raise IndexError).
Proof.
  intros Hwf Hh Hw. pose proof Hwf as [Hlen Hrows].
  assert (Z.of_nat (length (Minesweeper.board g)) = Minesweeper.height g)
    as Hlen' by lia.
  assert (∀ i, - Minesweeper.height g ≤ i < Minesweeper.height g →
               ∃ row, Minesweeper.getitem (Minesweeper.board g) i = Ok row
                      ∧ Z.of_nat (length row) = Minesweeper.width g)
    as Hrow.
  { intros i Hi. destruct (decide (0 ≤ i)).
    - destruct (getitem_inside (Minesweeper.board g) i) as (row & Hr & ->);
        [lia|]. exists row. split; [done|].
      rewrite (Hrows row) by (by eapply list_elem_of_lookup_2). lia.
    - rewrite getitem_wraps by lia.
      destruct (getitem_inside (Minesweeper.board g)
                  (Z.of_nat (length (Minesweeper.board g)) + i))
        as (row & Hr & ->); [lia|]. exists row. split; [done|].
      rewrite (Hrows row) by (by eapply list_elem_of_lookup_2). lia. }
  split; [|split; [|split]].
  - intros c Hc. by apply is_mine_at_inside.
  - intros i j Hi. unfold Minesweeper.is_mine_at. cbn [fst snd].
    by rewrite getitem_wraps, Hlen' by lia.
  - intros i j Hi Hj. unfold Minesweeper.is_mine_at. cbn [fst snd].
    destruct (Hrow i) as (row & -> & Hrl); [lia|]. cbn.
    by rewrite getitem_wraps, Hrl by lia.
  - intros i j Hij. unfold Minesweeper.is_mine_at. cbn [fst snd].
    destruct (decide (- Minesweeper.height g ≤ i < Minesweeper.height g))
      as [Hi|Hi].
    + destruct (Hrow i Hi) as (row & -> & Hrl). cbn.
      rewrite getitem_outside; [done | lia].
    + rewrite getitem_outside; [done | lia].
Qed.

Lemma is_mine_indexing_witness :
  Minesweeper.is_mine_at board_2x2 (1, 1)
  = Ok (Minesweeper.is_mine board_2x2 (1, 1))
  ∧ Minesweeper.is_mine_at board_2x2 (-1, 1)
    = Minesweeper.is_mine_at board_2x2 (Minesweeper.height board_2x2 + -1, 1)
  ∧ Minesweeper.is_mine_at board_2x2 (1, -2)
    = Minesweeper.is_mine_at board_2x2 (1, Minesweeper.width board_2x2 + -2)
  ∧ Minesweeper.is_mine_at board_2x2 (0, 2) = Raise IndexError.
Proof.
  destruct (is_mine_indexing board_2x2)
    as (Hin & Hrow & Hcol & Hout);
    [apply well_formed_board_2x2 | cbn; lia | cbn; lia |].
  split; [|split; [|split]].
  - apply Hin. split; cbn; lia.
  - apply Hrow. cbn. lia.
  - apply Hcol; cbn; lia.
  - apply Hout. cbn. lia.
Defined.

(** ** nearby_mines *)

(** The eight cells around a cell. *)
Definition around (cell : Cell) : gset Cell :=
  list_to_set (filter (λ n, n ≠ cell) (neighborhood cell)).

Lemma nearby_mines_around (g : Minesweeper.t) (cell : Cell) :
  Minesweeper.nearby_mines g cell
  = Z.of_nat (size (mines_in g (around cell))).
Proof.
  rewrite nearby_mines_count. f_equal.
  rewrite <- (size_list_to_set (C := gset Cell))
    by apply NoDup_filter, NoDup_neighborhood.
  f_equal. apply set_eq. intros n. unfold mines_in, around.
  rewrite elem_of_filter, !elem_of_list_to_set, !list_elem_of_filter. tauto.
Qed.

Lemma size_around (cell : Cell) : size (around cell) = 8%nat.
Proof.
  unfold around.
  rewrite size_list_to_set by apply NoDup_filter, NoDup_neighborhood.
  assert (length (neighborhood cell) = 9%nat) as H9 by done.
  rewrite (length_filter_split (λ n, n ≠ cell)) in H9.
  rewrite (length_filter_one (λ n, ¬ n ≠ cell) _ cell
             (NoDup_neighborhood cell)) in H9.
  - rewrite decide_True in H9; [lia|]. split; [|by intros ?].
    rewrite neighborhood_offsets. apply list_elem_of_fmap.
    exists (0, 0). split; [destruct cell; cbn; f_equal; lia|].
    unfold offsets. set_solver.
  - intros x Hx. by apply dec_stable.
Qed.

(** X5: [nearby_mines] returns the number of cells around the cell, the cell
    itself left out, that are on the board and hold a mine; it is between
    0 and 8, and it is 0 exactly when no cell around holds a mine.  For
    the board the constructor returns, it is the number of cells of
    [mines] around the cell. *)
Theorem nearby_mines_spec :
  (∀ (g : Minesweeper.t) (cell : Cell),
     Minesweeper.nearby_mines g cell
     = Z.of_nat (size (mines_in g (around cell)))
     ∧ 0 ≤ Minesweeper.nearby_mines g cell ≤ 8
     ∧ (Minesweeper.nearby_mines g cell = 0
        ↔ ∀ n, n ∈ around cell → ¬ real_mine g n))
  ∧ (∀ (height width mines : Z) (draws : list (Z * Z))
       (g : Minesweeper.game) (cell : Cell),
       Minesweeper.init height width mines draws = Minesweeper.Returned g →
       Minesweeper.nearby_mines (Minesweeper.field g) cell
       = Z.of_nat (size (Minesweeper.mines g ∩ around cell))).
Proof.
  split.
  - intros g cell. rewrite nearby_mines_around.
    pose proof (subseteq_size _ _ (mines_in_subseteq g (around cell))) as Hle.
    rewrite size_around in Hle.
    split; [done|]. split; [lia|]. split.
    + intros Hz n Hn Hm.
      assert (size (mines_in g (around cell)) = 0%nat) as He by lia.
      apply size_empty_inv in He.
      apply (not_elem_of_empty (C := gset Cell) n). rewrite <- He.
      by apply elem_of_filter.
    + intros Hno.
      assert (mines_in g (around cell) = ∅) as ->; [|by rewrite size_empty].
      apply leibniz_equiv. intros n. split; [|by intros ?%not_elem_of_empty].
      intros [Hm Hn]%elem_of_filter. by destruct (Hno n).
  - intros height width mines draws g cell (_ & _ & _ & Hm)%init_Returned.
    rewrite nearby_mines_around. do 2 f_equal. apply set_eq. intros n.
    unfold mines_in. rewrite elem_of_filter, elem_of_intersection, Hm.
    tauto.
Qed.

Lemma nearby_mines_spec_witness :
  Minesweeper.nearby_mines (Minesweeper.field game_2x2) (0, 0)
  = Z.of_nat (size (Minesweeper.mines game_2x2 ∩ around (0, 0))).
Proof.
  destruct nearby_mines_spec as (_ & Hgame).
  apply (Hgame 2 2 1 [(5, 3)]). vm_compute. reflexivity.
Defined.

(** ** print *)

(** The two characters written for a cell, and the line written for a
    row. *)
Definition cell_text (b : bool) : list ascii :=
  (if b then ["|"; "X"] else ["|"; " "])%char.

Definition row_text (row : list bool) : list ascii :=
  (row ≫= cell_text) ++ ["|"%char].

(** The lines written for a list of rows: a rule, then the row. *)
Definition rows_text (width : Z) (rows : list (list bool))
  : list (list ascii) :=
  rows ≫= λ row, [Minesweeper.rule width; row_text row].

Lemma getitem_range {A : Type} (l : list A) (n : Z) :
  length l = Z.to_nat n →
  Forall2 (λ i x, Minesweeper.getitem l i = Ok x) (Minesweeper.range n) l.
Proof.
  intros Hlen. apply Forall2_same_length_lookup_2.
  - unfold Minesweeper.range. by rewrite length_seqZ.
  - intros k i x [-> Hk]%lookup_seqZ Hx.
    destruct (getitem_inside l (0 + Z.of_nat k)) as (y & Hy & ->); [lia|].
    replace (Z.to_nat (0 + Z.of_nat k)) with k in Hy by lia. congruence.
Qed.

Lemma writing_cells (g : Minesweeper.t) (i : Z) (row : list bool) :
  Minesweeper.getitem (Minesweeper.board g) i = Ok row →
  ∀ (js : list Z) (bs : list bool) (out : Minesweeper.output),
    Forall2 (λ j b, Minesweeper.getitem row j = Ok b) js bs →
    Minesweeper.writing (Minesweeper.print_cell g i) js out
    = ((out.1, out.2 ++ (bs ≫= cell_text)), None).
Proof.
  intros Hrow js bs out Hjs. revert out.
  induction Hjs as [|j b js bs Hj _ IH]; intros out;
    cbn [Minesweeper.writing].
  - rewrite app_nil_r. by destruct out.
  - unfold Minesweeper.print_cell at 1. rewrite Hrow. cbn [mbind result_bind].
    rewrite Hj. rewrite IH. unfold Minesweeper.write. cbn [fst snd].
    by rewrite <- app_assoc.
Qed.

Lemma writing_rows (g : Minesweeper.t) :
  ∀ (ix : list Z) (rows : list (list bool)) (out : list (list ascii)),
    Forall2 (λ i row, Minesweeper.getitem (Minesweeper.board g) i = Ok row
                      ∧ length row = Z.to_nat (Minesweeper.width g))
            ix rows →
    Minesweeper.writing (Minesweeper.print_row g) ix (out, [])
    = ((out ++ rows_text (Minesweeper.width g) rows, []), None).
Proof.
  intros ix rows out His. revert out.
  induction His as [|i row ix rows [Hi Hlen] _ IH]; intros out;
    cbn [Minesweeper.writing].
  - unfold rows_text. cbn. by rewrite app_nil_r.
  - unfold Minesweeper.print_row at 1.
    rewrite (writing_cells g i row Hi _ row) by by apply getitem_range.
    unfold Minesweeper.write_line. cbn [fst snd].
    rewrite IH. unfold rows_text, row_text. cbn [mbind list_bind].
    by rewrite <- !app_assoc.
Qed.

(** The lines [print] writes for a board of [height] rows of [width]
    cells. *)
Lemma print_well_formed (g : Minesweeper.t) :
  well_formed g →
  Minesweeper.print g
  = ((rows_text (Minesweeper.width g) (Minesweeper.board g)
      ++ [Minesweeper.rule (Minesweeper.width g)], []), None).
Proof.
  intros [Hlen Hrows]. unfold Minesweeper.print.
  rewrite (writing_rows g _ (Minesweeper.board g)); [done|].
  pose proof (getitem_range (Minesweeper.board g) _ Hlen) as Hall.
  apply Forall2_same_length_lookup_2; [by eapply Forall2_length|].
  intros k i row Hi Hrow. split.
  - by apply (Forall2_lookup_lr _ _ _ _ _ _ Hall Hi Hrow).
  - apply Hrows. by eapply list_elem_of_lookup_2.
Qed.

Lemma lookup_bind_chunks {A B : Type} (f : A → list B) (n : nat)
    (l : list A) :
  (∀ x, length (f x) = n) →
  ∀ (k r : nat) (x : A),
    l !! k = Some x → (r < n)%nat → (l ≫= f) !! (k * n + r)%nat = f x !! r.
Proof.
  intros Hf. induction l as [|y l IH]; intros k r x Hk Hr; [done|].
  cbn [mbind list_bind]. change (list_bind _ _ f l) with (l ≫= f).
  destruct k as [|k]; cbn in Hk.
  - injection Hk as ->. rewrite lookup_app_l by (rewrite Hf; lia). done.
  - rewrite lookup_app_r by (rewrite Hf; lia). rewrite Hf.
    replace (S k * n + r - n)%nat with (k * n + r)%nat by lia. by apply IH.
Qed.

Lemma rule_replicate (width : Z) :
  Minesweeper.rule width = replicate (2 * Z.to_nat width + 1) "-"%char.
Proof.
  unfold Minesweeper.rule. induction (Z.to_nat width) as [|n IH]; [done|].
  replace (2 * S n + 1)%nat with (S (S (2 * n + 1))) by lia.
  cbn [replicate]. rewrite <- IH. done.
Qed.

Lemma length_row_text row : length (row_text row) = (2 * length row + 1)%nat.
Proof.
  unfold row_text. rewrite List.length_app, (length_bind_const _ 2%nat).
  - cbn. lia.
  - by intros [].
Qed.

Lemma lookup_row_text row (j : nat) (b : bool) :
  row !! j = Some b →
  row_text row !! (2 * j)%nat = Some "|"%char
  ∧ row_text row !! (2 * j + 1)%nat = Some (if b then "X" else " ")%char
  ∧ row_text row !! (2 * length row)%nat = Some "|"%char.
Proof.
  intros Hj. pose proof (lookup_lt_Some _ _ _ Hj) as Hlt.
  assert (length (row ≫= cell_text) = (length row * 2)%nat) as Hlen
    by (apply length_bind_const; by intros []).
  unfold row_text. split; [|split].
  - rewrite lookup_app_l by lia.
    replace (2 * j)%nat with (j * 2 + 0)%nat by lia.
    rewrite (lookup_bind_chunks cell_text 2 row) with (x := b);
      [by destruct b | by intros [] | done | lia].
  - rewrite lookup_app_l by lia.
    replace (2 * j + 1)%nat with (j * 2 + 1)%nat by lia.
    rewrite (lookup_bind_chunks cell_text 2 row) with (x := b);
      [by destruct b | by intros [] | done | lia].
  - rewrite lookup_app_r by lia.
    by replace (2 * length row - length (row ≫= cell_text))%nat
      with 0%nat by lia.
Qed.

Lemma lookup_rows_text width rows (k : nat) (row : list bool) :
  rows !! k = Some row →
  rows_text width rows !! (2 * k)%nat = Some (Minesweeper.rule width)
  ∧ rows_text width rows !! (2 * k + 1)%nat = Some (row_text row).
Proof.
  intros Hk. unfold rows_text. split.
  - replace (2 * k)%nat with (k * 2 + 0)%nat by lia.
    rewrite (lookup_bind_chunks _ 2 rows) with (x := row);
      [done | done | done | lia].
  - replace (2 * k + 1)%nat with (k * 2 + 1)%nat by lia.
    rewrite (lookup_bind_chunks _ 2 rows) with (x := row);
      [done | done | done | lia].
Qed.

Lemma length_rows_text width rows :
  length (rows_text width rows) = (2 * length rows)%nat.
Proof.
  unfold rows_text. rewrite (length_bind_const _ 2%nat); [lia | done].
Qed.

(** X6: [print] on a board of [height] rows of [width] cells raises nothing
    and writes [2 * height + 1] lines of [2 * width + 1] characters: the
    lines at the even places are rules of ["-"], and the line after the
    rule of row [i] has ["|"] at its even places and, at the place
    [2 * j + 1], ["X"] if the cell [(i, j)] holds a mine and a space if
    not. *)
Theorem print_spec (g : Minesweeper.t) :
  well_formed g →
  ∃ lines : list (list ascii),
    Minesweeper.print g = ((lines, []), None)
    ∧ length lines = (2 * Z.to_nat (Minesweeper.height g) + 1)%nat
    ∧ (∀ line, line ∈ lines →
               length line = (2 * Z.to_nat (Minesweeper.width g) + 1)%nat)
    ∧ (∀ k : nat,
         (k ≤ Z.to_nat (Minesweeper.height g))%nat →
         lines !! (2 * k)%nat
         = Some (replicate (2 * Z.to_nat (Minesweeper.width g) + 1)
                           "-"%char))
    ∧ (∀ i j : Z,
         on_board g (i, j) →
         ∃ line,
           lines !! (2 * Z.to_nat i + 1)%nat = Some line
           ∧ line !! (2 * Z.to_nat j)%nat = Some "|"%char
           ∧ line !! (2 * Z.to_nat j + 1)%nat
             = Some (if Minesweeper.is_mine g (i, j) then "X" else " ")%char
           ∧ line !! (2 * Z.to_nat (Minesweeper.width g))%nat
             = Some "|"%char).
Proof.
  intros Hwf. pose proof Hwf as [Hlen Hrows].
  set (w := Minesweeper.width g) in *.
  exists (rows_text w (Minesweeper.board g) ++ [Minesweeper.rule w]).
  split; [by apply print_well_formed|]. split; [|split; [|split]].
  - rewrite List.length_app, length_rows_text, Hlen. cbn. lia.
  - intros line [Hin| ->%list_elem_of_singleton]%elem_of_app.
    + apply list_elem_of_bind in Hin as (row & Hin & Hrow).
      apply elem_of_cons in Hin as [->|Hin].
      * by rewrite rule_replicate, length_replicate.
      * apply list_elem_of_singleton in Hin as ->.
        by rewrite length_row_text, (Hrows row Hrow).
    + by rewrite rule_replicate, length_replicate.
  - intros k Hk. rewrite <- rule_replicate.
    destruct (decide (k < length (Minesweeper.board g))%nat) as [Hlt|Hge].
    + destruct (lookup_lt_is_Some_2 _ _ Hlt) as [row Hrow].
      rewrite lookup_app_l by (rewrite length_rows_text; lia).
      by apply (lookup_rows_text w _ k row).
    + rewrite lookup_app_r by (rewrite length_rows_text; lia).
      rewrite length_rows_text.
      by replace (2 * k - 2 * length (Minesweeper.board g))%nat
        with 0%nat by lia.
  - intros i j [Hi Hj]. cbn [fst snd] in Hi, Hj.
    destruct (lookup_lt_is_Some_2 (Minesweeper.board g) (Z.to_nat i))
      as [row Hrow]; [lia|].
    pose proof (Hrows row (list_elem_of_lookup_2 _ _ _ Hrow)) as Hrl.
    destruct (lookup_lt_is_Some_2 row (Z.to_nat j)) as [b Hb]; [lia|].
    exists (row_text row).
    rewrite lookup_app_l by (rewrite length_rows_text; lia).
    split; [by apply (lookup_rows_text w _ _ row)|].
    assert (Minesweeper.is_mine g (i, j) = b) as ->.
    { unfold Minesweeper.is_mine, Minesweeper.board_at. cbn [fst snd].
      by rewrite Hrow, Hb. }
    fold w. rewrite <- Hrl. by apply lookup_row_text.
Qed.

Lemma print_spec_witness :
  ∃ lines : list (list ascii),
    Minesweeper.print board_2x2 = ((lines, []), None)
    ∧ length lines = (2 * Z.to_nat (Minesweeper.height board_2x2) + 1)%nat
    ∧ (∀ line, line ∈ lines →
               length line
               = (2 * Z.to_nat (Minesweeper.width board_2x2) + 1)%nat)
    ∧ (∀ k : nat,
         (k ≤ Z.to_nat (Minesweeper.height board_2x2))%nat →
         lines !! (2 * k)%nat
         = Some (replicate (2 * Z.to_nat (Minesweeper.width board_2x2) + 1)
                           "-"%char))
    ∧ (∀ i j : Z,
         on_board board_2x2 (i, j) →
         ∃ line,
           lines !! (2 * Z.to_nat i + 1)%nat = Some line
           ∧ line !! (2 * Z.to_nat j)%nat = Some "|"%char
           ∧ line !! (2 * Z.to_nat j + 1)%nat
             = Some (if Minesweeper.is_mine board_2x2 (i, j)
                     then "X" else " ")%char
           ∧ line !! (2 * Z.to_nat (Minesweeper.width board_2x2))%nat
             = Some "|"%char).
Proof. apply (print_spec board_2x2), well_formed_board_2x2. Defined.

(** ** Marking the cells of a sentence *)

Lemma sentence_mark_absent s c :
  c ∉ Sentence.cells s →
  Sentence.mark_mine s c = s ∧ Sentence.mark_safe s c = s.
Proof.
  intros Hc. unfold Sentence.mark_mine, Sentence.mark_safe.
  by rewrite !decide_False.
Qed.

Lemma sentence_mark_gone s c :
  c ∉ Sentence.cells (Sentence.mark_mine s c)
  ∧ c ∉ Sentence.cells (Sentence.mark_safe s c).
Proof. rewrite cells_mark_mine, cells_mark_safe. set_solver. Qed.

(** The count after [mark_mine], and after [mark_safe]. *)
Lemma count_mark_mine s c :
  Sentence.count (Sentence.mark_mine s c)
  = Sentence.count s - (if decide (c ∈ Sentence.cells s) then 1 else 0).
Proof. unfold Sentence.mark_mine. case_decide; cbn; lia. Qed.

Lemma count_mark_safe s c :
  Sentence.count (Sentence.mark_safe s c) = Sentence.count s.
Proof. unfold Sentence.mark_safe. by case_decide. Qed.

Lemma sentence_eq (s1 s2 : Sentence) :
  Sentence.cells s1 = Sentence.cells s2 →
  Sentence.count s1 = Sentence.count s2 → s1 = s2.
Proof. destruct s1, s2. cbn. by intros -> ->. Qed.

(** The order of two marks of different cells does not matter. *)
Lemma sentence_marks_commute s c1 c2 :
  c1 ≠ c2 →
  Sentence.mark_mine (Sentence.mark_mine s c1) c2
  = Sentence.mark_mine (Sentence.mark_mine s c2) c1
  ∧ Sentence.mark_safe (Sentence.mark_safe s c1) c2
    = Sentence.mark_safe (Sentence.mark_safe s c2) c1
  ∧ Sentence.mark_safe (Sentence.mark_mine s c1) c2
    = Sentence.mark_mine (Sentence.mark_safe s c2) c1.
Proof.
  intros Hne.
  assert (c2 ∈ Sentence.cells s ∖ {[ c1 ]} ↔ c2 ∈ Sentence.cells s) as H2
    by set_solver.
  assert (c1 ∈ Sentence.cells s ∖ {[ c2 ]} ↔ c1 ∈ Sentence.cells s) as H1
    by set_solver.
  split; [|split]; apply sentence_eq;
    repeat first [rewrite cells_mark_mine | rewrite cells_mark_safe
                 | rewrite count_mark_mine | rewrite count_mark_safe].
  1, 3, 5: apply set_eq; intros x; rewrite !elem_of_difference; tauto.
  all: repeat case_decide.
  all: try tauto.
  all: lia.
Qed.

(** Of two marks of one cell, the first one counts. *)
Lemma sentence_marks_same s c :
  Sentence.mark_mine (Sentence.mark_mine s c) c = Sentence.mark_mine s c
  ∧ Sentence.mark_safe (Sentence.mark_safe s c) c = Sentence.mark_safe s c
  ∧ Sentence.mark_safe (Sentence.mark_mine s c) c = Sentence.mark_mine s c
  ∧ Sentence.mark_mine (Sentence.mark_safe s c) c = Sentence.mark_safe s c.
Proof.
  destruct (sentence_mark_gone s c) as [Hm Hs].
  destruct (sentence_mark_absent _ c Hm) as [-> ->].
  destruct (sentence_mark_absent _ c Hs) as [-> ->]. done.
Qed.

(** A list of different cells taken out of a sentence as mines: the cells
    are gone, and the count is lower by the number of them that were in
    the sentence, whatever the order of the list. *)
Lemma sentence_mark_mines s (l : list Cell) :
  NoDup l →
  foldl Sentence.mark_mine s l
  = Sentence.mk (Sentence.cells s ∖ list_to_set l)
      (Sentence.count s
       - Z.of_nat (size (Sentence.cells s ∩ list_to_set l))).
Proof.
  intros Hnd. change (foldl Sentence.mark_mine s l
                      = without_mines (list_to_set l) s).
  revert s. induction Hnd as [|c l Hc Hnd IH]; intros s; cbn [foldl list_to_set].
  - by rewrite without_mines_empty.
  - rewrite IH. apply without_mines_mark. by rewrite elem_of_list_to_set.
Qed.

Lemma sentence_mark_safes s (l : list Cell) :
  foldl Sentence.mark_safe s l
  = Sentence.mk (Sentence.cells s ∖ list_to_set l) (Sentence.count s).
Proof.
  change (foldl Sentence.mark_safe s l = without_safes (list_to_set l) s).
  revert s. induction l as [|c l IH]; intros s; cbn [foldl list_to_set].
  - by rewrite without_safes_empty.
  - rewrite IH. apply without_safes_mark.
Qed.

(** X7: [Sentence.mark_mine] and [Sentence.mark_safe] composed: marks of
    different cells commute; of marks of one cell only the first changes
    the sentence, so a cell marked safe is not counted as a mine
    afterwards; a list of different cells marked as mines, in any order,
    leaves the other cells and lowers the count by the number of cells of
    the list that were in the sentence. *)
Theorem sentence_marks_compose :
  (∀ (s : Sentence) (c1 c2 : Cell),
     c1 ≠ c2 →
     Sentence.mark_mine (Sentence.mark_mine s c1) c2
     = Sentence.mark_mine (Sentence.mark_mine s c2) c1
     ∧ Sentence.mark_safe (Sentence.mark_safe s c1) c2
       = Sentence.mark_safe (Sentence.mark_safe s c2) c1
     ∧ Sentence.mark_safe (Sentence.mark_mine s c1) c2
       = Sentence.mark_mine (Sentence.mark_safe s c2) c1)
  ∧ (∀ (s : Sentence) (c : Cell),
       Sentence.mark_mine (Sentence.mark_mine s c) c = Sentence.mark_mine s c
       ∧ Sentence.mark_safe (Sentence.mark_safe s c) c
         = Sentence.mark_safe s c
       ∧ Sentence.mark_safe (Sentence.mark_mine s c) c
         = Sentence.mark_mine s c
       ∧ Sentence.mark_mine (Sentence.mark_safe s c) c
         = Sentence.mark_safe s c)
  ∧ (∀ (s : Sentence) (l : list Cell),
       NoDup l →
       foldl Sentence.mark_mine s l
       = Sentence.mk (Sentence.cells s ∖ list_to_set l)
           (Sentence.count s
            - Z.of_nat (size (Sentence.cells s ∩ list_to_set l))))
  ∧ (∀ (s : Sentence) (l : list Cell),
       foldl Sentence.mark_safe s l
       = Sentence.mk (Sentence.cells s ∖ list_to_set l) (Sentence.count s)).
Proof.
  split; [|split; [|split]].
  - apply sentence_marks_commute.
  - apply sentence_marks_same.
  - apply sentence_mark_mines.
  - apply sentence_mark_safes.
Qed.

(** The sentence of the three neighbours of a corner, with two mines. *)
Definition corner_sentence : Sentence :=
  Sentence.mk {[ (0, 1); (1, 0); (1, 1) ]} 2.

Lemma sentence_marks_compose_witness :
  (Sentence.mark_mine (Sentence.mark_mine corner_sentence (0, 1)) (1, 0)
   = Sentence.mark_mine (Sentence.mark_mine corner_sentence (1, 0)) (0, 1)
   ∧ Sentence.mark_safe (Sentence.mark_safe corner_sentence (0, 1)) (1, 0)
     = Sentence.mark_safe (Sentence.mark_safe corner_sentence (1, 0)) (0, 1)
   ∧ Sentence.mark_safe (Sentence.mark_mine corner_sentence (0, 1)) (1, 0)
     = Sentence.mark_mine (Sentence.mark_safe corner_sentence (1, 0)) (0, 1))
  ∧ foldl Sentence.mark_mine corner_sentence [(1, 0); (5, 5)]
    = Sentence.mk
        (Sentence.cells corner_sentence ∖ list_to_set [(1, 0); (5, 5)])
        (Sentence.count corner_sentence
         - Z.of_nat (size (Sentence.cells corner_sentence
                           ∩ list_to_set [(1, 0); (5, 5)]))).
Proof.
  destruct sentence_marks_compose as (Hcomm & _ & Hfold & _). split.
  - by apply (Hcomm corner_sentence (0, 1) (1, 0)).
  - apply (Hfold corner_sentence [(1, 0); (5, 5)]).
    apply (bool_decide_unpack _). by vm_compute.
Defined.

(** ** The rules of inference on a board *)

(** X8: the rules the agent infers with are right for a sentence that is true
    of the board: the cells [known_mines] returns hold mines and the
    cells [known_safes] returns hold none; taking out a cell without a
    mine with [mark_safe] keeps the sentence true, and so does the
    sentence subset resolution builds from two true sentences; taking out
    as a mine a cell of the sentence that holds none makes it false. *)
Theorem inference_rules_sound (g : Minesweeper.t) :
  (∀ (s : Sentence) (X : gset Cell) (c : Cell),
     sound_sentence g s → Sentence.known_mines s = Some X → c ∈ X →
     real_mine g c)
  ∧ (∀ (s : Sentence) (X : gset Cell) (c : Cell),
       sound_sentence g s → Sentence.known_safes s = Some X → c ∈ X →
       ¬ real_mine g c)
  ∧ (∀ (s : Sentence) (c : Cell),
       sound_sentence g s → ¬ real_mine g c →
       sound_sentence g (Sentence.mark_safe s c))
  ∧ (∀ s1 s2 : Sentence,
       sound_sentence g s1 → sound_sentence g s2 →
       Sentence.cells s1 ⊆ Sentence.cells s2 →
       sound_sentence g (candidate s1 s2))
  ∧ (∀ (s : Sentence) (c : Cell),
       sound_sentence g s → c ∈ Sentence.cells s → ¬ real_mine g c →
       ¬ sound_sentence g (Sentence.mark_mine s c)).
Proof.
  split; [|split; [|split; [|split]]].
  - intros s X c Hs [Hsz ->]%known_mines_Some Hc.
    by apply (sound_known_mines g s c).
  - intros s X c Hs [Hz ->]%known_safes_Some Hc.
    by apply (sound_known_safes g s c).
  - intros s c Hs Hc. by apply sound_mark_safe.
  - intros s1 s2 H1 H2 Hsub. by apply sound_candidate.
  - intros s c Hs Hc Hm Hs'.
    pose proof (sound_mark_safe g s c Hm Hs) as Hsafe.
    unfold sound_sentence in Hs', Hsafe.
    rewrite cells_mark_mine, count_mark_mine in Hs'.
    rewrite cells_mark_safe, count_mark_safe in Hsafe.
    rewrite decide_True in Hs' by done. lia.
Qed.

Lemma inference_rules_sound_witness :
  real_mine board_2x2 (1, 1)
  ∧ ¬ real_mine board_2x2 (0, 1)
  ∧ sound_sentence board_2x2
      (Sentence.mark_safe (Sentence.mk {[ (0, 1); (1, 0); (1, 1) ]} 1) (0, 1))
  ∧ sound_sentence board_2x2
      (candidate (Sentence.mk {[ (1, 1) ]} 1)
                 (Sentence.mk {[ (0, 1); (1, 0); (1, 1) ]} 1))
  ∧ ¬ sound_sentence board_2x2
        (Sentence.mark_mine (Sentence.mk {[ (0, 1); (1, 0); (1, 1) ]} 1)
                            (0, 1)).
Proof.
  destruct (inference_rules_sound board_2x2)
    as (Hmines & Hsafes & Hmark & Hcand & Hwrong).
  assert (sound_sentence board_2x2
            (Sentence.mk {[ (0, 1); (1, 0); (1, 1) ]} 1)) as H3
    by (vm_compute; reflexivity).
  assert (sound_sentence board_2x2 (Sentence.mk {[ (1, 1) ]} 1)) as H1
    by (vm_compute; reflexivity).
  assert (sound_sentence board_2x2 (Sentence.mk {[ (0, 1); (1, 0) ]} 0)) as H0
    by (vm_compute; reflexivity).
  assert (¬ real_mine board_2x2 (0, 1)) as Hno
    by (intros [_ Hm]; vm_compute in Hm; discriminate Hm).
  split; [|split; [|split; [|split]]].
  - apply (Hmines (Sentence.mk {[ (1, 1) ]} 1) {[ (1, 1) ]} (1, 1));
      [exact H1 | vm_compute; reflexivity | by apply elem_of_singleton].
  - apply (Hsafes (Sentence.mk {[ (0, 1); (1, 0) ]} 0)
             {[ (0, 1); (1, 0) ]} (0, 1));
      [exact H0 | vm_compute; reflexivity |].
    apply elem_of_union_l. by apply elem_of_singleton.
  - apply Hmark; [exact H3 | exact Hno].
  - apply Hcand; [exact H1 | exact H3 |]. cbn [Sentence.cells].
    intros x ->%elem_of_singleton.
    apply elem_of_union_r. by apply elem_of_singleton.
  - apply Hwrong; [exact H3 | | exact Hno]. cbn [Sentence.cells].
    apply elem_of_union_l, elem_of_union_l. by apply elem_of_singleton.
Defined.

(** ** Marking a cell in the agent *)

Lemma agent_mark_mine_twice ai c : mark_mine (mark_mine ai c) c = mark_mine ai c.
Proof.
  unfold mark_mine. cbn. f_equal; [set_solver|].
  rewrite <- list_fmap_compose. apply list_fmap_ext.
  intros ? s _. cbn. apply sentence_marks_same.
Qed.

Lemma agent_mark_safe_twice ai c : mark_safe (mark_safe ai c) c = mark_safe ai c.
Proof.
  unfold mark_safe. cbn. f_equal; [set_solver|].
  rewrite <- list_fmap_compose. apply list_fmap_ext.
  intros ? s _. cbn. apply sentence_marks_same.
Qed.

Lemma agent_marks_commute ai c1 c2 :
  c1 ≠ c2 →
  mark_mine (mark_mine ai c1) c2 = mark_mine (mark_mine ai c2) c1
  ∧ mark_safe (mark_safe ai c1) c2 = mark_safe (mark_safe ai c2) c1
  ∧ mark_safe (mark_mine ai c1) c2 = mark_mine (mark_safe ai c2) c1.
Proof.
  intros Hne. unfold mark_mine, mark_safe. cbn.
  split; [|split]; f_equal; try set_solver;
    rewrite <- !list_fmap_compose; apply list_fmap_ext;
    intros ? s _; cbn; by apply sentence_marks_commute.
Qed.

(** X9: [MinesweeperAI.mark_mine] and [mark_safe]: the cell is in the set, no
    sentence holds it any more, the other set and the moves are as they
    were, and of every sentence only this cell is taken; a second mark of
    the same kind changes nothing, and marks of different cells
    commute. *)
Theorem agent_marks_spec :
  (∀ (ai : AI) (c : Cell),
     c ∈ mines (mark_mine ai c)
     ∧ mines (mark_mine ai c) = {[ c ]} ∪ mines ai
     ∧ safes (mark_mine ai c) = safes ai
     ∧ moves_made (mark_mine ai c) = moves_made ai
     ∧ (∀ s, s ∈ knowledge (mark_mine ai c) → c ∉ Sentence.cells s)
     ∧ Sentence.cells <$> knowledge (mark_mine ai c)
       = (λ s, Sentence.cells s ∖ {[ c ]}) <$> knowledge ai
     ∧ mark_mine (mark_mine ai c) c = mark_mine ai c)
  ∧ (∀ (ai : AI) (c : Cell),
       c ∈ safes (mark_safe ai c)
       ∧ safes (mark_safe ai c) = {[ c ]} ∪ safes ai
       ∧ mines (mark_safe ai c) = mines ai
       ∧ moves_made (mark_safe ai c) = moves_made ai
       ∧ (∀ s, s ∈ knowledge (mark_safe ai c) → c ∉ Sentence.cells s)
       ∧ Sentence.cells <$> knowledge (mark_safe ai c)
         = (λ s, Sentence.cells s ∖ {[ c ]}) <$> knowledge ai
       ∧ Sentence.count <$> knowledge (mark_safe ai c)
         = Sentence.count <$> knowledge ai
       ∧ mark_safe (mark_safe ai c) c = mark_safe ai c)
  ∧ (∀ (ai : AI) (c1 c2 : Cell),
       c1 ≠ c2 →
       mark_mine (mark_mine ai c1) c2 = mark_mine (mark_mine ai c2) c1
       ∧ mark_safe (mark_safe ai c1) c2 = mark_safe (mark_safe ai c2) c1
       ∧ mark_safe (mark_mine ai c1) c2 = mark_mine (mark_safe ai c2) c1).
Proof.
  split; [|split].
  - intros ai c. cbn [mines safes moves_made knowledge mark_mine].
    split; [set_solver|]. do 3 (split; [done|]). split; [|split].
    + intros s' (s & -> & _)%list_elem_of_fmap. apply sentence_mark_gone.
    + rewrite <- list_fmap_compose. apply list_fmap_ext.
      intros ? s _. apply cells_mark_mine.
    + apply agent_mark_mine_twice.
  - intros ai c. cbn [mines safes moves_made knowledge mark_safe].
    split; [set_solver|]. do 3 (split; [done|]). split; [|split; [|split]].
    + intros s' (s & -> & _)%list_elem_of_fmap. apply sentence_mark_gone.
    + rewrite <- list_fmap_compose. apply list_fmap_ext.
      intros ? s _. apply cells_mark_safe.
    + rewrite <- list_fmap_compose. apply list_fmap_ext.
      intros ? s _. apply count_mark_safe.
    + apply agent_mark_safe_twice.
  - apply agent_marks_commute.
Qed.

Lemma agent_marks_spec_witness :
  mark_mine (mark_mine after_first_call (0, 1)) (1, 0)
  = mark_mine (mark_mine after_first_call (1, 0)) (0, 1)
  ∧ mark_safe (mark_safe after_first_call (0, 1)) (1, 0)
    = mark_safe (mark_safe after_first_call (1, 0)) (0, 1)
  ∧ mark_safe (mark_mine after_first_call (0, 1)) (1, 0)
    = mark_mine (mark_safe after_first_call (1, 0)) (0, 1).
Proof.
  destruct agent_marks_spec as (_ & _ & Hcomm).
  by apply (Hcomm after_first_call (0, 1) (1, 0)).
Defined.

(** ** The order of the cells in the first loop *)

(** X10: the two [for] loops over the copy of a set in the first loop of the
    [while] body: whatever the order in which the set is gone through, the
    cells that are not marked yet are marked, every sentence loses them,
    with its count lowered by the number of mines it loses, and [changed]
    is set if there was such a cell. *)
Theorem deduction_order_independent :
  (∀ (ai : AI) (changed : bool) (X : gset Cell) (l : list Cell),
     NoDup l → list_to_set l = X →
     mark_new_mines (ai, changed) l
     = (mk (height ai) (width ai) (moves_made ai)
           (X ∪ mines ai) (safes ai)
           ((λ s, Sentence.mk
                    (Sentence.cells s ∖ (X ∖ mines ai))
                    (Sentence.count s
                     - Z.of_nat (size (Sentence.cells s ∩ (X ∖ mines ai)))))
              <$> knowledge ai),
        changed || bool_decide (X ∖ mines ai ≠ ∅)))
  ∧ (∀ (ai : AI) (changed : bool) (X : gset Cell) (l : list Cell),
       NoDup l → list_to_set l = X →
       mark_new_safes (ai, changed) l
       = (mk (height ai) (width ai) (moves_made ai)
             (mines ai) (X ∪ safes ai)
             ((λ s, Sentence.mk (Sentence.cells s ∖ (X ∖ safes ai))
                                (Sentence.count s))
                <$> knowledge ai),
          changed || bool_decide (X ∖ safes ai ≠ ∅))).
Proof.
  split.
  - intros ai changed X l Hl <-. rewrite mark_new_mines_set by done.
    f_equal. unfold with_mines. f_equal. apply set_eq. intros x.
    rewrite !elem_of_union, elem_of_difference.
    destruct (decide (x ∈ mines ai)); tauto.
  - intros ai changed X l Hl <-. rewrite mark_new_safes_set by done.
    f_equal. unfold with_safes. f_equal. apply set_eq. intros x.
    rewrite !elem_of_union, elem_of_difference.
    destruct (decide (x ∈ safes ai)); tauto.
Qed.

Lemma deduction_order_independent_witness :
  mark_new_mines (after_first_call, false) [(1, 0); (0, 1)]
  = (mk 8 8 {[ (0, 0) ]} ({[ (0, 1); (1, 0) ]} ∪ ∅) {[ (0, 0) ]}
        ((λ s, Sentence.mk
                 (Sentence.cells s ∖ ({[ (0, 1); (1, 0) ]} ∖ ∅))
                 (Sentence.count s
                  - Z.of_nat (size (Sentence.cells s
                                    ∩ ({[ (0, 1); (1, 0) ]} ∖ ∅)))))
           <$> knowledge after_first_call),
     false || bool_decide ({[ (0, 1); (1, 0) ]} ∖ ∅ ≠@{gset Cell} ∅)).
Proof.
  destruct deduction_order_independent as (Hmines & _).
  apply (Hmines after_first_call false {[ (0, 1); (1, 0) ]}
           [(1, 0); (0, 1)]).
  - apply (bool_decide_unpack _). by vm_compute.
  - apply (bool_decide_unpack _). by vm_compute.
Defined.

(** ** make_random_move *)

Lemma random_choice_any {A : Type} (l : list A) (x : A) :
  x ∈ l → ∃ r, random_choice r l = Ok x.
Proof.
  intros [i Hi]%list_elem_of_lookup_1. exists i.
  pose proof (lookup_lt_Some _ _ _ Hi) as Hlt.
  unfold random_choice. destruct l as [|a l]; [done|].
  by rewrite Nat.mod_small, Hi.
Qed.

(** The cells [make_random_move] chooses from. *)
Definition available (ai : AI) (c : Cell) : Prop :=
  (0 ≤ c.1 < height ai) ∧ (0 ≤ c.2 < width ai)
  ∧ c ∉ mines ai ∧ c ∉ moves_made ai.

Lemma elem_of_available ai c :
  c ∈ all_cells ai ∖ mines ai ∖ moves_made ai ↔ available ai c.
Proof.
  unfold available, all_cells.
  rewrite !elem_of_difference, elem_of_list_to_set.
  fold (cells_of_board (height ai) (width ai)).
  rewrite elem_of_cells_of_board. tauto.
Qed.

(** X11: [make_random_move] raises nothing and leaves the agent as it was; the
    move it returns is a cell of the board that is no known mine and no
    move made, whether or not it is known to be safe; it returns [None]
    exactly when there is no such cell; and every such cell is returned
    for some random number. *)
Theorem make_random_move_spec :
  (∀ (r : nat) (ai : AI),
     ∃ move : option Cell,
       make_random_move r ai = Ok (move, ai)
       ∧ match move with
         | Some c => available ai c
         | None => ∀ c, ¬ available ai c
         end)
  ∧ (∀ (ai : AI) (c : Cell),
       available ai c → ∃ r : nat, make_random_move r ai = Ok (Some c, ai)).
Proof.
  split.
  - intros r ai. unfold make_random_move. cbn zeta.
    case_decide as He.
    + exists None. split; [done|]. intros c Hc%elem_of_available.
      rewrite He in Hc. by apply not_elem_of_empty in Hc.
    + destruct (random_choice_elem r
                  (elements (all_cells ai ∖ mines ai ∖ moves_made ai)))
        as (x & Hx & Hin).
      { intros Hnil. by apply elements_empty_inv, leibniz_equiv in Hnil. }
      exists (Some x). rewrite Hx. split; [done|].
      by apply elem_of_available, elem_of_elements.
  - intros ai c Hc%elem_of_available.
    destruct (random_choice_any
                (elements (all_cells ai ∖ mines ai ∖ moves_made ai)) c)
      as [r Hr]; [by apply elem_of_elements|].
    exists r. unfold make_random_move. cbn zeta.
    rewrite decide_False by set_solver. by rewrite Hr.
Qed.

Lemma make_random_move_spec_witness :
  ∃ r : nat,
    make_random_move r after_first_call = Ok (Some (7, 7), after_first_call).
Proof.
  destruct make_random_move_spec as (_ & Hany).
  apply (Hany after_first_call (7, 7)).
  unfold available. cbn. repeat split; try lia; set_solver.
Defined.

(** ** The cells a call can mark *)

Section Within.

(** The agent at the start, and a set that holds the cells of its
    sentences. *)
Variables (ai0 : AI) (U : gset Cell).

(** The agent has the size and the moves of [ai0], and what it has more
    in [mines], in [safes] and in its sentences are cells of [U]. *)
Definition within (ai : AI) : Prop :=
  height ai = height ai0 ∧ width ai = width ai0
  ∧ moves_made ai = moves_made ai0
  ∧ mines ai ⊆ mines ai0 ∪ U ∧ safes ai ⊆ safes ai0 ∪ U
  ∧ cells_of (knowledge ai) ⊆ U.

Lemma within_mark_mine ai c : c ∈ U → within ai → within (mark_mine ai c).
Proof.
  intros Hc (? & ? & ? & ? & ? & Hk). repeat split; try done.
  - cbn. set_solver.
  - etrans; [apply mark_mine_cells_of | done].
Qed.

Lemma within_mark_safe ai c : c ∈ U → within ai → within (mark_safe ai c).
Proof.
  intros Hc (? & ? & ? & ? & ? & Hk). repeat split; try done.
  - cbn. set_solver.
  - etrans; [apply mark_safe_cells_of | done].
Qed.

Lemma within_mark_new_mines (l : list Cell) :
  (∀ c, c ∈ l → c ∈ U) →
  ∀ st, within st.1 → within (mark_new_mines st l).1.
Proof.
  unfold mark_new_mines.
  induction l as [|c l IH]; intros Hl [ai ch] Hw; [done|]. cbn [foldl].
  apply IH; [intros x Hx; apply Hl; by right|].
  case_decide; [done|]. apply within_mark_mine; [|done]. apply Hl. by left.
Qed.

Lemma within_mark_new_safes (l : list Cell) :
  (∀ c, c ∈ l → c ∈ U) →
  ∀ st, within st.1 → within (mark_new_safes st l).1.
Proof.
  unfold mark_new_safes.
  induction l as [|c l IH]; intros Hl [ai ch] Hw; [done|]. cbn [foldl].
  apply IH; [intros x Hx; apply Hl; by right|].
  case_decide; [done|]. apply within_mark_safe; [|done]. apply Hl. by left.
Qed.

Lemma within_cells ai s c :
  within ai → s ∈ knowledge ai → c ∈ elements (Sentence.cells s) → c ∈ U.
Proof.
  intros (_ & _ & _ & _ & _ & Hk) Hs Hc%elem_of_elements.
  apply Hk, elem_of_cells_of. eauto.
Qed.

Lemma within_deduce_step st k st' :
  deduce_step st k = Ok st' → within st.1 → within st'.1.
Proof.
  unfold deduce_step.
  destruct (knowledge st.1 !! k) as [sentence|] eqn:Hk; [|by intros [= <-]].
  case_decide; [by intros [= <-]|].
  intros (st1 & Hm & Hs)%bind_Ok Hw.
  assert (within st1.1) as Hw1.
  { destruct (Sentence.known_mines sentence) as [nm|] eqn:Hnm;
      [|by injection Hm as <-].
    apply known_mines_Some in Hnm as [_ ->].
    destruct (decide (_ ≠ ∅)) in Hm; [|done]. injection Hm as <-.
    apply within_mark_new_mines; [|done]. intros c.
    apply (within_cells st.1 sentence); [done|].
    by eapply list_elem_of_lookup_2. }
  destruct (Sentence.known_safes sentence); [|by injection Hs as <-].
  destruct (decide (_ ≠ ∅)) as [Hne|] in Hs; [|done]. injection Hs as <-.
  apply within_mark_new_safes; [|done].
  destruct (knowledge st1.1 !! k) as [s'|] eqn:Hk'; [|done]. cbn.
  intros c. apply (within_cells st1.1 s'); [done|].
  by eapply list_elem_of_lookup_2.
Qed.

Lemma within_deduce st st' : deduce st = Ok st' → within st.1 → within st'.1.
Proof.
  intros Hd Hw.
  eapply (for_each_invariant (λ s, within s.1)); [done | | exact Hd].
  intros s k s' _ Hs Hstep. by eapply within_deduce_step.
Qed.

Lemma within_closure_body fuel st st' :
  closure_body fuel st = Ok st' → within st.1 → within st'.1.
Proof.
  unfold closure_body.
  intros (st1 & Hd & ([kb ch] & Hr & [= <-])%bind_Ok)%bind_Ok Hw.
  assert (within st1.1) as (? & ? & ? & ? & ? & Hk).
  { destruct st.2; [|by injection Hd as <-].
    by apply (within_deduce (st.1, false)). }
  pose proof (resolve_outer_Ok (cells_of (knowledge st1.1)) _ _
                (cells_of_elem _) _ _ Hr) as Hinv.
  repeat split; try done. cbn [fst knowledge set_knowledge].
  intros c (s & [_ Hs]%remove_empty_elem & Hc)%elem_of_cells_of.
  apply Hk.
  by apply (outer_inv_cells _ _ _ (cells_of_elem _) _ _ _ Hinv Hs).
Qed.

Lemma within_closure fuel :
  ∀ st ai', closure fuel st = Ok ai' → within st.1 → within ai'.
Proof.
  induction fuel as [|fuel IH]; intros st ai'; cbn;
    destruct st.2; try done; try (by intros [= <-]).
  intros (st' & Hb & Hc)%bind_Ok Hw.
  eapply IH; [done|]. by eapply within_closure_body.
Qed.

End Within.

(** The neighbours of a cell the loop of [add_knowledge] can keep: those
    with row and column in [range(height)]. *)
Definition neighbors (height : Z) (cell : Cell) : gset Cell :=
  list_to_set
    (filter (λ n, n ≠ cell ∧ (0 ≤ n.1 < height) ∧ (0 ≤ n.2 < height))
            (neighborhood cell)).

Lemma elem_of_neighbors height cell n :
  n ∈ neighbors height cell
  ↔ n ∈ neighborhood cell ∧ n ≠ cell
    ∧ (0 ≤ n.1 < height) ∧ (0 ≤ n.2 < height).
Proof.
  unfold neighbors. rewrite elem_of_list_to_set, list_elem_of_filter. tauto.
Qed.

Lemma cells_of_app kb1 kb2 :
  cells_of (kb1 ++ kb2) = cells_of kb1 ∪ cells_of kb2.
Proof.
  apply set_eq. intros c.
  rewrite elem_of_union, !elem_of_cells_of. split.
  - intros (s & [?|?]%elem_of_app & ?); eauto.
  - intros [(s & ? & ?)|(s & ? & ?)]; exists s;
      (split; [apply elem_of_app; auto | done]).
Qed.

Lemma within_add_sentence ai cell count ai1 :
  add_sentence ai cell count = Ok ai1 →
  within (mark_safe (add_moves_made ai cell) cell)
         (cells_of (knowledge ai) ∪ neighbors (height ai) cell) ai1.
Proof.
  unfold add_sentence. intros ([nc c] & Hn & Hr)%bind_Ok.
  set (a := mark_safe (add_moves_made ai cell) cell) in *.
  assert (cells_of (knowledge a) ⊆ cells_of (knowledge ai)) as Hka
    by apply (mark_safe_cells_of (add_moves_made ai cell) cell).
  apply neighbor_sentence_Ok in Hn as [-> _].
  case_decide; injection Hr as <-; repeat split; try done;
    try set_solver.
  cbn [knowledge set_knowledge]. rewrite cells_of_app.
  apply union_least; [set_solver|].
  intros x (s & ->%list_elem_of_singleton & Hx)%elem_of_cells_of.
  apply elem_of_union_r. cbn [Sentence.cells] in Hx.
  apply elem_of_list_to_set, list_elem_of_filter in Hx as [Hu Hx].
  apply elem_of_neighbors. unfold undetermined in Hu. cbn in Hu. tauto.
Qed.

Lemma within_add_knowledge fuel ai cell count ai' :
  add_knowledge fuel ai cell count = Ok ai' →
  within (mark_safe (add_moves_made ai cell) cell)
         (cells_of (knowledge ai) ∪ neighbors (height ai) cell) ai'.
Proof.
  unfold add_knowledge. intros (ai1 & Ha & Hc)%bind_Ok.
  eapply within_closure; [done|]. by apply (within_add_sentence ai cell count).
Qed.

(** X12: a call that returns keeps the size of the board, adds its cell to the
    moves made and to the safe cells, and marks no cell it has no sentence
    about: what is new in [mines], in [safes] and in the sentences are
    cells of the sentences the agent had and neighbours of the cell with
    row and column in [range(height)]. *)
Theorem add_knowledge_frame
    (fuel : nat) (ai : AI) (cell : Cell) (count : Z) (ai' : AI) :
  add_knowledge fuel ai cell count = Ok ai' →
  height ai' = height ai ∧ width ai' = width ai
  ∧ moves_made ai' = {[ cell ]} ∪ moves_made ai
  ∧ cell ∈ safes ai'
  ∧ mines ai'
    ⊆ mines ai ∪ cells_of (knowledge ai) ∪ neighbors (height ai) cell
  ∧ safes ai'
    ⊆ {[ cell ]} ∪ safes ai ∪ cells_of (knowledge ai)
      ∪ neighbors (height ai) cell
  ∧ cells_of (knowledge ai')
    ⊆ cells_of (knowledge ai) ∪ neighbors (height ai) cell.
Proof.
  intros Hadd.
  pose proof (extends_add_knowledge _ _ _ _ _ Hadd) as (_ & _ & Hsafe).
  apply within_add_knowledge in Hadd as (Hh & Hw & Hm & Hmi & Hsa & Hk).
  cbn [height width moves_made mines safes mark_safe add_moves_made]
    in Hh, Hw, Hm, Hmi, Hsa.
  set (N := neighbors (height ai) cell) in *.
  set (K := cells_of (knowledge ai)) in *. clearbody N K.
  do 4 (split; [done|]). split; [|split; [|done]].
  - intros c Hc%Hmi. rewrite !elem_of_union in *. tauto.
  - intros c Hc%Hsa. rewrite !elem_of_union in *. tauto.
Qed.

Lemma add_knowledge_frame_witness :
  height after_first_call = height (init 8 8)
  ∧ width after_first_call = width (init 8 8)
  ∧ moves_made after_first_call = {[ (0, 0) ]} ∪ moves_made (init 8 8)
  ∧ (0, 0) ∈ safes after_first_call
  ∧ mines after_first_call
    ⊆ mines (init 8 8) ∪ cells_of (knowledge (init 8 8))
      ∪ neighbors (height (init 8 8)) (0, 0)
  ∧ safes after_first_call
    ⊆ {[ (0, 0) ]} ∪ safes (init 8 8) ∪ cells_of (knowledge (init 8 8))
      ∪ neighbors (height (init 8 8)) (0, 0)
  ∧ cells_of (knowledge after_first_call)
    ⊆ cells_of (knowledge (init 8 8)) ∪ neighbors (height (init 8 8)) (0, 0).
Proof.
  apply (add_knowledge_frame 20 (init 8 8) (0, 0) 1 after_first_call).
  vm_compute. reflexivity.
Defined.

(** ** The knowledge base when a call returns *)

(** X13: a call that returns, from an agent whose sentences hold no marked
    cell, leaves a knowledge base with nothing more to conclude by the two
    rules of the [while] loop: no sentence with cells tells a mine or a
    safe cell, no cell of a sentence is marked, and the sentence subset
    resolution builds from two sentences is in the knowledge base. *)
Theorem add_knowledge_fixpoint
    (fuel : nat) (ai : AI) (cell : Cell) (count : Z) (ai' : AI) :
  pending ai → add_knowledge fuel ai cell count = Ok ai' →
  (∀ s, s ∈ knowledge ai' → Sentence.cells s ≠ ∅ →
        Sentence.known_mines s = None ∧ Sentence.known_safes s = None)
  ∧ (∀ s c, s ∈ knowledge ai' → c ∈ Sentence.cells s →
            c ∉ mines ai' ∧ c ∉ safes ai')
  ∧ (∀ s1 s2, s1 ∈ knowledge ai' → s2 ∈ knowledge ai' → s1 ≠ s2 →
              Sentence.cells s1 ≠ ∅ →
              Sentence.cells s1 ⊆ Sentence.cells s2 →
              Sentence.mk (Sentence.cells s2 ∖ Sentence.cells s1)
                          (Sentence.count s2 - Sentence.count s1)
              ∈ knowledge ai').
Proof.
  intros Hp Hadd.
  destruct (add_knowledge_saturated _ _ _ _ _ Hadd Hp) as (Hi & Hc & _).
  destruct (kept_add_knowledge _ _ _ _ _ Hadd Hp) as [Hp' _].
  split; [|split].
  - intros s Hs Hne. by destruct (Hi s Hs) as [?|?].
  - intros s c Hs Hin. destruct (Hp' s c Hs Hin) as (? & ? & _). done.
  - intros s1 s2 H1 H2 Hne Hne1 Hsub. apply (Hc s1 s2 H1 H2).
    repeat split; try done. intros He. apply Hne1. set_solver.
Qed.

Lemma add_knowledge_fixpoint_witness :
  (∀ s, s ∈ knowledge after_first_call → Sentence.cells s ≠ ∅ →
        Sentence.known_mines s = None ∧ Sentence.known_safes s = None)
  ∧ (∀ s c, s ∈ knowledge after_first_call → c ∈ Sentence.cells s →
            c ∉ mines after_first_call ∧ c ∉ safes after_first_call)
  ∧ (∀ s1 s2, s1 ∈ knowledge after_first_call →
              s2 ∈ knowledge after_first_call → s1 ≠ s2 →
              Sentence.cells s1 ≠ ∅ →
              Sentence.cells s1 ⊆ Sentence.cells s2 →
              Sentence.mk (Sentence.cells s2 ∖ Sentence.cells s1)
                          (Sentence.count s2 - Sentence.count s1)
              ∈ knowledge after_first_call).
Proof.
  apply (add_knowledge_fixpoint 20 (init 8 8) (0, 0) 1 after_first_call).
  - apply pending_init.
  - vm_compute. reflexivity.
Defined.

Lemma filter_none {A : Type} (P : A → Prop) `{!∀ x, Decision (P x)}
    (l : list A) :
  (∀ x, x ∈ l → ¬ P x) → filter P l = [].
Proof.
  induction l as [|x l IH]; intros Hl; [done|].
  rewrite filter_cons_False by (apply Hl; by left).
  apply IH. intros y Hy. apply Hl. by right.
Qed.

(** X14: when a call for a cell returns, the neighbours of the cell are
    settled as far as its count goes: the loop over the neighbours, run
    again, keeps no neighbour, or the count it leaves is neither 0 nor the
    number of neighbours it keeps.  So after a call with the count 0, when
    no neighbour is a known mine, every neighbour with row and column in
    [range(height)] is a known safe cell. *)
Theorem revealed_cell_settled
    (fuel : nat) (ai : AI) (cell : Cell) (count : Z) (ai' : AI) :
  pending ai → add_knowledge fuel ai cell count = Ok ai' →
  (∃ (nc : gset Cell) (c : Z),
     neighbor_sentence ai' cell count = Ok (nc, c)
     ∧ (nc = ∅ ∨ c ≠ 0 ∧ c ≠ Z.of_nat (size nc)))
  ∧ (count = 0 → (∀ n, n ∈ neighborhood cell → n ∉ mines ai') →
     ∀ n, n ∈ neighbors (height ai') cell → n ∈ safes ai').
Proof.
  intros Hp Hadd.
  destruct (add_knowledge_saturated _ _ _ _ _ Hadd Hp) as (Hi & _ & _).
  destruct (add_knowledge_again _ _ _ _ _ Hp Hadd)
    as (_ & _ & nc & c & Hn & Hin & _).
  assert (nc = ∅ ∨ c ≠ 0 ∧ c ≠ Z.of_nat (size nc)) as Hsettled.
  { destruct (decide (nc = ∅)) as [|Hne]; [by left|]. right.
    destruct (Hi _ (Hin Hne)) as [He|[Hm Hs]]; [done|].
    unfold Sentence.known_mines, Sentence.known_safes in *. cbn in *.
    repeat case_decide; done. }
  split; [by exists nc, c|].
  intros -> Hmines n Hn'.
  apply neighbor_sentence_Ok in Hn as [-> ->].
  destruct (decide (n ∈ safes ai')) as [|Hns]; [done|]. exfalso.
  apply elem_of_neighbors in Hn' as (Hnb & Hne & Hrow & Hcol).
  pose proof (Hmines n Hnb) as Hnm.
  assert (n ∈ (list_to_set (filter (undetermined ai' cell)
                                   (neighborhood cell)) : gset Cell))
    as Hin'.
  { apply elem_of_list_to_set, list_elem_of_filter.
    split; [|done]. unfold undetermined. tauto. }
  destruct Hsettled as [He|[Hc _]];
    [rewrite He in Hin'; by apply not_elem_of_empty in Hin'|].
  apply Hc.
  rewrite (filter_none (accounted ai' cell) (neighborhood cell)); [done|].
  intros x Hx (Hxc & Hxs & Hxm). by apply (Hmines x).
Qed.

(** The agent after [add_knowledge((0, 0), 0)] on a new agent of a board
    of 8 rows and 8 columns. *)
Definition after_zero_call : AI :=
  mk 8 8 {[ (0, 0) ]} ∅ {[ (0, 0); (0, 1); (1, 0); (1, 1) ]} [].

Lemma revealed_cell_settled_witness :
  (∃ (nc : gset Cell) (c : Z),
     neighbor_sentence after_zero_call (0, 0) 0 = Ok (nc, c)
     ∧ (nc = ∅ ∨ c ≠ 0 ∧ c ≠ Z.of_nat (size nc)))
  ∧ (0 = 0 →
     (∀ n, n ∈ neighborhood (0, 0) → n ∉ mines after_zero_call) →
     ∀ n, n ∈ neighbors (height after_zero_call) (0, 0) →
          n ∈ safes after_zero_call).
Proof.
  apply (revealed_cell_settled 20 (init 8 8) (0, 0) 0 after_zero_call).
  - apply pending_init.
  - vm_compute. reflexivity.
Defined.

(** ** Games with true counts *)

Section NoAssertion.

Variable g : Minesweeper.t.

(** Two sentences that are true of the board and have the same cells are
    the same sentence, so the assertion of subset resolution holds. *)
Lemma sound_resolve_pair_returns st s1 s2 e :
  sound_sentence g s1 → sound_sentence g s2 →
  resolve_pair st s1 s2 ≠ Raise e.
Proof.
  intros H1 H2. rewrite resolve_pair_unfold.
  destruct (decide (resolvable s1 s2)) as [Hr|]; [|done].
  case_decide; [done|]. case_decide as Hne; [done|]. exfalso.
  apply candidate_empty in Hne; [|done].
  destruct Hr as (Hdiff & _). apply Hdiff, sentence_eq; [done|].
  unfold sound_sentence in H1, H2. by rewrite H1, H2, Hne.
Qed.

Lemma sound_resolve_inner_returns s1 fuel :
  ∀ st j e, sound_list g st.1 → sound_sentence g s1 →
            resolve_inner fuel st s1 j ≠ Raise e.
Proof.
  induction fuel as [|fuel IH]; intros st j e Hl H1; [done|].
  rewrite resolve_inner_S. destruct (st.1 !! j) as [s2|] eqn:Hj; [|done].
  assert (sound_sentence g s2) as H2 by (by eapply Hl, list_elem_of_lookup_2).
  destruct (resolve_pair st s1 s2) as [st'|e'|] eqn:Hp; cbn; [| |done].
  - apply IH; [|done]. by apply (sound_resolve_pair g st s1 s2 st').
  - by apply sound_resolve_pair_returns in Hp.
Qed.

Lemma sound_resolve_outer_returns fuel :
  ∀ st i e, sound_list g st.1 → resolve_outer fuel st i ≠ Raise e.
Proof.
  induction fuel as [|fuel IH]; intros st i e Hl; [done|].
  rewrite resolve_outer_S. destruct (st.1 !! i) as [s1|] eqn:Hi; [|done].
  assert (sound_sentence g s1) as H1 by (by eapply Hl, list_elem_of_lookup_2).
  destruct (resolve_inner fuel st s1 0) as [st'|e'|] eqn:Hp; cbn; [| |done].
  - apply IH. by apply (sound_resolve_inner g fuel st s1 st').
  - by apply sound_resolve_inner_returns in Hp.
Qed.

Lemma sound_closure_body_returns fuel st e :
  sound g st.1 → closure_body fuel st ≠ Raise e.
Proof.
  intros Hs. unfold closure_body.
  assert (∃ st1, (if st.2 then deduce (st.1, false) else Ok st) = Ok st1
                 ∧ sound g st1.1) as (st1 & -> & Hm & Hsf & Hk).
  { destruct st.2; [|eauto].
    destruct (deduce_returns (st.1, false)) as [st1 Hd]. exists st1.
    split; [done|]. by apply (sound_deduce g (st.1, false)). }
  cbn [mbind result_bind].
  destruct (resolve_outer fuel (knowledge st1.1, st1.2) 0)
    as [[kb ch]|e'|] eqn:Hr; [done| |done].
  by apply sound_resolve_outer_returns in Hr.
Qed.

Lemma sound_closure_returns fuel :
  ∀ st e, sound g st.1 → closure fuel st ≠ Raise e.
Proof.
  induction fuel as [|fuel IH]; intros st e Hs; cbn;
    destruct st.2; try done.
  destruct (closure_body fuel st) as [st'|e'|] eqn:Hb; cbn; [| |done].
  - apply IH. by apply (sound_closure_body g fuel st st').
  - by apply sound_closure_body_returns in Hb.
Qed.

End NoAssertion.

(** X15: in a game with true counts on a board of at most 8 rows and no wider
    than high, no assertion of [add_knowledge] fails: the call for a cell
    of the board without a mine, with its true count, returns. *)
Theorem play_never_raises
    (g : Minesweeper.t) (ai : AI) (cell : Cell) :
  Minesweeper.width g ≤ Minesweeper.height g → Minesweeper.height g ≤ 8 →
  played g ai → on_board g cell → Minesweeper.is_mine g cell = false →
  ∃ (fuel : nat) (ai' : AI),
    (∀ more : nat,
       add_knowledge (fuel + more) ai cell (Minesweeper.nearby_mines g cell)
       = Ok ai')
    ∧ played g ai'.
Proof.
  intros Hw H8 Hp Hb Hm.
  destruct (played_sound g ai Hw Hp) as (Hs & Hh & _).
  set (count := Minesweeper.nearby_mines g cell).
  destruct (add_sentence_cases ai cell count) as [[ai1 Ha]|[? _]]; [|lia].
  assert (sound g ai1) as Hs1.
  { apply (sound_add_sentence g ai cell ai1); [lia | lia | done | | done].
    intros [_ ?]. congruence. }
  destruct (closure_terminates (ai1, true)) as [fuel Hf].
  destruct (closure fuel (ai1, true)) as [ai'|e|] eqn:Hc; [| |done].
  - assert (add_knowledge fuel ai cell count = Ok ai') as Hadd
      by (unfold add_knowledge; by rewrite Ha).
    exists fuel, ai'. split; [|by eapply played_reveal].
    intros more. rewrite <- Hadd.
    apply (add_knowledge_fuel ai cell count); [lia | congruence].
  - by apply (sound_closure_returns g) in Hc.
Qed.

Lemma play_never_raises_witness :
  ∃ (fuel : nat) (ai' : AI),
    (∀ more : nat,
       add_knowledge (fuel + more) agent_2x2 (0, 1)
                     (Minesweeper.nearby_mines board_2x2 (0, 1))
       = Ok ai')
    ∧ played board_2x2 ai'.
Proof.
  apply (play_never_raises board_2x2 agent_2x2 (0, 1)).
  - cbn. lia.
  - cbn. lia.
  - apply played_2x2.
  - split; cbn; lia.
  - reflexivity.
Defined.

(** ** What the agent knows in a game *)

Lemma played_moves_safe (g : Minesweeper.t) (ai : AI) :
  played g ai → moves_made ai ⊆ safes ai.
Proof.
  induction 1 as [|ai cell fuel ai' _ IH Hb Hm Hadd]; [done|].
  pose proof (extends_add_knowledge _ _ _ _ _ Hadd)
    as ((_ & _ & _ & _ & Hsafes) & _ & Hcell).
  apply within_add_knowledge in Hadd as (_ & _ & -> & _).
  cbn. set_solver.
Qed.

(** X16: in a game with true counts on a board no wider than high, what the
    agent knows is true of the board: the cells of [mines] hold mines, the
    cells of [safes] hold none, the count of every sentence is the number
    of its cells that hold a mine, and the moves made are safe cells. *)
Theorem knowledge_is_true (g : Minesweeper.t) (ai : AI) :
  Minesweeper.width g ≤ Minesweeper.height g → played g ai →
  (∀ c, c ∈ mines ai → on_board g c ∧ Minesweeper.is_mine g c = true)
  ∧ (∀ c, c ∈ safes ai → on_board g c → Minesweeper.is_mine g c = false)
  ∧ (∀ s, s ∈ knowledge ai →
          Sentence.count s = Z.of_nat (size (mines_in g (Sentence.cells s))))
  ∧ moves_made ai ⊆ safes ai.
Proof.
  intros Hw Hp. destruct (played_sound g ai Hw Hp) as ((Hm & Hs & Hk) & _).
  split; [|split; [|split]].
  - intros c Hc. by apply Hm.
  - intros c Hc Hb. apply not_true_is_false. intros Hmine.
    by apply (Hs c Hc).
  - intros s Hin. by apply Hk.
  - by apply (played_moves_safe g).
Qed.

Lemma knowledge_is_true_witness :
  (∀ c, c ∈ mines agent_2x2 →
        on_board board_2x2 c ∧ Minesweeper.is_mine board_2x2 c = true)
  ∧ (∀ c, c ∈ safes agent_2x2 → on_board board_2x2 c →
          Minesweeper.is_mine board_2x2 c = false)
  ∧ (∀ s, s ∈ knowledge agent_2x2 →
          Sentence.count s
          = Z.of_nat (size (mines_in board_2x2 (Sentence.cells s))))
  ∧ moves_made agent_2x2 ⊆ safes agent_2x2.
Proof.
  apply (knowledge_is_true board_2x2 agent_2x2); [cbn; lia | apply played_2x2].
Defined.

(** ** The safe moves of a game *)

Lemma make_safe_move_Some r ai c ai' :
  make_safe_move r ai = Ok (Some c, ai') →
  c ∈ safes ai ∧ c ∉ moves_made ai ∧ ai' = ai.
Proof.
  unfold make_safe_move. cbn zeta. case_decide as Hne; [|done].
  destruct (random_choice_elem r (elements (safes ai ∖ moves_made ai)))
    as (x & -> & Hx%elem_of_elements).
  { intros He. by apply elements_empty_inv, leibniz_equiv in He. }
  cbn. intros [= <- <-]. set_solver.
Qed.

Lemma make_safe_move_any ai c :
  c ∈ safes ai → c ∉ moves_made ai →
  ∃ r, make_safe_move r ai = Ok (Some c, ai).
Proof.
  intros Hs Hm.
  destruct (random_choice_any (elements (safes ai ∖ moves_made ai)) c)
    as [r Hr]; [apply elem_of_elements; set_solver|].
  exists r. unfold make_safe_move. cbn zeta.
  rewrite decide_True by set_solver. by rewrite Hr.
Qed.

(** On a board as wide as high, every cell the agent has marked or keeps
    in a sentence is a cell of the board. *)
Lemma played_on_board (g : Minesweeper.t) (ai : AI) :
  Minesweeper.width g = Minesweeper.height g → played g ai →
  ∀ c, c ∈ moves_made ai ∪ mines ai ∪ safes ai ∪ cells_of (knowledge ai) →
       on_board g c.
Proof.
  intros Hw. induction 1 as [|ai cell fuel ai' Hp IH Hb Hm Hadd].
  - intros c. cbn. set_solver.
  - destruct (played_sound g ai ltac:(lia) Hp) as (_ & Hh & _).
    apply within_add_knowledge in Hadd as (_ & _ & Hmv & Hmi & Hsa & Hk).
    cbn [moves_made mines safes mark_safe add_moves_made] in Hmv, Hmi, Hsa.
    assert (∀ c, c ∈ neighbors (height ai) cell → on_board g c) as Hn.
    { intros c (_ & _ & ? & ?)%elem_of_neighbors. split; lia. }
    intros c Hc.
    assert (c = cell
            ∨ c ∈ moves_made ai ∪ mines ai ∪ safes ai ∪ cells_of (knowledge ai)
            ∨ c ∈ neighbors (height ai) cell) as [->|[?|?]];
      [|done|by apply IH|by apply Hn].
    rewrite Hmv in Hc. clear IH Hn.
    set (N := neighbors (height ai) cell) in *.
    set (K := cells_of (knowledge ai)) in *. clearbody N K.
    rewrite !elem_of_union in Hc.
    destruct Hc as [[[Hc|Hc]|Hc]|Hc];
      [|apply Hmi in Hc|apply Hsa in Hc|apply Hk in Hc];
      rewrite ?elem_of_union, ?elem_of_singleton in *; tauto.
Qed.

(** A board of 3 rows and 2 columns with a mine at (2, 0), and the agent
    after the cell (0, 1) is revealed, with its count 0. *)
Definition board_3x2 : Minesweeper.t :=
  Minesweeper.mk 3 2 [[false; false]; [false; false]; [true; false]].

Definition agent_3x2 : AI :=
  mk 3 2 {[ (0, 1) ]} ∅
     {[ (0, 0); (0, 1); (0, 2); (1, 0); (1, 1); (1, 2) ]} [].

Lemma played_3x2 : played board_3x2 agent_3x2.
Proof.
  apply (played_reveal board_3x2 (agent_of board_3x2) (0, 1) 20).
  - apply played_new.
  - split; cbn; lia.
  - reflexivity.
  - vm_compute. reflexivity.
Qed.

(** X17: in a game with true counts on a board no wider than high, the move
    [make_safe_move] returns holds no mine and is no move made; on a board
    as wide as high it is a cell of the board.  On a board higher than
    wide it need not be: on the board of 3 rows and 2 columns, after the
    cell (0, 1) is revealed, [make_safe_move] can return (0, 2), which is
    in no column of the board. *)
Theorem safe_moves_are_safe :
  (∀ (g : Minesweeper.t) (ai ai' : AI) (r : nat) (c : Cell),
     Minesweeper.width g ≤ Minesweeper.height g → played g ai →
     make_safe_move r ai = Ok (Some c, ai') →
     ¬ real_mine g c ∧ c ∉ moves_made ai)
  ∧ (∀ (g : Minesweeper.t) (ai ai' : AI) (r : nat) (c : Cell),
       Minesweeper.width g = Minesweeper.height g → played g ai →
       make_safe_move r ai = Ok (Some c, ai') →
       on_board g c ∧ Minesweeper.is_mine g c = false)
  ∧ (played board_3x2 agent_3x2
     ∧ ¬ on_board board_3x2 (0, 2)
     ∧ ∃ r : nat, make_safe_move r agent_3x2 = Ok (Some (0, 2), agent_3x2)).
Proof.
  split; [|split; [|split; [|split]]].
  - intros g ai ai' r c Hw Hp (Hs & Hm & _)%make_safe_move_Some.
    destruct (played_sound g ai Hw Hp) as ((_ & Hsafe & _) & _).
    split; [by apply Hsafe | done].
  - intros g ai ai' r c Hw Hp (Hs & Hm & _)%make_safe_move_Some.
    destruct (played_sound g ai ltac:(lia) Hp) as ((_ & Hsafe & _) & _).
    assert (on_board g c) as Hb
      by (apply (played_on_board g ai Hw Hp); set_solver).
    split; [done|]. apply not_true_is_false. intros Hmine.
    by apply (Hsafe c Hs).
  - apply played_3x2.
  - intros [_ Hc]. cbn in Hc. lia.
  - apply make_safe_move_any; cbn; set_solver.
Qed.

(** A board of 2 rows and 2 columns without a mine, and the agent after
    the cell (0, 0) is revealed. *)
Definition board_2x2_clear : Minesweeper.t :=
  Minesweeper.mk 2 2 [[false; false]; [false; false]].

Definition agent_2x2_clear : AI :=
  mk 2 2 {[ (0, 0) ]} ∅ {[ (0, 0); (0, 1); (1, 0); (1, 1) ]} [].

Lemma played_2x2_clear : played board_2x2_clear agent_2x2_clear.
Proof.
  apply (played_reveal board_2x2_clear (agent_of board_2x2_clear) (0, 0) 20).
  - apply played_new.
  - split; cbn; lia.
  - reflexivity.
  - vm_compute. reflexivity.
Qed.

Lemma safe_moves_are_safe_witness :
  (¬ real_mine board_2x2_clear (0, 1) ∧ (0, 1) ∉ moves_made agent_2x2_clear)
  ∧ on_board board_2x2_clear (0, 1)
  ∧ Minesweeper.is_mine board_2x2_clear (0, 1) = false.
Proof.
  destruct safe_moves_are_safe as (Hsafe & Hboard & _). split.
  - apply (Hsafe board_2x2_clear agent_2x2_clear agent_2x2_clear
             0%nat (0, 1));
      [cbn; lia | apply played_2x2_clear | vm_compute; reflexivity].
  - apply (Hboard board_2x2_clear agent_2x2_clear agent_2x2_clear
             0%nat (0, 1));
      [cbn; lia | apply played_2x2_clear | vm_compute; reflexivity].
Defined.
